(** * Electoral-roll OCR extractor: a shallow embedding of [script.py]

    The development embeds the core of [EnhancedElectoralRollExtractor]
    (the class written out by [src/script.py]):
    - [clean_ocr_text_advanced]            (text normaliser),
    - [extract_text_from_image_multi_config] (OCR configuration selector),
    - [extract_metadata_flexible]          (metadata extractor),
    - [find_voter_records_flexible]        (record segmenter),
    - [parse_voter_record_flexible]        (record builder),
    together with the part of Python's [re] module these functions use.

    Text is a list of Unicode code points.  Character classes follow
    Python's [str] patterns: the white-space class is the full table of
    [str.isspace]; digits, word characters and case folding are those of
    the code points below 128. *)

From Stdlib Require Import Ascii String.
From Stdlib Require Import List Bool Arith Lia ZArith NArith QArith.
Import ListNotations.
Close Scope Q_scope.
Open Scope nat_scope.

Set Implicit Arguments.

(* ================================================================== *)
(** * Characters and strings *)

Definition char := N.
Definition str := list char.

Definition s2l (s : string) : str := map N_of_ascii (list_ascii_of_string s).

Definition ch (a : ascii) : char := N_of_ascii a.

Definition in_range (lo hi c : char) : bool := (lo <=? c)%N && (c <=? hi)%N.

(** [str.isspace] / the class [\s] of a [str] pattern. *)
Definition is_space (c : char) : bool :=
  in_range 9%N 13%N c || in_range 28%N 32%N c || (c =? 133)%N || (c =? 160)%N
  || (c =? 5760)%N || in_range 8192%N 8202%N c || (c =? 8232)%N || (c =? 8233)%N
  || (c =? 8239)%N || (c =? 8287)%N || (c =? 12288)%N.

(** Digits, letters and word characters are those of ASCII, the characters
    of the rolls the patterns are written for; Python's classes [\d] and
    [\w], [str.lower] and [re.IGNORECASE] also reach the digits and letters
    of other scripts. *)
Definition is_digit (c : char) : bool := in_range 48%N 57%N c.
Definition is_upper (c : char) : bool := in_range 65%N 90%N c.
Definition is_lower (c : char) : bool := in_range 97%N 122%N c.
Definition is_alpha (c : char) : bool := is_upper c || is_lower c.
(** The class [\w]. *)
Definition is_word (c : char) : bool := is_alpha c || is_digit c || (c =? 95)%N.

Definition lower (c : char) : char := if is_upper c then (c + 32)%N else c.
Definition upper (c : char) : char := if is_lower c then (c - 32)%N else c.

Definition str_lower (s : str) : str := map lower s.

Fixpoint str_eqb (a b : str) : bool :=
  match a, b with
  | [], [] => true
  | x :: a', y :: b' => (x =? y)%N && str_eqb a' b'
  | _, _ => false
  end.

(** [s.strip()] *)
Fixpoint lstrip (s : str) : str :=
  match s with
  | c :: s' => if is_space c then lstrip s' else s
  | [] => []
  end.

Definition rstrip (s : str) : str := rev (lstrip (rev s)).

Definition strip (s : str) : str := rstrip (lstrip s).

(** [s[a:b]] for non-negative [a], [b]. *)
Definition slice (a b : nat) (s : str) : str := firstn (b - a) (skipn a s).

Fixpoint is_prefix (p s : str) : bool :=
  match p, s with
  | [], _ => true
  | x :: p', y :: s' => (x =? y)%N && is_prefix p' s'
  | _ :: _, [] => false
  end.

(** [p in s] on strings. *)
Fixpoint contains (p s : str) : bool :=
  is_prefix p s || match s with [] => false | _ :: s' => contains p s' end.

(** [int(s)] on a string of decimal digits. *)
Definition digit_val (c : char) : Z := Z.of_N (c - 48)%N.

Definition int_of_digits (s : str) : Z :=
  fold_left (fun acc c => acc * 10 + digit_val c)%Z s 0%Z.

(** [str(n)] for a natural number. *)
Fixpoint digits_of_nat_aux (fuel n : nat) (acc : str) : str :=
  match fuel with
  | O => acc
  | S f =>
      let d := (N.of_nat (n mod 10) + 48)%N in
      if n <? 10 then d :: acc else digits_of_nat_aux f (n / 10) (d :: acc)
  end.

Definition str_of_nat (n : nat) : str := digits_of_nat_aux (S n) n [].

(** [s.title()] *)
Fixpoint title_aux (prev_cased : bool) (s : str) : str :=
  match s with
  | [] => []
  | c :: s' =>
      (if prev_cased then lower c else upper c) :: title_aux (is_alpha c) s'
  end.

Definition title (s : str) : str := title_aux false s.

(* ================================================================== *)
(** * Regular expressions: the fragment of Python's [re] the extractor uses *)

Inductive cset_item :=
| CChar (c : char)
| CRange (lo hi : char)
| CSpace                         (* \s *)
| CDigit.                        (* \d *)

Inductive re :=
| Empty
| Lit (c : char)
| Any                            (* .   *)
| InSet (items : list cset_item) (* [...], and \s, \d outside a set *)
| Bol                            (* ^   *)
| Eol                            (* $   *)
| WordB                          (* \b  *)
| Seq (r1 r2 : re)
| Alt (r1 r2 : re)
| Repeat (greedy : bool) (lo : nat) (hi : option nat) (r : re)
| Group (n : nat) (r : re).

Record flags := Flags { IGNORECASE : bool; MULTILINE : bool; DOTALL : bool }.

Definition no_flags := Flags false false false.
Definition flag_I := Flags true false false.
Definition flag_IM := Flags true true false.
Definition flag_IS := Flags true false true.

(** ** Pattern syntax

    Patterns are kept as the strings of the source and read by [re_parse];
    a string literal holds UTF-8 bytes, decoded first. *)

Fixpoint utf8_decode (bs : list N) : str :=
  match bs with
  | [] => []
  | b :: t =>
      if (b <? 128)%N then b :: utf8_decode t
      else if (b <? 224)%N then
        match t with
        | b1 :: t1 => ((b - 192) * 64 + (b1 - 128))%N :: utf8_decode t1
        | [] => [b]
        end
      else if (b <? 240)%N then
        match t with
        | b1 :: b2 :: t2 =>
            ((b - 224) * 4096 + (b1 - 128) * 64 + (b2 - 128))%N :: utf8_decode t2
        | _ => [b]
        end
      else
        match t with
        | b1 :: b2 :: b3 :: t3 =>
            ((b - 240) * 262144 + (b1 - 128) * 4096 + (b2 - 128) * 64 + (b3 - 128))%N
              :: utf8_decode t3
        | _ => [b]
        end
  end.

Definition u (s : string) : str := utf8_decode (s2l s).

Definition isc (c : char) (a : ascii) : bool := (c =? ch a)%N.

(** The character an escaped letter stands for: [\n], [\t], [\r], [\f],
    [\v]; any other escaped character stands for itself. *)
Definition unescape (e : char) : char :=
  if isc e "n" then 10%N
  else if isc e "t" then 9%N
  else if isc e "r" then 13%N
  else if isc e "f" then 12%N
  else if isc e "v" then 11%N
  else e.

Fixpoint parse_nat_aux (s : str) (acc : nat) : nat * str :=
  match s with
  | c :: s' =>
      if is_digit c then parse_nat_aux s' (acc * 10 + N.to_nat (c - 48)%N) else (acc, s)
  | [] => (acc, s)
  end.

(** The items of a set, up to the closing bracket. *)
Fixpoint parse_set (fuel : nat) (s : str) (acc : list cset_item)
  : option (list cset_item * str) :=
  match fuel with
  | O => None
  | S f =>
      match s with
      | [] => None
      | c :: s1 =>
          if isc c "]" then Some (rev acc, s1)
          else if isc c "\" then
            match s1 with
            | e :: s2 =>
                if isc e "s" then parse_set f s2 (CSpace :: acc)
                else if isc e "d" then parse_set f s2 (CDigit :: acc)
                else parse_set f s2 (CChar (unescape e) :: acc)
            | [] => None
            end
          else
            match s1 with
            | d :: hi :: s3 =>
                if isc d "-" && negb (isc hi "]")
                then parse_set f s3 (CRange c hi :: acc)
                else parse_set f s1 (CChar c :: acc)
            | _ => parse_set f s1 (CChar c :: acc)
            end
      end
  end.

(** A quantifier after an atom, if any: [*], [+], [?], [{m}], [{m,}],
    [{m,n}], each optionally followed by [?] (lazy). *)
Definition parse_lazy (s : str) : bool * str :=
  match s with
  | c :: s' => if isc c "?" then (false, s') else (true, s)
  | [] => (true, s)
  end.

Definition parse_quant (a : re) (s : str) : re * str :=
  match s with
  | c :: s1 =>
      if isc c "*" then
        let '(g, s2) := parse_lazy s1 in (Repeat g 0 None a, s2)
      else if isc c "+" then
        let '(g, s2) := parse_lazy s1 in (Repeat g 1 None a, s2)
      else if isc c "?" then
        let '(g, s2) := parse_lazy s1 in (Repeat g 0 (Some 1) a, s2)
      else if isc c "{" then
        let '(lo, s2) := parse_nat_aux s1 0 in
        match s2 with
        | d :: s3 =>
            if isc d "}" then
              let '(g, s4) := parse_lazy s3 in (Repeat g lo (Some lo) a, s4)
            else if isc d "," then
              match s3 with
              | e :: s4 =>
                  if isc e "}" then
                    let '(g, s5) := parse_lazy s4 in (Repeat g lo None a, s5)
                  else
                    let '(hi, s5) := parse_nat_aux s3 0 in
                    match s5 with
                    | _ :: s6 =>
                        let '(g, s7) := parse_lazy s6 in (Repeat g lo (Some hi) a, s7)
                    | [] => (a, s)
                    end
              | [] => (a, s)
              end
            else (a, s)
        | [] => (a, s)
        end
      else (a, s)
  | [] => (a, s)
  end.

(** Alternations, sequences and atoms; [g] is the number of capturing
    groups opened so far. *)
Fixpoint parse_alt (fuel : nat) (s : str) (g : nat) : option (re * str * nat) :=
  match fuel with
  | O => None
  | S f =>
      match parse_seq f s g with
      | Some (r1, s1, g1) =>
          match s1 with
          | c :: s2 =>
              if isc c "|" then
                match parse_alt f s2 g1 with
                | Some (r2, s3, g2) => Some (Alt r1 r2, s3, g2)
                | None => None
                end
              else Some (r1, s1, g1)
          | [] => Some (r1, s1, g1)
          end
      | None => None
      end
  end

with parse_seq (fuel : nat) (s : str) (g : nat) : option (re * str * nat) :=
  match fuel with
  | O => None
  | S f =>
      match s with
      | [] => Some (Empty, s, g)
      | c :: _ =>
          if isc c "|" || isc c ")" then Some (Empty, s, g)
          else
            match parse_atom f s g with
            | Some (a, s1, g1) =>
                let '(q, s2) := parse_quant a s1 in
                match parse_seq f s2 g1 with
                | Some (Empty, s3, g3) => Some (q, s3, g3)
                | Some (r, s3, g3) => Some (Seq q r, s3, g3)
                | None => None
                end
            | None => None
            end
      end
  end

with parse_atom (fuel : nat) (s : str) (g : nat) : option (re * str * nat) :=
  match fuel with
  | O => None
  | S f =>
      match s with
      | [] => None
      | c :: s1 =>
          if isc c "(" then
            match s1 with
            | q :: k :: s3 =>
                if isc q "?" && isc k ":" then
                  match parse_alt f s3 g with
                  | Some (r, d :: s4, g1) =>
                      if isc d ")" then Some (r, s4, g1) else None
                  | _ => None
                  end
                else
                  match parse_alt f s1 (S g) with
                  | Some (r, d :: s4, g1) =>
                      if isc d ")" then Some (Group (S g) r, s4, g1) else None
                  | _ => None
                  end
            | _ => None
            end
          else if isc c "[" then
            match parse_set (S (length s1)) s1 [] with
            | Some (items, s2) => Some (InSet items, s2, g)
            | None => None
            end
          else if isc c "\" then
            match s1 with
            | e :: s2 =>
                if isc e "s" then Some (InSet [CSpace], s2, g)
                else if isc e "d" then Some (InSet [CDigit], s2, g)
                else if isc e "b" then Some (WordB, s2, g)
                else Some (Lit (unescape e), s2, g)
            | [] => None
            end
          else if isc c "." then Some (Any, s1, g)
          else if isc c "^" then Some (Bol, s1, g)
          else if isc c "$" then Some (Eol, s1, g)
          else Some (Lit c, s1, g)
      end
  end.

Definition re_parse (p : str) : option re :=
  match parse_alt (3 * length p + 3) p 0 with
  | Some (r, [], _) => Some r
  | _ => None
  end.

(** [re.compile]: a pattern that does not parse is an error in Python;
    here it becomes the set with no member, which matches nothing. *)
Definition re_compile (p : str) : re :=
  match re_parse p with
  | Some r => r
  | None => InSet []
  end.

(** [re.escape] *)
Definition is_special (c : char) : bool :=
  existsb (fun x => (c =? x)%N)
    (u "()[]{}?*+-|^$\.&~# " ++ [9; 10; 13; 11; 12]%N).

Definition re_escape (s : str) : str :=
  flat_map (fun c => if is_special c then [ch "\"; c] else [c]) s.

(* ================================================================== *)
(** * The matcher

    A backtracking matcher in continuation-passing style, with the
    priorities of Python's engine: alternatives left to right, greedy
    repeats longest first, lazy repeats shortest first.  A state holds the
    position in the text, the character before it, the text from it on, and
    the spans of the groups closed so far (latest first). *)

Definition spans := list (nat * (nat * nat)).

Record mstate := MState {
  m_pos : nat;
  m_prev : option char;
  m_rest : str;
  m_caps : spans
}.

Definition item_has (c : char) (it : cset_item) : bool :=
  match it with
  | CChar x => (c =? x)%N
  | CRange lo hi => in_range lo hi c
  | CSpace => is_space c
  | CDigit => is_digit c
  end.

Definition set_has (items : list cset_item) (c : char) : bool :=
  existsb (item_has c) items.

Definition opt_word (o : option char) : bool :=
  match o with Some c => is_word c | None => false end.

Definition below (hi : option nat) (count : nat) : bool :=
  match hi with Some h => count <? h | None => true end.

Definition at_pos (last : option nat) (p : nat) : bool :=
  match last with Some q => q =? p | None => false end.

Definition set_cap (n a b : nat) (st : mstate) : mstate :=
  MState (m_pos st) (m_prev st) (m_rest st) ((n, (a, b)) :: m_caps st).

Section Matcher.

Variable fl : flags.

Definition lit_ok (x c : char) : bool :=
  if IGNORECASE fl then (lower c =? lower x)%N else (c =? x)%N.

Definition any_ok (c : char) : bool := DOTALL fl || negb (c =? 10)%N.

Definition in_set (items : list cset_item) (c : char) : bool :=
  if IGNORECASE fl then set_has items (lower c) || set_has items (upper c)
  else set_has items c.

Definition at_bol (st : mstate) : bool :=
  match m_prev st with
  | None => true
  | Some p => MULTILINE fl && (p =? 10)%N
  end.

Definition at_eol (st : mstate) : bool :=
  match m_rest st with
  | [] => true
  | c :: r => (c =? 10)%N && (MULTILINE fl || match r with [] => true | _ => false end)
  end.

Definition at_wordb (st : mstate) : bool :=
  xorb (opt_word (m_prev st)) (opt_word (hd_error (m_rest st))).

Definition step_char (ok : char -> bool) (st : mstate)
    (k : mstate -> option mstate) : option mstate :=
  match m_rest st with
  | c :: rest' =>
      if ok c then k (MState (S (m_pos st)) (Some c) rest' (m_caps st)) else None
  | [] => None
  end.

Definition or_else (a : option mstate) (b : unit -> option mstate) : option mstate :=
  match a with Some e => Some e | None => b tt end.

(** The body of a repeat is tried again while the count allows it and the
    previous optional round did not stand still. *)
Fixpoint rmatch (r : re) (st : mstate) (k : mstate -> option mstate)
    {struct r} : option mstate :=
  match r with
  | Empty => k st
  | Lit x => step_char (lit_ok x) st k
  | Any => step_char any_ok st k
  | InSet items => step_char (in_set items) st k
  | Bol => if at_bol st then k st else None
  | Eol => if at_eol st then k st else None
  | WordB => if at_wordb st then k st else None
  | Seq r1 r2 => rmatch r1 st (fun st' => rmatch r2 st' k)
  | Alt r1 r2 => or_else (rmatch r1 st k) (fun _ => rmatch r2 st k)
  | Group n r' =>
      rmatch r' st (fun st' => k (set_cap n (m_pos st) (m_pos st') st'))
  | Repeat greedy lo hi r' =>
      (fix loop (fuel count : nat) (last : option nat) (st : mstate)
           {struct fuel} : option mstate :=
         match fuel with
         | O => None
         | S fuel' =>
             if count <? lo then
               rmatch r' st (fun st' => loop fuel' (S count) last st')
             else
               let more := below hi count && negb (at_pos last (m_pos st)) in
               let again (_ : unit) :=
                 rmatch r' st
                   (fun st' => loop fuel' (S count) (Some (m_pos st)) st') in
               if greedy then
                 if more then or_else (again tt) (fun _ => k st) else k st
               else
                 or_else (k st) (fun _ => if more then again tt else None)
         end) (lo + length (m_rest st) + 2) 0 None st
  end.

(** A match may not be empty at the place where the previous empty match
    was found ([adv]). *)
Definition accept (adv : bool) (p0 : nat) (e : mstate) : option mstate :=
  if adv && (m_pos e =? p0) then None else Some e.

(** The leftmost match starting at [pos] or later: its start and final state. *)
Fixpoint search_from (r : re) (adv : bool) (p0 pos : nat) (prev : option char)
    (rest : str) : option (nat * mstate) :=
  match rmatch r (MState pos prev rest []) (accept adv p0) with
  | Some e => Some (pos, e)
  | None =>
      match rest with
      | [] => None
      | c :: rest' => search_from r adv p0 (S pos) (Some c) rest'
      end
  end.

(** All matches, left to right, none overlapping ([re.finditer]). *)
Fixpoint scan (r : re) (fuel : nat) (adv : bool) (pos : nat)
    (prev : option char) (rest : str) : list (nat * mstate) :=
  match fuel with
  | O => []
  | S f =>
      match search_from r adv pos pos prev rest with
      | None => []
      | Some (b, e) =>
          (b, e) :: scan r f (m_pos e =? b) (m_pos e) (m_prev e) (m_rest e)
      end
  end.

End Matcher.

Definition scan_fuel (text : str) : nat := 2 * length text + 2.

(** ** Match objects *)

Record rmatch_obj := Match {
  mo_text : str;
  mo_start : nat;
  mo_end : nat;
  mo_caps : spans
}.

Fixpoint span_of (n : nat) (caps : spans) : option (nat * nat) :=
  match caps with
  | [] => None
  | (m, ab) :: caps' => if m =? n then Some ab else span_of n caps'
  end.

(** [m.group(n)]; group 0 is the whole match.  Every group of the source's
    patterns lies on each path through its pattern, so the case of a group
    that took no part (Python's [None]) does not arise; it reads as empty. *)
Definition group (m : rmatch_obj) (n : nat) : str :=
  match n with
  | O => slice (mo_start m) (mo_end m) (mo_text m)
  | _ =>
      match span_of n (mo_caps m) with
      | Some (a, b) => slice a b (mo_text m)
      | None => []
      end
  end.

Definition to_match (text : str) (be : nat * mstate) : rmatch_obj :=
  Match text (fst be) (m_pos (snd be)) (m_caps (snd be)).

(** [re.search(pattern, text, flags)] *)
Definition re_search (fl : flags) (r : re) (text : str) : option rmatch_obj :=
  option_map (to_match text) (search_from fl r false 0 0 None text).

(** [re.finditer(pattern, text)] *)
Definition re_finditer (fl : flags) (r : re) (text : str) : list rmatch_obj :=
  map (to_match text) (scan fl r (scan_fuel text) false 0 None text).

(** [re.sub(pattern, repl, text, flags)] for a replacement without group
    references: the text between the matches, with [repl] for each match. *)
Fixpoint join_sub (text repl : str) (from : nat) (ms : list rmatch_obj) : str :=
  match ms with
  | [] => skipn from text
  | m :: ms' =>
      slice from (mo_start m) text ++ repl ++ join_sub text repl (mo_end m) ms'
  end.

Definition re_sub (fl : flags) (r : re) (repl text : str) : str :=
  join_sub text repl 0 (re_finditer fl r text).

(** [re.split(pattern, text, flags)]: the pieces between the matches, each
    match contributing its groups [1..ngroups]. *)
Fixpoint ngroups (r : re) : nat :=
  match r with
  | Seq a b | Alt a b => Nat.max (ngroups a) (ngroups b)
  | Repeat _ _ _ a => ngroups a
  | Group n a => Nat.max n (ngroups a)
  | _ => 0
  end.

Fixpoint join_split (text : str) (ng : nat) (from : nat) (ms : list rmatch_obj)
  : list str :=
  match ms with
  | [] => [skipn from text]
  | m :: ms' =>
      slice from (mo_start m) text
        :: map (group m) (seq 1 ng) ++ join_split text ng (mo_end m) ms'
  end.

Definition re_split (fl : flags) (r : re) (text : str) : list str :=
  join_split text (ngroups r) 0 (re_finditer fl r text).

Definition pat (s : string) : re := re_compile (u s).

(** A pattern cascade: the patterns are tried in order and the first one
    whose attempt succeeds ends the loop ([break]); an attempt that gives
    nothing falls through to the next pattern. *)
Fixpoint cascade (A : Type) (attempt : re -> option A) (pats : list re) : option A :=
  match pats with
  | [] => None
  | p :: ps =>
      match attempt p with
      | Some a => Some a
      | None => cascade attempt ps
      end
  end.

(** Python dictionaries with string keys, in insertion order. *)
Definition dict := list (string * str).

Fixpoint dict_find (d : dict) (k : string) : option str :=
  match d with
  | [] => None
  | (k', v) :: d' => if String.eqb k' k then Some v else dict_find d' k
  end.

(** [d.get(k, default)] *)
Definition dict_get (d : dict) (k : string) (default : str) : str :=
  match dict_find d k with Some v => v | None => default end.

(** [d[k] = v] *)
Fixpoint dict_set (d : dict) (k : string) (v : str) : dict :=
  match d with
  | [] => [(k, v)]
  | (k', v') :: d' =>
      if String.eqb k' k then (k', v) :: d' else (k', v') :: dict_set d' k v
  end.

Definition nonempty (s : str) : bool :=
  match s with [] => false | _ => true end.

(* ================================================================== *)
(** * Text normaliser: [clean_ocr_text_advanced] *)

Definition ocr_corrections : list (string * string) :=
  [ ("Nanre", "Name"); ("Narne", "Name"); ("Natne", "Name"); ("Nanie", "Name");
    ("Narme", "Name"); ("Namre", "Name"); ("Nanne", "Name");
    ("Fathers", "Father"); ("Fathars", "Father"); ("Fathar", "Father");
    ("Husbands", "Husband"); ("Hurband", "Husband"); ("Husbamd", "Husband");
    ("Hursband", "Husband"); ("Husbanc", "Husband");
    ("Aqe", "Age"); ("Agg", "Age"); ("Agge", "Age"); ("Agae", "Age");
    ("Gendsr", "Gender"); ("Gendet", "Gender"); ("Gencer", "Gender");
    ("Malg", "Male"); ("Malle", "Male"); ("Maie", "Male");
    ("Fernale", "Female"); ("Femala", "Female"); ("Femsle", "Female");
    ("Femaie", "Female"); ("Fenale", "Female");
    ("Houre", "House"); ("Housr", "House"); ("Hourse", "House");
    ("Numbsr", "Number"); ("Numbef", "Number"); ("Numbar", "Number");
    ("|", "I"); ("rn", "m"); ("0", "O");
    ("cl", "d"); ("ii", "ll"); ("vv", "w") ]%string.

(** One round of the loop over the table:
    [re.sub(r'\b' + re.escape(wrong) + r'\b', correct, text, flags=re.IGNORECASE)] *)
Definition apply_correction (text : str) (wc : string * string) : str :=
  re_sub flag_I (re_compile (u "\b" ++ re_escape (u (fst wc)) ++ u "\b"))
    (u (snd wc)) text.

Definition apply_corrections (text : str) : str :=
  fold_left apply_correction ocr_corrections text.

(** The clean-up of white space and punctuation that follows the table. *)
Definition tidy (text : str) : str :=
  let text := re_sub no_flags (pat "\s+") (u " ") text in
  let text := re_sub no_flags (pat "\n\s*\n") [10%N] text in
  let text := strip text in
  let text := re_sub no_flags (pat "\s*:\s*") (u ": ") text in
  let text := re_sub no_flags (pat "\s*,\s*") (u ", ") text in
  text.

Definition clean_ocr_text_advanced (text : str) : str :=
  if nonempty text then tidy (apply_corrections text) else [].

(* ================================================================== *)
(** * OCR configuration selector: [extract_text_from_image_multi_config]

    The OCR engine is outside the program.  For the preprocessed page image
    it is taken as a function from a configuration to what the two calls
    made with it do: [image_to_string] returns the text or raises, and
    [image_to_data] returns the integers read from [data['conf']] or raises
    (whatever fails inside the inner [try] goes to its bare [except]).
    The preprocessing of the image before the loop and the debug file
    written after it lie outside the model: the result is that of a call in
    which both succeed. *)

Inductive outcome (A : Type) :=
| Returned (a : A)
| Raised.

Arguments Raised {A}.

Record ocr_result := OcrResult {
  image_to_string : outcome str;
  image_to_data : outcome (list Z)
}.

Definition ocr_configs : list string :=
  [ "--oem 3 --psm 6"; "--oem 3 --psm 4"; "--oem 3 --psm 8";
    "--oem 3 --psm 7"; "--oem 3 --psm 13" ]%string.

Definition Qltb (a b : Q) : bool := negb (Qle_bool b a).

(** [sum(confidences) / len(confidences) if confidences else 0], over the
    positive entries; the quotient is taken exactly, where Python rounds it
    to a float. *)
Definition average (confidences : list Z) : Q :=
  match confidences with
  | [] => 0%Q
  | _ => (inject_Z (fold_right Z.add 0%Z confidences)
          / inject_Z (Z.of_nat (length confidences)))%Q
  end.

Definition avg_confidence (text : str) (data : outcome (list Z)) : Q :=
  match data with
  | Returned conf => average (filter (fun c => (0 <? c)%Z) conf)
  | Raised => inject_Z (Z.of_nat (length text))
  end.

(** The state of the loop: [(best_text, best_confidence)]. *)
Definition best := (str * Q)%type.

(** The body of the outer [try]. *)
Definition attempt (b : best) (r : ocr_result) : outcome best :=
  match image_to_string r with
  | Raised => Raised
  | Returned text =>
      let avg := avg_confidence text (image_to_data r) in
      Returned (if Qltb (snd b) avg then (text, avg) else b)
  end.

(** One round of the loop: [except Exception: continue]. *)
Definition try_config (b : best) (r : ocr_result) : best :=
  match attempt b r with
  | Returned b' => b'
  | Raised => b
  end.

Definition select_best (results : list ocr_result) : best :=
  fold_left try_config results ([], 0%Q).

Definition extract_text_from_image_multi_config (engine : string -> ocr_result)
  : outcome str :=
  Returned (fst (select_best (map engine ocr_configs))).

(* ================================================================== *)
(** * Metadata extractor: [extract_metadata_flexible] *)

Definition constituency_patterns : list re :=
  [ pat "Assembly\s+Constituency.*?(\d+).*?[-–—]\s*([A-Z][A-Z\s\(\)]+?)(?:Part|GENERAL|$)";
    pat "Constituency.*?(\d+).*?[-–—]\s*([A-Z][A-Z\s\(\)]+?)(?:Part|GENERAL|$)";
    pat "(\d{2,3})\s*[-–—]\s*([A-Z][A-Z\s\(\)]{5,}?)(?:Part|GENERAL|$)";
    pat "(\d+)\s*[-–—]\s*([A-Z\s]{8,}?)(?:\s|$)" ].

Definition part_patterns : list re :=
  [ pat "Part\s+No\.?\s*:?\s*(\d+)";
    pat "Part\s+Number\s*:?\s*(\d+)";
    pat "Part\s*:?\s*(\d+)";
    pat "(\d+)\s*$" ].

Definition parliament_patterns : list re :=
  [ pat "Parliamentary\s+Constituency.*?(\d+).*?[-–—]\s*([A-Z][A-Z\s\(\)]+)";
    pat "Lok\s+Sabha.*?(\d+).*?[-–—]\s*([A-Z][A-Z\s\(\)]+)" ].

Definition location_patterns : list (string * re) :=
  [ ("district"%string,    pat "District\s*:?\s*([A-Z][A-Z\s]+?)(?:\s*\d|\s*Pin|\s*$)");
    ("subdivision"%string, pat "Subdivision\s*:?\s*([A-Z][A-Z\s]+?)(?:\s*District|\s*$)");
    ("tehsil"%string,      pat "Tehsil\s*:?\s*([A-Z][A-Z\s]+?)(?:\s*$)");
    ("block"%string,       pat "Block\s*:?\s*([A-Z][A-Z\s]+?)(?:\s*$)");
    ("pin_code"%string,    pat "Pin\s+code\s*:?\s*(\d{6})") ].

(** [for pattern in ...: match = re.search(...); if match: ...; break] *)
Definition first_match (fl : flags) (pats : list re) (text : str)
  : option rmatch_obj :=
  cascade (fun p => re_search fl p text) pats.

Definition set_location (text : str) (metadata : dict) (kp : string * re) : dict :=
  match re_search flag_I (snd kp) text with
  | Some m => dict_set metadata (fst kp) (strip (group m 1))
  | None => metadata
  end.

Definition extract_metadata_flexible (text : str) : dict :=
  let metadata : dict := [] in
  let text_clean := clean_ocr_text_advanced text in
  let metadata :=
    match first_match flag_IS constituency_patterns text_clean with
    | Some m =>
        dict_set (dict_set metadata "vidhan_sabha_constituency_no" (strip (group m 1)))
          "vidhan_sabha_name" (strip (group m 2))
    | None => metadata
    end in
  let metadata :=
    match first_match flag_I part_patterns text_clean with
    | Some m => dict_set metadata "part_no" (strip (group m 1))
    | None => metadata
    end in
  let metadata :=
    match first_match flag_IS parliament_patterns text_clean with
    | Some m =>
        dict_set (dict_set metadata "lok_sabha_constituency_no" (strip (group m 1)))
          "lok_sabha_name" (strip (group m 2))
    | None => metadata
    end in
  fold_left (set_location text_clean) location_patterns metadata.

(* ================================================================== *)
(** * Record segmenter: [find_voter_records_flexible] *)

Definition id_patterns : list re :=
  [ pat "[A-Z]{2,4}/\d+/\d+/\d+";
    pat "[A-Z]{3}\d{7,10}";
    pat "[A-Z]{2,4}\d{7,10}" ].

(** An entry of [id_positions]: [(match.start(), match.end(), match.group())]. *)
Definition id_pos := (nat * nat * str)%type.

Fixpoint str_compare (a b : str) : comparison :=
  match a, b with
  | [], [] => Eq
  | [], _ :: _ => Lt
  | _ :: _, [] => Gt
  | x :: a', y :: b' =>
      match (x ?= y)%N with
      | Eq => str_compare a' b'
      | c => c
      end
  end.

(** The order of Python tuples. *)
Definition id_pos_leb (p q : id_pos) : bool :=
  let '(s1, e1, g1) := p in
  let '(s2, e2, g2) := q in
  match s1 ?= s2 with
  | Lt => true
  | Gt => false
  | Eq =>
      match e1 ?= e2 with
      | Lt => true
      | Gt => false
      | Eq => match str_compare g1 g2 with Gt => false | _ => true end
      end
  end.

Fixpoint insert_sorted (p : id_pos) (l : list id_pos) : list id_pos :=
  match l with
  | [] => [p]
  | q :: l' => if id_pos_leb p q then p :: l else q :: insert_sorted p l'
  end.

(** [l.sort()] *)
Definition sort_positions (l : list id_pos) : list id_pos :=
  fold_right insert_sorted [] l.

Definition find_id_positions (text_clean : str) : list id_pos :=
  sort_positions
    (flat_map
       (fun pattern =>
          map (fun m => (mo_start m, mo_end m, group m 0))
              (re_finditer no_flags pattern text_clean))
       id_patterns).

(** The block of one identifier; [next] is the start of the entry after it,
    if there is one. *)
Definition id_block (text_clean : str) (start : nat) (next : option nat) : str :=
  let block_start := Nat.max 0 (start - 50) in
  let block_end :=
    match next with
    | Some n => n
    | None => Nat.min (length text_clean) (start + 1000)
    end in
  strip (slice block_start block_end text_clean).

(** [if block_text and len(block_text) > 20] *)
Definition keep_block (block_text : str) : bool :=
  nonempty block_text && (20 <? length block_text).

(** Strategy 1: the loop over [enumerate(id_positions)]. *)
Fixpoint id_blocks (text_clean : str) (id_positions : list id_pos) : list str :=
  match id_positions with
  | [] => []
  | (start, _, _) :: rest =>
      let block_text :=
        id_block text_clean start
          (match rest with
           | (next, _, _) :: _ => Some next
           | [] => None
           end) in
      (if keep_block block_text then [block_text] else [])
        ++ id_blocks text_clean rest
  end.

Definition keywords : list str := [u "age"; u "gender"; u "house"].

(** Strategy 2: the chunks after each [Name:]. *)
Definition name_chunk (part : str) : str := u "Name: " ++ strip (firstn 500 part).

Definition keep_chunk (chunk : str) : bool :=
  (30 <? length chunk)
  && existsb (fun keyword => contains keyword (str_lower chunk)) keywords.

Definition name_blocks (text_clean : str) : list str :=
  let name_parts := re_split flag_I (pat "Name\s*:") text_clean in
  filter keep_chunk (map name_chunk (tl name_parts)).

(** Strategy 3: [for i in range(1, len(parts), 3): if i + 2 < len(parts)],
    that is the triples [parts[i], parts[i+1], parts[i+2]] that are whole. *)
Definition serial_pattern : re := pat "(\d+)\s+([A-Z]{2,4}[/\d]+|Name\s*:)".

Definition combine (serial prefix content : str) : str :=
  strip (serial ++ u " " ++ prefix ++ u " " ++ content).

Fixpoint serial_triples (parts : list str) : list str :=
  match parts with
  | serial :: prefix :: content :: rest =>
      let combined := combine serial prefix (firstn 800 content) in
      (if 30 <? length combined then [combined] else []) ++ serial_triples rest
  | _ => []
  end.

Definition serial_blocks (text_clean : str) : list str :=
  serial_triples (tl (re_split flag_I serial_pattern text_clean)).

Definition is_nil (A : Type) (l : list A) : bool :=
  match l with [] => true | _ => false end.

Definition find_voter_records_flexible (text : str) : list str :=
  let text_clean := clean_ocr_text_advanced text in
  let voter_blocks : list str := [] in
  let id_positions := find_id_positions text_clean in
  let voter_blocks :=
    if is_nil id_positions then voter_blocks
    else id_blocks text_clean id_positions in
  let voter_blocks :=
    if is_nil voter_blocks then name_blocks text_clean else voter_blocks in
  let voter_blocks :=
    if is_nil voter_blocks then serial_blocks text_clean else voter_blocks in
  voter_blocks.

(* ================================================================== *)
(** * Record builder: [parse_voter_record_flexible] *)

Definition categorize_age (age : Z) : str :=
  if (age <? 18)%Z then u "Under 18"
  else if (age <=? 29)%Z then u "18-29"
  else if (age <=? 45)%Z then u "30-45"
  else u "45+".

Definition state_mappings : list (string * list string) :=
  [ ("west bengal", ["hooghly"; "kolkata"; "howrah"; "north 24 parganas";
                     "south 24 parganas"; "darjeeling"]);
    ("uttar pradesh", ["agra"; "lucknow"; "kanpur"; "allahabad"; "varanasi";
                       "meerut"; "ghaziabad"]);
    ("maharashtra", ["mumbai"; "pune"; "nagpur"; "thane"; "nashik"]);
    ("gujarat", ["ahmedabad"; "surat"; "vadodara"; "rajkot"]);
    ("rajasthan", ["jaipur"; "jodhpur"; "udaipur"; "bikaner"]);
    ("bihar", ["patna"; "gaya"; "muzaffarpur"; "bhagalpur"]);
    ("odisha", ["bhubaneswar"; "cuttack"; "berhampur"; "sambalpur"]) ]%string.

Definition determine_region (district : str) : str :=
  if nonempty district then
    let district_lower := str_lower district in
    match
      find (fun sd => existsb (fun d => contains (u d) district_lower) (snd sd))
           state_mappings
    with
    | Some (state, _) => title (u state)
    | None => district
    end
  else [].

Record voter := Voter {
  lok_sabha_constituency_no : str;
  vidhan_sabha_constituency_no : str;
  part_no : str;
  vidhan_sabha_name : str;
  grampanchayet_name : str;
  ward_no_name : str;
  tehsil_block_name : str;
  region : str;
  division : str;
  district : str;
  epic : str;
  serial_no : str;
  name : str;
  father_husband_name : str;
  house_no : str;
  age : Z;
  gender : str;
  religion : str;
  caste : str;
  age_group : str;
  family_size : str
}.

Definition epic_patterns : list re :=
  [ pat "([A-Z]{2,4}/\d+/\d+/\d+)";
    pat "([A-Z]{3}\d{7,10})";
    pat "([A-Z]{2,4}\d{7,10})" ].

Definition name_patterns : list re :=
  [ pat "Name\s*:\s*([A-Za-z\s\.]+?)(?:\s*(?:Father|Husband|Other|Age|House|Gender))";
    pat "Name\s*:\s*([A-Za-z\s\.]+?)(?:\s*$)";
    pat "(?:^|\s)([A-Z][a-z]+(?:\s+[A-Z][a-z]+)*)\s*(?:Father|Husband|w/o|s/o)" ].

Definition relation_patterns : list re :=
  [ pat "(?:Father|Husband|Other)(?:s?)?\s*Name\s*:\s*([A-Za-z\s\.]+?)(?:\s*(?:House|Age|Gender|$))";
    pat "(?:w/o|s/o|d/o)\s*([A-Za-z\s\.]+?)(?:\s*(?:House|Age|Gender|$))";
    pat "(?:Father|Husband)\s*:\s*([A-Za-z\s\.]+?)(?:\s*(?:House|Age|Gender|$))" ].

Definition age_patterns : list re :=
  [ pat "Age\s*:\s*(\d+)";
    pat "Age\s+(\d+)";
    pat "(\d+)\s*years?";
    pat "(\d{2})\s*(?:Gender|Male|Female)" ].

Definition gender_patterns : list re :=
  [ pat "Gender\s*:\s*(Male|Female|Third\s*Gender)";
    pat "(Male|Female)\s*(?:$|\s)";
    pat "(?:^|\s)(M|F)\s*(?:$|\s)" ].

Definition house_patterns : list re :=
  [ pat "House\s*(?:Number)?\s*:\s*([A-Za-z0-9/\-\s]+?)(?:\s*(?:Age|Gender|Photo|$))";
    pat "(?:^|\s)([A-Za-z0-9/\-]{1,20})\s*(?:Age|Gender)";
    pat "(?:Address|House)\s*:\s*([A-Za-z0-9/\-\s]+?)(?:\s*$)" ].

(** [2 <= len(name) <= 50 and not re.search(r'\d', name)] *)
Definition valid_name (name : str) : bool :=
  (2 <=? length name) && (length name <=? 50)
  && match re_search no_flags (pat "\d") name with Some _ => false | None => true end.

(** One round of the loop over [name_patterns] (and over
    [relation_patterns]): [Some] is the value stored before [break]. *)
Definition try_name (clean_text : str) (pattern : re) : option str :=
  match re_search flag_IM pattern clean_text with
  | Some m =>
      let name := strip (group m 1) in
      if valid_name name then Some name else None
  | None => None
  end.

(** [int(s)]: [None] stands for [ValueError]. *)
Definition py_int (s : str) : option Z :=
  if nonempty s && forallb is_digit s then Some (int_of_digits s) else None.

(** One round of the loop over [age_patterns]; a [ValueError] goes on with
    the next pattern, as an age out of range does. *)
Definition try_age (clean_text : str) (pattern : re) : option Z :=
  match re_search flag_I pattern clean_text with
  | Some m =>
      match py_int (group m 1) with
      | Some age => if (18 <=? age)%Z && (age <=? 120)%Z then Some age else None
      | None => None
      end
  | None => None
  end.

(** The category code of a matched gender text, already lower-cased. *)
Definition gender_code (gender_text : str) : str :=
  if contains (u "male") gender_text || str_eqb gender_text (u "m") then u "M"
  else if contains (u "female") gender_text || str_eqb gender_text (u "f") then u "F"
  else u "T".

Definition try_gender (clean_text : str) (pattern : re) : option str :=
  match re_search flag_I pattern clean_text with
  | Some m => Some (gender_code (str_lower (group m 1)))
  | None => None
  end.

Definition try_house (clean_text : str) (pattern : re) : option str :=
  match re_search flag_IM pattern clean_text with
  | Some m =>
      let house := strip (group m 1) in
      if length house <=? 30 then Some house else None
  | None => None
  end.

Definition or_default (A : Type) (o : option A) (d : A) : A :=
  match o with Some a => a | None => d end.

Definition extract_epic (clean_text : str) : str :=
  match first_match no_flags epic_patterns clean_text with
  | Some m => group m 1
  | None => []
  end.

Definition extract_serial (clean_text : str) (record_index : nat) : str :=
  match re_search no_flags (pat "^(\d+)\s+") clean_text with
  | Some serial_match => group serial_match 1
  | None => str_of_nat record_index
  end.

Definition extract_name (clean_text : str) : str :=
  or_default (cascade (try_name clean_text) name_patterns) [].

Definition extract_relation (clean_text : str) : str :=
  or_default (cascade (try_name clean_text) relation_patterns) [].

Definition extract_age (clean_text : str) : option Z :=
  cascade (try_age clean_text) age_patterns.

Definition extract_gender (clean_text : str) : str :=
  or_default (cascade (try_gender clean_text) gender_patterns) [].

Definition extract_house (clean_text : str) : str :=
  or_default (cascade (try_house clean_text) house_patterns) [].

Definition parse_voter_record_flexible (record_text : str) (record_index : nat)
    (metadata : dict) : option voter :=
  let clean_text := clean_ocr_text_advanced record_text in
  let voter_data :=
    {| lok_sabha_constituency_no := dict_get metadata "lok_sabha_constituency_no" [];
       vidhan_sabha_constituency_no := dict_get metadata "vidhan_sabha_constituency_no" [];
       part_no := dict_get metadata "part_no" [];
       vidhan_sabha_name := dict_get metadata "vidhan_sabha_name" [];
       grampanchayet_name := [];
       ward_no_name := [];
       tehsil_block_name :=
         dict_get metadata "tehsil" (dict_get metadata "subdivision" []);
       region := determine_region (dict_get metadata "district" []);
       division := dict_get metadata "subdivision" [];
       district := dict_get metadata "district" [];
       epic := extract_epic clean_text;
       serial_no := extract_serial clean_text record_index;
       name := extract_name clean_text;
       father_husband_name := extract_relation clean_text;
       house_no := extract_house clean_text;
       age := or_default (extract_age clean_text) 0%Z;
       gender := extract_gender clean_text;
       religion := [];
       caste := [];
       age_group := or_default (option_map categorize_age (extract_age clean_text)) [];
       family_size := [] |} in
  if nonempty (name voter_data) && (0 <? age voter_data)%Z
  then Some voter_data
  else None.

(* ================================================================== *)
(** * Specification-side definitions and sample inputs *)

(** What an OCR result contributes to the selection: its text and score,
    or nothing when [image_to_string] raised. *)
Definition scored (r : ocr_result) : option (str * Q) :=
  match image_to_string r with
  | Returned text => Some (text, avg_confidence text (image_to_data r))
  | Raised => None
  end.

(** The loop of the selector from an arbitrary state. *)
Definition run_configs (b : best) (results : list ocr_result) : best :=
  fold_left try_config results b.

(** An OCR result with text [t] whose confidences are all [c]. *)
Definition mock (t : string) (c : Z) : ocr_result :=
  OcrResult (Returned (u t)) (Returned [c]).

Definition failing : ocr_result := OcrResult Raised Raised.

Definition mocked_results : list ocr_result :=
  [mock "first" 10; mock "second" 40; mock "third" 25].

Definition mocked_engine (config : string) : ocr_result :=
  if String.eqb config "--oem 3 --psm 6" then mock "first" 10
  else if String.eqb config "--oem 3 --psm 4" then mock "second" 40
  else if String.eqb config "--oem 3 --psm 8" then mock "third" 25
  else failing.

(** Recognised text none of whose confidences is positive. *)
Definition unscored : ocr_result :=
  OcrResult (Returned (u "Name: Jane Roe")) (Returned [0; -1; 0]%Z).

(** The block of the identifier occurrence number [i] of the list [ps],
    as the specification words it: from 50 characters before its start to
    the start of the next occurrence, or for the last occurrence to 1000
    characters after its start, or the end of the text if that is shorter;
    then trimmed. *)
Definition start_of (ps : list id_pos) (i : nat) : nat :=
  match nth_error ps i with
  | Some (start, _, _) => start
  | None => 0
  end.

Definition spec_block (text : str) (ps : list id_pos) (i : nat) : str :=
  let from := start_of ps i - 50 in
  let to :=
    if S i <? length ps then start_of ps (S i)
    else Nat.min (length text) (start_of ps i + 1000) in
  strip (slice from to text).

(** The successes of a cascade's attempts, in the order of the patterns. *)
Definition successes (A : Type) (attempt : re -> option A) (pats : list re) : list A :=
  flat_map (fun p => match attempt p with Some a => [a] | None => [] end) pats.

Definition header_text : str :=
  u "Assembly Constituency No. 42 - SAMPLE TOWN Part No: 7".

Definition block_text_sample : str :=
  u "12 AB1234567 Name: Jane Roe Age: 34 Gender: Female House: 12A".

(** A record whose identifier holds a part number 0. *)
Definition slashed_id_text : str :=
  u "WB/24/0/375141 Name: Jane Roe Age: 34 Gender: Female House: 12A".

Definition sample_voter : voter :=
  {| lok_sabha_constituency_no := [];
     vidhan_sabha_constituency_no := [];
     part_no := [];
     vidhan_sabha_name := [];
     grampanchayet_name := [];
     ward_no_name := [];
     tehsil_block_name := [];
     region := [];
     division := [];
     district := [];
     epic := u "AB1234567";
     serial_no := u "12";
     name := u "Jane Roe";
     father_husband_name := [];
     house_no := u "12A";
     age := 34%Z;
     gender := u "M";
     religion := [];
     caste := [];
     age_group := u "30-45";
     family_size := [] |}.

(** A text with one identifier whose block has exactly 20 characters. *)
Definition twenty_text : str := u "AB1234567 abcdefghij".

(** Two lines with a blank line between them. *)
Definition two_lines : str := [ch "a"; 10; 10; ch "b"]%N.

(** The first success of a cascade, in the order of its patterns. *)
Definition first_success (fl : flags) (pats : list re) (text : str) : option rmatch_obj :=
  hd_error (successes (fun p => re_search fl p text) pats).


(* ================================================================== *)
(** * Page pipeline: [extract_from_scanned_pdf]

    The pages are taken after [pdf_to_images]: each page image is given by
    what the OCR engine does on it, as for the selector.  The state of the
    loop is [self.metadata], [all_voters] and [combined_text]; the debug
    files written along the way are left out. *)

(** [d.update(other)] *)
Definition dict_update (d other : dict) : dict :=
  fold_left (fun acc kv => dict_set acc (fst kv) (snd kv)) other d.

(** [enumerate(l, start)] *)
Definition enumerate (A : Type) (start : nat) (l : list A) : list (nat * A) :=
  List.combine (seq start (length l)) l.

Record pipeline := Pipeline {
  p_metadata : dict;
  all_voters : list voter;
  combined_text : str
}.

(** One round of the loop over [enumerate(voter_blocks)]. *)
Definition parse_block (metadata : dict) (voters : list voter) (ib : nat * str)
  : list voter :=
  match
    parse_voter_record_flexible (snd ib) (length voters + fst ib + 1) metadata
  with
  | Some voter => voters ++ [voter]
  | None => voters
  end.

(** One round of the loop over [enumerate(images, 1)] (the log and the
    debug files, which hold no part of the result, are left out). *)
Definition process_page (st : pipeline) (np : nat * (string -> ocr_result))
  : outcome pipeline :=
  let page_num := fst np in
  match extract_text_from_image_multi_config (snd np) with
  | Raised => Raised
  | Returned page_text =>
      if nonempty (strip page_text) then
        let combined := combined_text st ++ page_text ++ [10%N; 10%N] in
        let metadata :=
          if page_num <=? 3
          then dict_update (p_metadata st) (extract_metadata_flexible page_text)
          else p_metadata st in
        let voter_blocks := find_voter_records_flexible page_text in
        Returned
          (Pipeline metadata
             (fold_left (parse_block metadata) (enumerate 0 voter_blocks)
                (all_voters st))
             combined)
      else Returned st
  end.

Fixpoint process_pages (st : pipeline) (nps : list (nat * (string -> ocr_result)))
  : outcome pipeline :=
  match nps with
  | [] => Returned st
  | np :: rest =>
      match process_page st np with
      | Returned st' => process_pages st' rest
      | Raised => Raised
      end
  end.

(** [metadata] is [self.metadata] at the call; the result holds the list
    the method returns and [self.metadata] after it. *)
Definition extract_from_scanned_pdf (metadata : dict)
    (images : list (string -> ocr_result)) : outcome pipeline :=
  process_pages (Pipeline metadata [] []) (enumerate 1 images).

(** An OCR engine that reads [t] with full confidence under every profile. *)
Definition reads (t : str) (config : string) : ocr_result :=
  OcrResult (Returned t) (Returned [90%Z]).

Definition sample_header_page : str :=
  u "Assembly Constituency No. 42 - SAMPLE TOWN Part No: 7 District: HOOGHLY".

(** A record built against [metadata] from some block. *)
Definition built_with (metadata : dict) (v : voter) : Prop :=
  exists block index, parse_voter_record_flexible block index metadata = Some v.

(** Pipeline states with one metadata entry, none of the pages read yet. *)
Definition state_with_part : pipeline :=
  Pipeline [("part_no"%string, u "3")] [] [].

Definition state_with_district : pipeline :=
  Pipeline [("district"%string, u "HOOGHLY")] [] [].

(** The keys the extractor can set. *)
Definition metadata_keys : list string :=
  [ "vidhan_sabha_constituency_no"; "vidhan_sabha_name"; "part_no";
    "lok_sabha_constituency_no"; "lok_sabha_name";
    "district"; "subdivision"; "tehsil"; "block"; "pin_code" ]%string.


(* ================================================================== *)
(** * Statistics and dashboard: [save_to_excel]

    The Excel writer is outside the program: [save_to_excel] is taken as
    the rows it hands to the sheet 'Dashboard' (the sheet 'Background Data'
    holds the records themselves), with the time of the call as [now]. *)

(** [sum(1 for v in voters if v.get('gender') == code)] *)
Definition gender_count (code : str) (voters : list voter) : nat :=
  list_sum (map (fun _ => 1) (filter (fun v => str_eqb (gender v) code) voters)).

(** The dictionary [age_groups], its keys in the order they were first set. *)
Definition counts := list (str * nat).

Fixpoint counts_get (d : counts) (k : str) (default : nat) : nat :=
  match d with
  | [] => default
  | (k', v) :: d' => if str_eqb k' k then v else counts_get d' k default
  end.

Fixpoint counts_set (d : counts) (k : str) (v : nat) : counts :=
  match d with
  | [] => [(k, v)]
  | (k', v') :: d' =>
      if str_eqb k' k then (k', v) :: d' else (k', v') :: counts_set d' k v
  end.

(** One round of [for voter in voters]:
    [age_groups[age_group] = age_groups.get(age_group, 0) + 1].  Every
    record holds the key 'age_group', so the default 'Unknown' of
    [voter.get] is not reached. *)
Definition count_age_group (age_groups : counts) (voter : voter) : counts :=
  let group := age_group voter in
  counts_set age_groups group (counts_get age_groups group 0 + 1).

Definition age_distribution (voters : list voter) : counts :=
  fold_left count_age_group voters [].

(** [other_count = len(voters) - male_count - female_count], on Python's
    integers (the statistics pane of the graphical front end). *)
Definition other_count (voters : list voter) : Z :=
  (Z.of_nat (length voters) - Z.of_nat (gender_count (u "M") voters)
   - Z.of_nat (gender_count (u "F") voters))%Z.

Inductive cell :=
| Text (s : str)
| Number (n : nat).

Definition row := (cell * cell)%type.

(** [s.replace(old, new)] for single characters *)
Definition replace_char (old new : char) (s : str) : str :=
  map (fun c => if (c =? old)%N then new else c) s.

Definition metadata_rows (metadata : dict) : list row :=
  if is_nil metadata then []
  else
    [ (Text [], Text []);
      (Text (u "=== CONSTITUENCY INFORMATION ==="), Text []) ]
    ++ map (fun kv =>
              (Text (title (replace_char 95%N 32%N (u (fst kv)))), Text (snd kv)))
         metadata.

Definition statistics_rows (voters : list voter) : list row :=
  if is_nil voters then []
  else
    [ (Text [], Text []);
      (Text (u "=== STATISTICS ==="), Text []);
      (Text (u "Male Voters"), Number (gender_count (u "M") voters));
      (Text (u "Female Voters"), Number (gender_count (u "F") voters));
      (Text [], Text []);
      (Text (u "=== AGE DISTRIBUTION ==="), Text []) ]
    ++ map (fun gc => (Text (fst gc), Number (snd gc))) (age_distribution voters).

Definition dashboard_data (now : str) (metadata : dict) (voters : list voter)
  : list row :=
  [ (Text (u "Field"), Text (u "Value"));
    (Text (u "Extraction Method"), Text (u "Enhanced OCR Processing"));
    (Text (u "Processing Date"), Text now);
    (Text (u "Total Records"), Number (length voters)) ]
  ++ metadata_rows metadata ++ statistics_rows voters.

(** [if not voters: raise Exception("No voter data to save")] *)
Definition save_to_excel (now : str) (metadata : dict) (voters : list voter)
  : outcome (list row) :=
  if is_nil voters then Raised
  else Returned (dashboard_data now metadata voters).

Definition age_labels : list str := [u "18-29"; u "30-45"; u "45+"].


(* ================================================================== *)
(** * The substitutions of the normaliser, step by step

    The definitions below are not part of the program: they name the
    pieces its substitutions are reasoned about with. *)

(** The loop of a repeat, as [rmatch] runs it. *)
Section RepeatLoop.

Variable body : mstate -> (mstate -> option mstate) -> option mstate.
Variables (greedy : bool) (lo : nat) (hi : option nat).
Variable k : mstate -> option mstate.

Fixpoint repeat_loop (fuel count : nat) (last : option nat) (st : mstate)
    {struct fuel} : option mstate :=
  match fuel with
  | O => None
  | S fuel' =>
      if count <? lo then
        body st (fun st' => repeat_loop fuel' (S count) last st')
      else
        let more := below hi count && negb (at_pos last (m_pos st)) in
        let again (_ : unit) :=
          body st (fun st' => repeat_loop fuel' (S count) (Some (m_pos st)) st') in
        if greedy then
          if more then or_else (again tt) (fun _ => k st) else k st
        else
          or_else (k st) (fun _ => if more then again tt else None)
  end.

End RepeatLoop.

(** The state after the white space at the front of the text. *)
Fixpoint skip_spaces (pos : nat) (prev : option char) (rest : str) (caps : spans)
  : mstate :=
  match rest with
  | c :: r =>
      if is_space c then skip_spaces (S pos) (Some c) r caps
      else MState pos prev rest caps
  | [] => MState pos prev [] caps
  end.

(** [re.sub] read off the text that is left, match by match, for a pattern
    that matches no empty string. *)
Fixpoint sub_local (fl : flags) (r : re) (repl : str) (fuel pos : nat)
    (prev : option char) (rest : str) : str :=
  match fuel with
  | O => rest
  | S f =>
      match search_from fl r false pos pos prev rest with
      | None => rest
      | Some (b, e) =>
          firstn (b - pos) rest ++ repl
            ++ sub_local fl r repl f (m_pos e) (m_prev e) (m_rest e)
      end
  end.

(** A text without white space at either end and without two white-space
    characters in a row, written as its other characters, each with the
    mark of a space after it. *)
Definition gaps := list (char * bool).

Fixpoint decode (l : gaps) : str :=
  match l with
  | [] => []
  | (c, g) :: l' => c :: (if g then 32%N :: decode l' else decode l')
  end.

Definition starts_space (s : str) : bool :=
  match s with
  | c :: _ => is_space c
  | [] => false
  end.

Fixpoint encode (s : str) : gaps :=
  match s with
  | [] => []
  | c :: s' =>
      if is_space c then encode s' else (c, starts_space s') :: encode s'
  end.

Fixpoint clear_last (l : gaps) : gaps :=
  match l with
  | [] => []
  | (c, g) :: l' =>
      match l' with
      | [] => [(c, false)]
      | _ :: _ => (c, g) :: clear_last l'
      end
  end.

(** Spacing around a punctuation character [p]: a space after each [p],
    none before it. *)
Fixpoint punct_rule (p : char) (l : gaps) : gaps :=
  match l with
  | [] => []
  | (c, g) :: l' =>
      (c, if (c =? p)%N then true
          else match l' with
               | (d, _) :: _ => if (d =? p)%N then false else g
               | [] => g
               end)
        :: punct_rule p l'
  end.

Definition tidy_gaps (s : str) : gaps :=
  punct_rule 44%N (punct_rule 58%N (clear_last (encode s))).

Definition nonspace (l : gaps) : Prop :=
  Forall (fun cg => is_space (fst cg) = false) l.

Definition spaces : re := Repeat true 0 None (InSet [CSpace]).

Definition punct_pattern (p : char) : re := Seq spaces (Seq (Lit p) spaces).

Definition lead_space (s : str) : str :=
  if starts_space s then [32%N] else [].

(** A pattern every match of which takes at least one character, and ends
    where it does whatever the rule on empty matches. *)
Definition consuming (fl : flags) (r : re) : Prop :=
  forall adv p0 pos prev rest, p0 <= pos ->
    rmatch fl r (MState pos prev rest []) (accept adv p0)
    = rmatch fl r (MState pos prev rest []) Some
    /\ forall e, rmatch fl r (MState pos prev rest []) Some = Some e ->
         exists w, w <> [] /\ rest = w ++ m_rest e /\ m_pos e = pos + length w.

(** A change of the marks that looks at a character, the one after it and
    the mark. *)
Definition next_char (l : gaps) : option char :=
  match l with
  | (d, _) :: _ => Some d
  | [] => None
  end.

Fixpoint look (f : char -> option char -> bool -> bool) (l : gaps) : gaps :=
  match l with
  | [] => []
  | (c, g) :: l' => (c, f c (next_char l') g) :: look f l'
  end.

Definition clear_mark (c : char) (n : option char) (g : bool) : bool :=
  match n with Some _ => g | None => false end.

Definition punct_mark (p c : char) (n : option char) (g : bool) : bool :=
  if (c =? p)%N then true
  else match n with
       | Some d => if (d =? p)%N then false else g
       | None => g
       end.

Definition tidy_mark (c : char) (n : option char) (g : bool) : bool :=
  punct_mark 44%N c n (punct_mark 58%N c n (clear_mark c n g)).

(** A pattern without a group. *)
Fixpoint group_free (r : re) : bool :=
  match r with
  | Seq a b | Alt a b => group_free a && group_free b
  | Repeat _ _ _ a => group_free a
  | Group _ _ => false
  | _ => true
  end.

(** A text without two white-space characters in a row. *)
Definition single_spaced (s : str) : Prop :=
  forall a x y b, s = a ++ x :: y :: b ->
    is_space x = true -> is_space y = true -> False.

(** What a match of [serial_pattern] records: the two groups, one after the
    other, inside the match. *)
Definition serial_spans (e : mstate) : Prop :=
  exists p0 p1 p2,
    m_caps e = [(2, (p2, m_pos e)); (1, (p0, p1))]
    /\ p0 <= p1 /\ p1 <= p2 /\ p2 <= m_pos e.
(* ================================================================== *)
(** * Pattern cascades *)

Lemma cascade_some (A : Type) (attempt : re -> option A) pats a :
  cascade attempt pats = Some a ->
  exists p, In p pats /\ attempt p = Some a.
Proof.
  induction pats as [|p ps IH]; simpl; [discriminate|].
  destruct (attempt p) eqn:E.
  - intros [= ->]. exists p. auto.
  - intros H. destruct (IH H) as (q & Hq & Ha). exists q. auto.
Qed.

Lemma cascade_first (A : Type) (attempt : re -> option A) ps1 p ps2 a :
  (forall q, In q ps1 -> attempt q = None) ->
  attempt p = Some a ->
  cascade attempt (ps1 ++ p :: ps2) = Some a.
Proof.
  induction ps1 as [|q ps1 IH]; simpl; intros Hnone Hp.
  - now rewrite Hp.
  - rewrite (Hnone q) by auto. apply IH; auto.
Qed.

Lemma cascade_successes (A : Type) (attempt : re -> option A) pats :
  cascade attempt pats = hd_error (successes attempt pats).
Proof.
  unfold successes. induction pats as [|p ps IH]; simpl; [reflexivity|].
  destruct (attempt p); simpl; auto.
Qed.

(* ================================================================== *)
(** * Record builder *)

Lemma try_age_range clean_text pattern a :
  try_age clean_text pattern = Some a -> (18 <= a <= 120)%Z.
Proof.
  unfold try_age.
  destruct (re_search flag_I pattern clean_text); [|discriminate].
  destruct (py_int _); [|discriminate].
  destruct (_ && _) eqn:E; [|discriminate].
  intros [= <-]. apply andb_prop in E. lia.
Qed.

Lemma extract_age_range clean_text a :
  extract_age clean_text = Some a -> (18 <= a <= 120)%Z.
Proof.
  unfold extract_age. intros H.
  apply cascade_some in H. destruct H as (p & _ & H).
  eapply try_age_range; eauto.
Qed.

Lemma try_name_valid clean_text pattern n :
  try_name clean_text pattern = Some n -> valid_name n = true.
Proof.
  unfold try_name.
  destruct (re_search flag_IM pattern clean_text); [|discriminate].
  destruct (valid_name _) eqn:E; [|discriminate].
  now intros [= <-].
Qed.

Lemma nonempty_true (s : str) : nonempty s = true <-> s <> [].
Proof. destruct s; simpl; split; congruence. Qed.

(** C1.  Whatever the block text, the sequence hint and the metadata, a
    record returned by [parse_voter_record_flexible] has a non-empty name
    and an age between 18 and 120; in particular its age is not 0. *)
Theorem accepted_record_has_name_and_valid_age :
  forall record_text record_index metadata v,
    parse_voter_record_flexible record_text record_index metadata = Some v ->
    name v <> [] /\ (18 <= age v <= 120)%Z /\ age v <> 0%Z.
Proof.
  intros record_text record_index metadata v.
  unfold parse_voter_record_flexible.
  set (clean_text := clean_ocr_text_advanced record_text).
  cbv zeta. cbn [name age].
  destruct (nonempty (extract_name clean_text)) eqn:Hname; [|discriminate].
  destruct (extract_age clean_text) as [a|] eqn:Hage; cbn [or_default andb].
  - destruct (0 <? a)%Z; [|discriminate].
    intros [= <-]. cbn [name age].
    apply nonempty_true in Hname. apply extract_age_range in Hage.
    repeat split; try lia; assumption.
  - cbn. discriminate.
Qed.

Lemma accepted_record_witness :
  name sample_voter <> [] /\ (18 <= age sample_voter <= 120)%Z
  /\ age sample_voter <> 0%Z.
Proof.
  apply (@accepted_record_has_name_and_valid_age block_text_sample 1 []).
  vm_compute. reflexivity.
Defined.

(** C2.  On the block of the specification's example the record builder
    stores the male code for "Gender: Female": the test for "male" comes
    first and "female" contains "male".  The female code is produced only
    for the single letter. *)
Theorem female_is_coded_male :
  parse_voter_record_flexible block_text_sample 1 [] = Some sample_voter
  /\ gender sample_voter = u "M"
  /\ gender_code (str_lower (u "Female")) = u "M"
  /\ gender_code (str_lower (u "Male")) = u "M"
  /\ gender_code (str_lower (u "Third Gender")) = u "T"
  /\ gender_code (str_lower (u "F")) = u "F".
Proof. vm_compute. repeat split; reflexivity. Qed.

Lemma is_prefix_app_contains (x y s : str) :
  is_prefix (x ++ y) s = true -> contains y s = true.
Proof.
  revert s. induction x as [|c x IH]; intros s; simpl.
  - intros H. destruct s; simpl; rewrite H; reflexivity.
  - destruct s as [|d s']; [discriminate|].
    intros H. apply andb_prop in H. destruct H as [_ H].
    apply IH in H. cbn [contains]. rewrite H. apply orb_true_r.
Qed.

Lemma contains_app_r (x y s : str) :
  contains (x ++ y) s = true -> contains y s = true.
Proof.
  induction s as [|d s IH].
  - cbn [contains]. rewrite orb_false_r. apply is_prefix_app_contains.
  - cbn [contains]. intros H. apply orb_prop in H. destruct H as [H|H].
    + apply (is_prefix_app_contains x y (d :: s) H).
    + rewrite (IH H). apply orb_true_r.
Qed.

Lemma str_eqb_eq (a b : str) : str_eqb a b = true -> a = b.
Proof.
  revert b. induction a as [|x a IH]; destruct b as [|y b]; simpl;
    try discriminate; auto.
  intros H. apply andb_prop in H. destruct H as [H1 H2].
  apply N.eqb_eq in H1. f_equal; auto.
Qed.

(** The female code is reached by the single letter only. *)
Lemma gender_code_F_only (gender_text : str) :
  gender_code gender_text = u "F" -> gender_text = u "f".
Proof.
  unfold gender_code.
  destruct (contains (u "male") gender_text || str_eqb gender_text (u "m")) eqn:E1.
  - vm_compute. discriminate.
  - apply orb_false_elim in E1. destruct E1 as [E1 _].
    destruct (contains (u "female") gender_text) eqn:E2.
    + change (u "female") with (u "fe" ++ u "male") in E2.
      apply contains_app_r in E2. congruence.
    + cbn [orb]. destruct (str_eqb gender_text (u "f")) eqn:E3.
      * intros _. now apply str_eqb_eq.
      * vm_compute. discriminate.
Qed.

(* ================================================================== *)
(** * OCR configuration selector *)

Lemma Qltb_lt (a b : Q) : Qltb a b = true <-> (a < b)%Q.
Proof.
  unfold Qltb. rewrite negb_true_iff. split; intros H.
  - apply Qnot_le_lt. intros Hle. apply Qle_bool_iff in Hle. congruence.
  - destruct (Qle_bool b a) eqn:E; [|reflexivity].
    apply Qle_bool_iff in E. exfalso. exact (Qlt_not_le _ _ H E).
Qed.

Lemma Qltb_ge (a b : Q) : Qltb a b = false <-> (b <= a)%Q.
Proof.
  unfold Qltb. rewrite negb_false_iff. apply Qle_bool_iff.
Qed.

Lemma try_config_scored (b : best) (r : ocr_result) :
  try_config b r =
  match scored r with
  | Some (text, q) => if Qltb (snd b) q then (text, q) else b
  | None => b
  end.
Proof.
  unfold try_config, attempt, scored.
  destruct (image_to_string r); reflexivity.
Qed.

Lemma select_best_run results : select_best results = run_configs ([], 0%Q) results.
Proof. reflexivity. Qed.

Lemma run_configs_app b l1 l2 :
  run_configs b (l1 ++ l2) = run_configs (run_configs b l1) l2.
Proof. unfold run_configs. apply fold_left_app. Qed.

(** An attempt that raised leaves the state as it was. *)
Lemma try_config_raised b r :
  image_to_string r = Raised -> try_config b r = b.
Proof. unfold try_config, attempt. now intros ->. Qed.

(** The best confidence never goes below its initial 0. *)
Lemma try_config_nonneg b r : (0 <= snd b)%Q -> (0 <= snd (try_config b r))%Q.
Proof.
  intros Hb. rewrite try_config_scored.
  destruct (scored r) as [[text q]|]; [|assumption].
  destruct (Qltb (snd b) q) eqn:E; [|assumption].
  apply Qltb_lt in E. cbn [snd]. apply Qlt_le_weak.
  eapply Qle_lt_trans; eauto.
Qed.

Lemma run_configs_nonneg results : forall b,
  (0 <= snd b)%Q -> (0 <= snd (run_configs b results))%Q.
Proof.
  induction results as [|r rs IH]; intros b Hb; [assumption|].
  apply (IH (try_config b r)). now apply try_config_nonneg.
Qed.

(** No later attempt replaces a state whose score none of them exceeds. *)
Lemma run_configs_stable results : forall text q,
  (forall r t' q', In r results -> scored r = Some (t', q') -> (q' <= q)%Q) ->
  run_configs (text, q) results = (text, q).
Proof.
  induction results as [|r rs IH]; intros text q H; [reflexivity|].
  cbn [run_configs fold_left]. fold (run_configs (try_config (text, q) r) rs).
  replace (try_config (text, q) r) with (text, q).
  - apply IH. intros r' t' q' Hin. apply H. now right.
  - rewrite try_config_scored.
    destruct (scored r) as [[t' q']|] eqn:E; [|reflexivity].
    cbn [snd]. assert (Hle : (q' <= q)%Q) by (eapply H; [now left|eauto]).
    apply Qltb_ge in Hle. now rewrite Hle.
Qed.

Lemma run_configs_argmax results : forall b i r text q,
  nth_error results i = Some r ->
  scored r = Some (text, q) ->
  (snd b < q)%Q ->
  (forall j r' t' q', j < i -> nth_error results j = Some r' ->
                      scored r' = Some (t', q') -> (q' < q)%Q) ->
  (forall j r' t' q', nth_error results j = Some r' ->
                      scored r' = Some (t', q') -> (q' <= q)%Q) ->
  run_configs b results = (text, q).
Proof.
  induction results as [|r0 rs IH]; intros b i r text q Hnth Hsc Hb Hlt Hle.
  - destruct i; discriminate.
  - cbn [run_configs fold_left]. fold (run_configs (try_config b r0) rs).
    destruct i as [|i].
    + cbn in Hnth. injection Hnth as ->.
      rewrite try_config_scored, Hsc. cbn [snd].
      apply Qltb_lt in Hb. rewrite Hb.
      apply run_configs_stable. intros r' t' q' Hin Hs.
      apply In_nth_error in Hin. destruct Hin as [j Hj].
      apply (Hle (S j) r' t' q'); assumption.
    + cbn in Hnth. apply (IH _ i r text q Hnth Hsc).
      * rewrite try_config_scored.
        destruct (scored r0) as [[t0 q0]|] eqn:E0; [|assumption].
        destruct (Qltb (snd b) q0); [|assumption].
        cbn [snd]. apply (Hlt 0 r0 t0 q0); [lia|reflexivity|assumption].
      * intros j r' t' q' Hj Hn Hs. apply (Hlt (S j) r' t' q'); [lia|exact Hn|exact Hs].
      * intros j r' t' q' Hn Hs. apply (Hle (S j) r' t' q'); assumption.
Qed.

(** C5 as amended.  The selector returns the text of the attempt whose
    score is the highest, the earliest one when several share it (every
    earlier score is strictly lower), provided that score exceeds the
    initial best confidence 0; with mocked scores 10, 40, 25 it returns the
    text of the second attempt. *)
Theorem selector_returns_highest_scoring_attempt :
  forall results i r text q,
    nth_error results i = Some r ->
    scored r = Some (text, q) ->
    (0 < q)%Q ->
    (forall j r' t' q', j < i -> nth_error results j = Some r' ->
                        scored r' = Some (t', q') -> (q' < q)%Q) ->
    (forall j r' t' q', nth_error results j = Some r' ->
                        scored r' = Some (t', q') -> (q' <= q)%Q) ->
    select_best results = (text, q)
    /\ fst (select_best mocked_results) = u "second"
    /\ extract_text_from_image_multi_config mocked_engine = Returned (u "second").
Proof.
  intros results i r text q Hnth Hsc Hpos Hlt Hle. split.
  - rewrite select_best_run. eapply run_configs_argmax; eauto.
  - split; vm_compute; reflexivity.
Qed.

Lemma selector_witness :
  select_best mocked_results = (u "second", avg_confidence (u "second") (Returned [40%Z]))
  /\ fst (select_best mocked_results) = u "second"
  /\ extract_text_from_image_multi_config mocked_engine = Returned (u "second").
Proof.
  apply (@selector_returns_highest_scoring_attempt mocked_results 1 (mock "second" 40)).
  - reflexivity.
  - reflexivity.
  - vm_compute. reflexivity.
  - intros j r' t' q' Hj Hn Hs. destruct j as [|j]; [|lia].
    cbn in Hn. injection Hn as <-. cbn in Hs. injection Hs as <- <-.
    vm_compute. reflexivity.
  - intros j r' t' q' Hn Hs.
    destruct j as [|[|[|j]]]; cbn in Hn;
      try (injection Hn as <-; cbn in Hs; injection Hs as <- <-;
           vm_compute; discriminate).
    destruct j; discriminate.
Defined.

(** C5 as stated fails: an attempt that reads "abc" with no positive
    confidence scores 0.  Alone, or under all five profiles, it has the
    highest score there is, and the selector returns the empty text. *)
Lemma highest_score_of_zero_is_not_returned :
  scored (mock "abc" 0) = Some (u "abc", 0%Q)
  /\ select_best [mock "abc" 0] = ([], 0%Q)
  /\ fst (select_best [mock "abc" 0]) <> u "abc"
  /\ extract_text_from_image_multi_config (fun _ => mock "abc" 0) = Returned [].
Proof. vm_compute. repeat split; try reflexivity. discriminate. Qed.


Lemma select_best_skips_raised l1 r l2 :
  image_to_string r = Raised ->
  select_best (l1 ++ r :: l2) = select_best (l1 ++ l2).
Proof.
  intros H. unfold select_best. rewrite !fold_left_app.
  cbn [fold_left]. now rewrite (try_config_raised _ r H).
Qed.

Lemma run_configs_all_raised results : forall b,
  (forall r, In r results -> image_to_string r = Raised) ->
  run_configs b results = b.
Proof.
  induction results as [|r rs IH]; intros b H; [reflexivity|].
  cbn [run_configs fold_left]. rewrite (try_config_raised b r) by (apply H; now left).
  apply IH. intros r' Hin. apply H. now right.
Qed.

(** C6.  A profile whose recognition raises is left out of the scoring and
    the profiles after it are still tried: the run is the run without it.
    When every profile raises the selector returns the empty string; it
    does not raise. *)
Theorem failing_profiles_are_skipped :
  forall (l1 l2 : list ocr_result) (r : ocr_result) (engine : string -> ocr_result),
    (image_to_string r = Raised ->
     select_best (l1 ++ r :: l2) = select_best (l1 ++ l2))
    /\ ((forall config, In config ocr_configs ->
                        image_to_string (engine config) = Raised) ->
        extract_text_from_image_multi_config engine = Returned []).
Proof.
  intros l1 l2 r engine. split.
  - apply select_best_skips_raised.
  - intros H. unfold extract_text_from_image_multi_config.
    rewrite select_best_run, run_configs_all_raised; [reflexivity|].
    intros r' Hin. apply in_map_iff in Hin. destruct Hin as (c & <- & Hc). auto.
Qed.

Lemma failing_profiles_witness :
  select_best ([mock "first" 10] ++ failing :: [mock "third" 25])
  = select_best ([mock "first" 10] ++ [mock "third" 25])
  /\ extract_text_from_image_multi_config (fun _ => failing) = Returned [].
Proof.
  destruct (failing_profiles_are_skipped [mock "first" 10] [mock "third" 25]
              failing (fun _ => failing)) as [H1 H2].
  split.
  - apply H1. reflexivity.
  - apply H2. intros config _. reflexivity.
Defined.

Lemma average_no_positive conf :
  Forall (fun c => (c <= 0)%Z) conf ->
  average (filter (fun c => (0 <? c)%Z) conf) = 0%Q.
Proof.
  intros H. replace (filter (fun c => (0 <? c)%Z) conf) with (@nil Z); [reflexivity|].
  induction H as [|c conf Hc _ IH]; [reflexivity|].
  cbn [filter]. destruct (0 <? c)%Z eqn:E; [apply Z.ltb_lt in E; lia|exact IH].
Qed.

Lemma try_config_zero b r text :
  (0 <= snd b)%Q ->
  scored r = Some (text, 0%Q) ->
  try_config b r = b.
Proof.
  intros Hb Hs. rewrite try_config_scored, Hs.
  apply Qltb_ge in Hb. now rewrite Hb.
Qed.

Lemma run_configs_all_zero results : forall b,
  (0 <= snd b)%Q ->
  (forall r, In r results -> scored r = None \/ exists text, scored r = Some (text, 0%Q)) ->
  run_configs b results = b.
Proof.
  induction results as [|r rs IH]; intros b Hb H; [reflexivity|].
  cbn [run_configs fold_left].
  replace (try_config b r) with b.
  - apply IH; [assumption|]. intros r' Hin. apply H. now right.
  - destruct (H r (or_introl eq_refl)) as [Hn|[text Hz]].
    + rewrite try_config_scored, Hn. reflexivity.
    + symmetry. eapply try_config_zero; eauto.
Qed.

(** C10.  An attempt whose score is 0 is never selected: the run is the
    run without it, the best confidence starting at 0 and the comparison
    being strict.  So when every attempt scores 0 the selector returns the
    empty string, also when an attempt recognised text: text none of whose
    confidences is positive scores 0. *)
Theorem zero_score_is_never_selected :
  forall (l1 l2 : list ocr_result) (r : ocr_result) (text : str)
         (engine : string -> ocr_result),
    (scored r = Some (text, 0%Q) ->
     select_best (l1 ++ r :: l2) = select_best (l1 ++ l2))
    /\ ((forall config, In config ocr_configs ->
           exists t, scored (engine config) = Some (t, 0%Q)) ->
        extract_text_from_image_multi_config engine = Returned [])
    /\ (exists t, scored unscored = Some (t, 0%Q) /\ t <> []).
Proof.
  intros l1 l2 r text engine. split; [|split].
  - intros Hs. unfold select_best. rewrite !fold_left_app.
    cbn [fold_left].
    rewrite (@try_config_zero _ r text); auto.
    apply (run_configs_nonneg l1). cbn. apply Qle_refl.
  - intros H. unfold extract_text_from_image_multi_config.
    rewrite select_best_run, run_configs_all_zero; [reflexivity|cbn; apply Qle_refl|].
    intros r' Hin. apply in_map_iff in Hin. destruct Hin as (c & <- & Hc).
    right. auto.
  - exists (u "Name: Jane Roe"). split; [reflexivity|vm_compute; discriminate].
Qed.

Lemma zero_score_witness :
  select_best ([mock "first" 10] ++ unscored :: [mock "third" 25])
  = select_best ([mock "first" 10] ++ [mock "third" 25])
  /\ extract_text_from_image_multi_config (fun _ => unscored) = Returned []
  /\ (exists t, scored unscored = Some (t, 0%Q) /\ t <> []).
Proof.
  destruct (zero_score_is_never_selected [mock "first" 10] [mock "third" 25]
              unscored (u "Name: Jane Roe") (fun _ => unscored)) as (H1 & H2 & H3).
  split; [|split].
  - apply H1. reflexivity.
  - apply H2. intros config _. exists (u "Name: Jane Roe"). reflexivity.
  - exact H3.
Defined.

(* ================================================================== *)
(** * Metadata extractor *)

Lemma dict_find_set (d : dict) (k k' : string) (v : str) :
  dict_find (dict_set d k v) k' =
  if String.eqb k k' then Some v else dict_find d k'.
Proof.
  induction d as [|[k0 v0] d IH]; cbn [dict_set dict_find].
  - reflexivity.
  - destruct (String.eqb k0 k) eqn:E0.
    + apply String.eqb_eq in E0. subst k0. cbn [dict_find].
      destruct (String.eqb k k'); reflexivity.
    + cbn [dict_find]. rewrite IH.
      destruct (String.eqb k0 k') eqn:E1; [|reflexivity].
      apply String.eqb_eq in E1. subst k0. now rewrite String.eqb_sym, E0.
Qed.

Lemma set_location_find text d kp k :
  dict_find (set_location text d kp) k =
  match re_search flag_I (snd kp) text with
  | Some m => if String.eqb (fst kp) k then Some (strip (group m 1)) else dict_find d k
  | None => dict_find d k
  end.
Proof.
  unfold set_location. destruct (re_search flag_I (snd kp) text); [|reflexivity].
  apply dict_find_set.
Qed.


Lemma location_keys :
  map fst location_patterns
  = ["district"; "subdivision"; "tehsil"; "block"; "pin_code"]%string.
Proof. lazy. reflexivity. Qed.

Lemma fold_set_location_other text (l : list (string * re)) : forall d k,
  ~ List.In k (map fst l) ->
  dict_find (fold_left (set_location text) l d) k = dict_find d k.
Proof.
  induction l as [|kp l IH]; intros d k Hk; [reflexivity|].
  cbn [fold_left]. rewrite IH by (intros H; apply Hk; now right).
  rewrite set_location_find. destruct (re_search _ _ _); [|reflexivity].
  destruct (String.eqb (fst kp) k) eqn:E; [|reflexivity].
  apply String.eqb_eq in E. exfalso. apply Hk. now left.
Qed.

(** C9.  Each field of the metadata is taken from the first pattern of its
    list, in order, that matches the cleaned text, and from no later one;
    on the header ["Assembly Constituency No. 42 - SAMPLE TOWN Part No: 7"]
    the extractor yields number "42", name "SAMPLE TOWN" and part "7". *)
Theorem metadata_first_matching_pattern_wins :
  forall text : str,
    let text_clean := clean_ocr_text_advanced text in
    let metadata := extract_metadata_flexible text in
    let field (n : nat) (o : option rmatch_obj) :=
      option_map (fun m => strip (group m n)) o in
    dict_find metadata "vidhan_sabha_constituency_no"
      = field 1 (first_success flag_IS constituency_patterns text_clean)
    /\ dict_find metadata "vidhan_sabha_name"
      = field 2 (first_success flag_IS constituency_patterns text_clean)
    /\ dict_find metadata "part_no"
      = field 1 (first_success flag_I part_patterns text_clean)
    /\ dict_find metadata "lok_sabha_constituency_no"
      = field 1 (first_success flag_IS parliament_patterns text_clean)
    /\ dict_find metadata "lok_sabha_name"
      = field 2 (first_success flag_IS parliament_patterns text_clean)
    /\ dict_find (extract_metadata_flexible header_text)
         "vidhan_sabha_constituency_no" = Some (u "42")
    /\ dict_find (extract_metadata_flexible header_text)
         "vidhan_sabha_name" = Some (u "SAMPLE TOWN")
    /\ dict_find (extract_metadata_flexible header_text) "part_no" = Some (u "7").
Proof.
  intros text text_clean metadata field.
  assert (Hheader :
            dict_find (extract_metadata_flexible header_text)
              "vidhan_sabha_constituency_no" = Some (u "42")
            /\ dict_find (extract_metadata_flexible header_text)
                 "vidhan_sabha_name" = Some (u "SAMPLE TOWN")
            /\ dict_find (extract_metadata_flexible header_text) "part_no"
               = Some (u "7")).
  { vm_compute. repeat split; reflexivity. }
  revert Hheader. generalize (extract_metadata_flexible header_text) as sample.
  intros sample Hheader.
  unfold metadata, extract_metadata_flexible, first_success, first_match.
  fold text_clean. cbv zeta.
  rewrite <- !cascade_successes.
  generalize (cascade (fun p => re_search flag_IS p text_clean) constituency_patterns).
  generalize (cascade (fun p => re_search flag_I p text_clean) part_patterns).
  generalize (cascade (fun p => re_search flag_IS p text_clean) parliament_patterns).
  intros c3 c2 c1.
  rewrite !fold_set_location_other
    by (rewrite location_keys; cbn [List.In]; intuition discriminate).
  destruct c1, c2, c3; rewrite ?dict_find_set;
    cbn [String.eqb Ascii.eqb Bool.eqb dict_find option_map field];
    repeat split; try reflexivity; apply Hheader.
Qed.

(* ================================================================== *)
(** * Record segmenter *)

Lemma keep_block_length (b : str) : keep_block b = (20 <? length b).
Proof. unfold keep_block. destruct b; reflexivity. Qed.

Lemma start_of_middle (pre : list id_pos) s e g rest :
  start_of (pre ++ (s, e, g) :: rest) (length pre) = s.
Proof.
  unfold start_of. rewrite nth_error_app2 by lia. now rewrite Nat.sub_diag.
Qed.

Lemma id_blocks_from (text : str) (suf : list id_pos) : forall pre,
  id_blocks text suf =
  filter (fun b => 20 <? length b)
    (map (spec_block text (pre ++ suf)) (seq (length pre) (length suf))).
Proof.
  induction suf as [|[[s e] g] rest IH]; intros pre; [reflexivity|].
  cbn [id_blocks length seq map filter].
  specialize (IH (pre ++ [(s, e, g)])).
  rewrite <- app_assoc in IH. cbn [app] in IH.
  rewrite length_app in IH. cbn [length] in IH. rewrite Nat.add_1_r in IH.
  rewrite <- IH. clear IH.
  match goal with
  | |- context [spec_block text ?l ?n] =>
      assert (Hb : spec_block text l n
                   = id_block text s
                       match rest with
                       | (next, _, _) :: _ => Some next
                       | [] => None
                       end)
  end.
  { unfold spec_block, id_block. rewrite start_of_middle.
    rewrite length_app. cbn [length]. cbn [Nat.max].
    destruct rest as [|[[s' e'] g'] rest'].
    - cbn [length]. replace (S (length pre) <? length pre + 1) with false
        by (symmetry; apply Nat.ltb_ge; lia).
      reflexivity.
    - cbn [length]. replace (S (length pre) <? length pre + S (S (length rest')))
        with true by (symmetry; apply Nat.ltb_lt; lia).
      unfold start_of. rewrite nth_error_app2 by lia.
      replace (S (length pre) - length pre) with 1 by lia.
      reflexivity. }
  rewrite Hb, keep_block_length.
  destruct (20 <? length _); reflexivity.
Qed.

(** C8 as amended.  In the identifier-anchored strategy, for each
    identifier occurrence the block spans from 50 characters before its
    start (not before the start of the text) to the start of the next
    identifier occurrence, and for the last occurrence to 1000 characters
    after its own start or to the end of the text if that is shorter;
    after trimming, exactly the blocks of at most 20 characters are
    discarded: a block is kept when its trimmed length is 21 or more. *)
Theorem id_blocks_are_the_blocks_longer_than_20 :
  forall (text : str) (id_positions : list id_pos),
    id_blocks text id_positions =
    filter (fun b => 20 <? length b)
      (map (spec_block text id_positions) (seq 0 (length id_positions))).
Proof.
  intros text ps. exact (id_blocks_from text ps []).
Qed.

(** C8 as stated fails: the one block of [twenty_text] has exactly 20
    characters after trimming and is discarded. *)
Lemma block_of_length_20_is_discarded :
  length (find_id_positions twenty_text) = 1
  /\ length (spec_block twenty_text (find_id_positions twenty_text) 0) = 20
  /\ id_blocks twenty_text (find_id_positions twenty_text) = []
  /\ find_voter_records_flexible twenty_text = [].
Proof. vm_compute. repeat split; reflexivity. Qed.

(* ================================================================== *)
(** * Text normaliser *)


(** C4.  Two lines with a blank line between them come out of the
    normaliser on one line: the rule for runs of white space runs first and
    turns every line break into a space, so the rule for blank lines finds
    nothing to collapse. *)
Theorem blank_lines_become_a_space :
  clean_ocr_text_advanced two_lines = u "a b"
  /\ ~ List.In 10%N (clean_ocr_text_advanced two_lines)
  /\ re_sub no_flags (pat "\n\s*\n") [10%N] two_lines = [ch "a"; 10%N; ch "b"].
Proof.
  vm_compute. repeat split; try reflexivity.
  intros [H|[H|[H|[]]]]; discriminate.
Qed.

(* ================================================================== *)
(** * Further properties of the record builder *)

Lemma try_gender_code clean_text pattern g :
  try_gender clean_text pattern = Some g ->
  g = u "M" \/ g = u "F" \/ g = u "T".
Proof.
  unfold try_gender. destruct (re_search flag_I pattern clean_text); [|discriminate].
  intros [= <-]. unfold gender_code.
  destruct (_ || _); [now left|]. destruct (_ || _); auto.
Qed.

Lemma try_house_length clean_text pattern h :
  try_house clean_text pattern = Some h -> length h <= 30.
Proof.
  unfold try_house. destruct (re_search flag_IM pattern clean_text); [|discriminate].
  destruct (length _ <=? 30) eqn:E; [|discriminate].
  intros [= <-]. now apply Nat.leb_le.
Qed.

Lemma valid_name_length n : valid_name n = true -> 2 <= length n <= 50.
Proof.
  unfold valid_name. intros H.
  apply andb_prop in H. destruct H as [H _].
  apply andb_prop in H. destruct H as [H1 H2].
  apply Nat.leb_le in H1. apply Nat.leb_le in H2. lia.
Qed.

Lemma parse_fields record_text record_index metadata v :
  parse_voter_record_flexible record_text record_index metadata = Some v ->
  let clean_text := clean_ocr_text_advanced record_text in
  name v = extract_name clean_text
  /\ father_husband_name v = extract_relation clean_text
  /\ house_no v = extract_house clean_text
  /\ gender v = extract_gender clean_text
  /\ extract_age clean_text = Some (age v)
  /\ age_group v = categorize_age (age v)
  /\ district v = dict_get metadata "district" []
  /\ region v = determine_region (dict_get metadata "district" []).
Proof.
  unfold parse_voter_record_flexible.
  set (clean_text := clean_ocr_text_advanced record_text).
  cbv zeta. cbn [name age].
  destruct (nonempty (extract_name clean_text)); [|discriminate].
  destruct (extract_age clean_text) as [a|] eqn:Hage; cbn [or_default andb option_map].
  - destruct (0 <? a)%Z; [|discriminate].
    intros [= <-]. cbn. repeat split; reflexivity.
  - cbn. discriminate.
Qed.

(** The acceptance rule of the builder, for use below. *)
Lemma parse_returns_valid record_text record_index metadata v :
  parse_voter_record_flexible record_text record_index metadata = Some v ->
  name v <> [] /\ (18 <= age v <= 120)%Z.
Proof.
  unfold parse_voter_record_flexible.
  set (clean_text := clean_ocr_text_advanced record_text).
  cbv zeta. cbn [name age].
  destruct (nonempty (extract_name clean_text)) eqn:Hname; [|discriminate].
  destruct (extract_age clean_text) as [a|] eqn:Hage; cbn [or_default andb].
  - destruct (0 <? a)%Z; [|discriminate].
    intros [= <-]. cbn [name age].
    apply nonempty_true in Hname. apply extract_age_range in Hage. auto.
  - cbn. discriminate.
Qed.

(** X1.  In a record the builder returns, the age group is the one of the
    age: "18-29" up to 29, "30-45" up to 45 and "45+" above; the group
    "Under 18" never occurs. *)
Theorem accepted_record_age_group :
  forall record_text record_index metadata v,
    parse_voter_record_flexible record_text record_index metadata = Some v ->
    age_group v = categorize_age (age v)
    /\ ((age v <= 29)%Z -> age_group v = u "18-29")
    /\ ((30 <= age v <= 45)%Z -> age_group v = u "30-45")
    /\ ((46 <= age v)%Z -> age_group v = u "45+")
    /\ age_group v <> u "Under 18".
Proof.
  intros record_text record_index metadata v H.
  pose proof (parse_returns_valid _ _ _ H) as (_ & Hr).
  apply parse_fields in H. cbv zeta in H.
  destruct H as (_ & _ & _ & _ & _ & Hg & _). rewrite Hg.
  unfold categorize_age.
  destruct (age v <? 18)%Z eqn:E1; [apply Z.ltb_lt in E1; lia|].
  destruct (age v <=? 29)%Z eqn:E2; [apply Z.leb_le in E2|apply Z.leb_gt in E2].
  - repeat split; try reflexivity; try lia. vm_compute. discriminate.
  - destruct (age v <=? 45)%Z eqn:E3; [apply Z.leb_le in E3|apply Z.leb_gt in E3].
    + repeat split; try reflexivity; try lia. vm_compute. discriminate.
    + repeat split; try reflexivity; try lia. vm_compute. discriminate.
Qed.

Lemma accepted_record_age_group_witness :
  age_group sample_voter = categorize_age (age sample_voter)
  /\ ((age sample_voter <= 29)%Z -> age_group sample_voter = u "18-29")
  /\ ((30 <= age sample_voter <= 45)%Z -> age_group sample_voter = u "30-45")
  /\ ((46 <= age sample_voter)%Z -> age_group sample_voter = u "45+")
  /\ age_group sample_voter <> u "Under 18".
Proof.
  apply (@accepted_record_age_group block_text_sample 1 []).
  vm_compute. reflexivity.
Defined.

(** X2.  In a record the builder returns, the name has between 2 and 50
    characters, the relation's name is empty or has between 2 and 50, the
    house number has at most 30, and the gender is empty or one of the
    codes M, F, T. *)
Theorem accepted_record_field_bounds :
  forall record_text record_index metadata v,
    parse_voter_record_flexible record_text record_index metadata = Some v ->
    2 <= length (name v) <= 50
    /\ (father_husband_name v = [] \/ 2 <= length (father_husband_name v) <= 50)
    /\ length (house_no v) <= 30
    /\ (gender v = [] \/ gender v = u "M" \/ gender v = u "F" \/ gender v = u "T").
Proof.
  intros record_text record_index metadata v H.
  pose proof (parse_returns_valid _ _ _ H) as (Hn & _).
  apply parse_fields in H. cbv zeta in H.
  destruct H as (Hname & Hrel & Hhouse & Hgender & _).
  rewrite Hname in Hn |- *. rewrite Hrel, Hhouse, Hgender.
  unfold extract_name, extract_relation, extract_house, extract_gender in *.
  set (t := clean_ocr_text_advanced record_text) in *.
  repeat split.
  - destruct (cascade (try_name t) name_patterns) as [n|] eqn:E; cbn [or_default length] in *;
      [|congruence].
    apply cascade_some in E. destruct E as (p & _ & E).
    apply try_name_valid, valid_name_length in E. lia.
  - destruct (cascade (try_name t) name_patterns) as [n|] eqn:E; cbn [or_default length] in *;
      [|congruence].
    apply cascade_some in E. destruct E as (p & _ & E).
    apply try_name_valid, valid_name_length in E. lia.
  - destruct (cascade (try_name t) relation_patterns) as [n|] eqn:E; cbn [or_default length];
      [|now left].
    apply cascade_some in E. destruct E as (p & _ & E).
    apply try_name_valid, valid_name_length in E. right. lia.
  - destruct (cascade (try_house t) house_patterns) as [h|] eqn:E; cbn [or_default length]; [|lia].
    apply cascade_some in E. destruct E as (p & _ & E).
    now apply try_house_length in E.
  - destruct (cascade (try_gender t) gender_patterns) as [g|] eqn:E; cbn [or_default length];
      [|now left].
    apply cascade_some in E. destruct E as (p & _ & E).
    right. now apply try_gender_code in E.
Qed.

Lemma accepted_record_field_bounds_witness :
  2 <= length (name sample_voter) <= 50
  /\ (father_husband_name sample_voter = []
      \/ 2 <= length (father_husband_name sample_voter) <= 50)
  /\ length (house_no sample_voter) <= 30
  /\ (gender sample_voter = [] \/ gender sample_voter = u "M"
      \/ gender sample_voter = u "F" \/ gender sample_voter = u "T").
Proof.
  apply (@accepted_record_field_bounds block_text_sample 1 []).
  vm_compute. reflexivity.
Defined.

Lemma pat_digit : pat "\d" = InSet [CDigit].
Proof. vm_compute. reflexivity. Qed.

Lemma search_digit_none (rest : str) : forall p0 pos prev,
  search_from no_flags (InSet [CDigit]) false p0 pos prev rest = None ->
  Forall (fun c => is_digit c = false) rest.
Proof.
  induction rest as [|c rest IH]; intros p0 pos prev H; [constructor|].
  cbn [search_from rmatch step_char m_rest] in H.
  unfold in_set in H. cbn [IGNORECASE no_flags set_has existsb item_has] in H.
  rewrite orb_false_r in H.
  destruct (is_digit c) eqn:Ec.
  - cbn in H. discriminate.
  - constructor; [assumption|]. eapply IH. exact H.
Qed.

Lemma valid_name_no_digit n :
  valid_name n = true -> Forall (fun c => is_digit c = false) n.
Proof.
  unfold valid_name. intros H. apply andb_prop in H. destruct H as [_ H].
  rewrite pat_digit in H. unfold re_search in H.
  destruct (search_from no_flags (InSet [CDigit]) false 0 0 None n) eqn:E;
    [discriminate|].
  eapply search_digit_none; eauto.
Qed.

(** X3.  The name of a record the builder returns holds no digit, and the
    relation's name holds none either. *)
Theorem accepted_record_names_have_no_digit :
  forall record_text record_index metadata v,
    parse_voter_record_flexible record_text record_index metadata = Some v ->
    Forall (fun c => is_digit c = false) (name v)
    /\ Forall (fun c => is_digit c = false) (father_husband_name v).
Proof.
  intros record_text record_index metadata v H.
  apply parse_fields in H. cbv zeta in H.
  destruct H as (Hname & Hrel & _). rewrite Hname, Hrel.
  unfold extract_name, extract_relation.
  set (t := clean_ocr_text_advanced record_text).
  split.
  - destruct (cascade (try_name t) name_patterns) as [n|] eqn:E;
      cbn [or_default]; [|constructor].
    apply cascade_some in E. destruct E as (p & _ & E).
    now apply try_name_valid, valid_name_no_digit in E.
  - destruct (cascade (try_name t) relation_patterns) as [n|] eqn:E;
      cbn [or_default]; [|constructor].
    apply cascade_some in E. destruct E as (p & _ & E).
    now apply try_name_valid, valid_name_no_digit in E.
Qed.

Lemma accepted_record_names_witness :
  Forall (fun c => is_digit c = false) (name sample_voter)
  /\ Forall (fun c => is_digit c = false) (father_husband_name sample_voter).
Proof.
  apply (@accepted_record_names_have_no_digit block_text_sample 1 []).
  vm_compute. reflexivity.
Defined.

(* ================================================================== *)
(** * Page pipeline *)

Lemma fold_parse_block metadata (ibs : list (nat * str)) : forall voters,
  exists new,
    fold_left (parse_block metadata) ibs voters = voters ++ new
    /\ Forall (built_with metadata) new
    /\ length new <= length ibs.
Proof.
  induction ibs as [|ib ibs IH]; intros voters.
  - exists []. rewrite app_nil_r. repeat split; auto.
  - cbn [fold_left]. destruct (IH (parse_block metadata voters ib)) as (new & -> & Hnew & Hlen).
    unfold parse_block.
    destruct (parse_voter_record_flexible _ _ _) as [v|] eqn:E.
    + exists (v :: new). rewrite <- app_assoc. repeat split; cbn; [|lia].
      constructor; [|assumption]. now exists (snd ib), (length voters + fst ib + 1).
    + exists new. repeat split; cbn; auto.
Qed.

Lemma selector_returns engine :
  exists text, extract_text_from_image_multi_config engine = Returned text.
Proof. unfold extract_text_from_image_multi_config. eauto. Qed.

Lemma process_page_spec st np :
  exists st' new,
    process_page st np = Returned st'
    /\ all_voters st' = all_voters st ++ new
    /\ Forall (built_with (p_metadata st')) new
    /\ (3 < fst np -> p_metadata st' = p_metadata st).
Proof.
  unfold process_page.
  destruct (selector_returns (snd np)) as [page_text ->].
  destruct (nonempty (strip page_text)).
  - match goal with
    | |- context [fold_left (parse_block ?m) ?ibs ?vs] =>
        destruct (fold_parse_block m ibs vs) as (new & Hf & Hnew & _)
    end.
    eexists _, new. split; [reflexivity|]. cbn [all_voters p_metadata].
    repeat split; auto.
    intros H. apply Nat.leb_gt in H. now rewrite H.
  - exists st, []. rewrite app_nil_r. repeat split; auto.
Qed.

Lemma built_with_valid metadata v :
  built_with metadata v ->
  name v <> [] /\ (18 <= age v <= 120)%Z
  /\ district v = dict_get metadata "district" []
  /\ region v = determine_region (dict_get metadata "district" []).
Proof.
  intros (block & index & H).
  pose proof (parse_returns_valid _ _ _ H) as (Hn & Ha).
  apply parse_fields in H. cbv zeta in H. tauto.
Qed.

Lemma process_pages_spec nps : forall st,
  exists st' new,
    process_pages st nps = Returned st'
    /\ all_voters st' = all_voters st ++ new
    /\ Forall (fun v => name v <> [] /\ (18 <= age v <= 120)%Z) new
    /\ (Forall (fun np => 3 < fst np) nps -> p_metadata st' = p_metadata st).
Proof.
  induction nps as [|np nps IH]; intros st.
  - exists st, []. rewrite app_nil_r. repeat split; auto.
  - cbn [process_pages].
    destruct (process_page_spec st np) as (st1 & new1 & -> & Hv1 & Hb1 & Hm1).
    destruct (IH st1) as (st2 & new2 & -> & Hv2 & Hb2 & Hm2).
    exists st2, (new1 ++ new2). split; [reflexivity|].
    rewrite Hv2, Hv1, <- app_assoc. repeat split.
    + apply Forall_app. split; [|assumption].
      eapply Forall_impl; [|exact Hb1]. intros v Hv.
      apply built_with_valid in Hv. tauto.
    + intros H. inversion H; subst. rewrite Hm2, Hm1; auto.
Qed.

(** X4.  Every record in the list [extract_from_scanned_pdf] returns has
    a non-empty name and an age between 18 and 120, whatever the OCR
    engine read on the pages. *)
Theorem pipeline_returns_valid_records :
  forall (metadata : dict) (images : list (string -> ocr_result)) (st : pipeline),
    extract_from_scanned_pdf metadata images = Returned st ->
    Forall (fun v => name v <> [] /\ (18 <= age v <= 120)%Z) (all_voters st).
Proof.
  intros metadata images st. unfold extract_from_scanned_pdf.
  destruct (process_pages_spec (enumerate 1 images) (Pipeline metadata [] []))
    as (st' & new & -> & Hv & Hb & _).
  intros [= <-]. now rewrite Hv.
Qed.

Lemma pipeline_valid_records_witness :
  exists st,
    extract_from_scanned_pdf [] [reads block_text_sample] = Returned st
    /\ Forall (fun v => name v <> [] /\ (18 <= age v <= 120)%Z) (all_voters st).
Proof.
  eexists. split; [vm_compute; reflexivity|].
  apply (@pipeline_returns_valid_records [] [reads block_text_sample]).
  vm_compute. reflexivity.
Defined.

Lemma enumerate_app (A : Type) (l1 l2 : list A) start :
  enumerate start (l1 ++ l2)
  = enumerate start l1 ++ enumerate (start + length l1) l2.
Proof.
  revert start. unfold enumerate.
  induction l1 as [|x l1 IH]; intros start; cbn.
  - now rewrite Nat.add_0_r.
  - f_equal. rewrite IH. now rewrite Nat.add_succ_r.
Qed.

Lemma enumerate_from (A : Type) (l : list A) : forall start,
  Forall (fun np => start <= fst np) (enumerate start l).
Proof.
  unfold enumerate. induction l as [|x l IH]; intros start; cbn; constructor.
  - cbn. lia.
  - eapply Forall_impl; [|apply (IH (S start))]. cbn. intros np H. lia.
Qed.

Lemma process_pages_app nps1 nps2 st :
  process_pages st (nps1 ++ nps2)
  = match process_pages st nps1 with
    | Returned st' => process_pages st' nps2
    | Raised => Raised
    end.
Proof.
  revert st. induction nps1 as [|np nps1 IH]; intros st; [reflexivity|].
  cbn [app process_pages]. destruct (process_page st np); auto.
Qed.

(** X5.  The run over the first [k] pages is the beginning of the run over
    all pages: the records of the whole run start with those of the first
    [k] pages, in the same order, and from the third page on the metadata
    no longer changes. *)
Theorem pipeline_extends_its_prefix :
  forall (metadata : dict) (images : list (string -> ocr_result)) (k : nat),
    exists st stk more,
      extract_from_scanned_pdf metadata images = Returned st
      /\ extract_from_scanned_pdf metadata (firstn k images) = Returned stk
      /\ all_voters st = all_voters stk ++ more
      /\ (3 <= k -> p_metadata st = p_metadata stk).
Proof.
  intros metadata images k. unfold extract_from_scanned_pdf.
  replace (enumerate 1 images)
    with (enumerate 1 (firstn k images ++ skipn k images))
    by (now rewrite firstn_skipn).
  rewrite enumerate_app, process_pages_app.
  destruct (process_pages_spec (enumerate 1 (firstn k images))
              (Pipeline metadata [] [])) as (stk & new & -> & _ & _ & _).
  destruct (process_pages_spec
              (enumerate (1 + length (firstn k images)) (skipn k images)) stk)
    as (st & more & -> & Hv & _ & Hm).
  exists st, stk, more. repeat split; auto.
  intros Hk. apply Hm.
  destruct (Nat.le_gt_cases k (length images)) as [Hle|Hgt].
  - rewrite length_firstn, Nat.min_l by assumption.
    eapply Forall_impl; [|apply enumerate_from]. cbn. intros np H. lia.
  - rewrite skipn_all2 by lia. constructor.
Qed.

Lemma select_best_all_raised results :
  (forall r, List.In r results -> image_to_string r = Raised) ->
  select_best results = ([], 0%Q).
Proof. intros H. rewrite select_best_run. now apply run_configs_all_raised. Qed.

(** X6.  A page is skipped when its recognised text is empty or white
    space only, as it is when every OCR profile fails on it: the records,
    the metadata and the combined text stay as they were. *)
Theorem blank_page_is_skipped :
  forall (st : pipeline) (page_num : nat) (engine : string -> ocr_result)
         (page_text : str),
    (extract_text_from_image_multi_config engine = Returned page_text ->
     strip page_text = [] ->
     process_page st (page_num, engine) = Returned st)
    /\ ((forall config, List.In config ocr_configs ->
                        image_to_string (engine config) = Raised) ->
        process_page st (page_num, engine) = Returned st).
Proof.
  intros st page_num engine page_text. split.
  - intros Ht Hs. unfold process_page. cbn [snd]. now rewrite Ht, Hs.
  - intros H. unfold process_page. cbn [snd].
    unfold extract_text_from_image_multi_config.
    rewrite select_best_all_raised; [reflexivity|].
    intros r Hin. apply in_map_iff in Hin. destruct Hin as (c & <- & Hc). auto.
Qed.

Lemma blank_page_witness :
  process_page (Pipeline [] [] []) (2, reads (u "   ")) = Returned (Pipeline [] [] [])
  /\ process_page (Pipeline [] [] []) (2, fun _ => failing)
     = Returned (Pipeline [] [] []).
Proof.
  destruct (blank_page_is_skipped (Pipeline [] [] []) 2 (reads (u "   ")) (u "   "))
    as [H1 _].
  destruct (blank_page_is_skipped (Pipeline [] [] []) 2 (fun _ => failing) [])
    as [_ H2].
  split.
  - apply H1; vm_compute; reflexivity.
  - apply H2. intros config _. reflexivity.
Defined.

Lemma pipeline_prefix_witness :
  exists st stk more,
    extract_from_scanned_pdf []
      [reads sample_header_page; fun _ => failing; reads (u "  ");
       reads block_text_sample] = Returned st
    /\ extract_from_scanned_pdf []
         (firstn 3 [reads sample_header_page; fun _ => failing; reads (u "  ");
                    reads block_text_sample]) = Returned stk
    /\ all_voters st = all_voters stk ++ more
    /\ p_metadata st = p_metadata stk.
Proof.
  destruct (pipeline_extends_its_prefix []
              [reads sample_header_page; fun _ => failing; reads (u "  ");
               reads block_text_sample] 3)
    as (st & stk & more & H1 & H2 & H3 & H4).
  exists st, stk, more. repeat split; auto.
Defined.

Lemma dict_update_other (other : dict) : forall d k,
  dict_find other k = None ->
  dict_find (dict_update d other) k = dict_find d k.
Proof.
  unfold dict_update.
  induction other as [|[k0 v0] other IH]; intros d k H; [reflexivity|].
  cbn [dict_find] in H. destruct (String.eqb k0 k) eqn:E; [discriminate|].
  cbn [fold_left fst snd]. rewrite IH by assumption.
  now rewrite dict_find_set, E.
Qed.

Lemma dict_update_found (other : dict) : forall d k v,
  NoDup (map fst other) ->
  dict_find other k = Some v ->
  dict_find (dict_update d other) k = Some v.
Proof.
  unfold dict_update.
  induction other as [|[k0 v0] other IH]; intros d k v Hnd H; [discriminate|].
  cbn [map fst] in Hnd. inversion Hnd as [|? ? Hnot Hnd']; subst.
  cbn [dict_find] in H. cbn [fold_left fst snd].
  destruct (String.eqb k0 k) eqn:E.
  - injection H as ->. apply String.eqb_eq in E. subst k0.
    fold (dict_update (dict_set d k v) other). rewrite dict_update_other.
    + now rewrite dict_find_set, String.eqb_refl.
    + clear -Hnot. induction other as [|[k1 v1] other IH]; [reflexivity|].
      cbn [dict_find]. destruct (String.eqb k1 k) eqn:E1.
      * apply String.eqb_eq in E1. subst. exfalso. apply Hnot. now left.
      * apply IH. intros Hin. apply Hnot. now right.
  - now apply IH.
Qed.

Lemma dict_set_keys (d : dict) k v :
  NoDup (map fst d) -> NoDup (map fst (dict_set d k v))
  /\ (forall k', List.In k' (map fst (dict_set d k v)) ->
                 k' = k \/ List.In k' (map fst d)).
Proof.
  induction d as [|[k0 v0] d IH]; intros Hnd.
  - cbn. split; [repeat constructor; auto|]. intros k' [<-|[]]. now left.
  - cbn [dict_set]. destruct (String.eqb k0 k) eqn:E.
    + cbn [map fst] in *. split; [assumption|]. intros k' H. now right.
    + cbn [map fst] in *. inversion Hnd as [|? ? Hnot Hnd']; subst.
      destruct (IH Hnd') as [IH1 IH2]. split.
      * constructor; [|assumption]. intros Hin. apply IH2 in Hin.
        destruct Hin as [->|Hin]; [|contradiction].
        now rewrite String.eqb_refl in E.
      * intros k' [<-|Hin]; [right; now left|].
        apply IH2 in Hin. destruct Hin; [now left|right; now right].
Qed.

Lemma extract_metadata_keys_nodup text :
  NoDup (map fst (extract_metadata_flexible text)).
Proof.
  unfold extract_metadata_flexible.
  set (t := clean_ocr_text_advanced text). cbv zeta.
  assert (Hfold : forall l d, NoDup (map fst d) ->
                    NoDup (map fst (fold_left (set_location t) l d))).
  { induction l as [|kp l IH]; intros d Hd; [assumption|].
    cbn [fold_left]. apply IH. unfold set_location.
    destruct (re_search _ _ _); [|assumption]. now apply dict_set_keys. }
  apply Hfold.
  destruct (first_match flag_IS constituency_patterns t);
    destruct (first_match flag_I part_patterns t);
    destruct (first_match flag_IS parliament_patterns t);
    repeat (apply dict_set_keys); constructor.
Qed.

(** X7.  On one of the first three pages, when the page has text, the
    metadata is merged with what the page yields: a key the page yields
    takes the page's value, also when it had a value before, and every
    other key keeps its value. *)
Theorem page_metadata_overwrites :
  forall (st st' : pipeline) (page_num : nat) (engine : string -> ocr_result)
         (page_text : str) (k : string),
    extract_text_from_image_multi_config engine = Returned page_text ->
    strip page_text <> [] ->
    page_num <= 3 ->
    process_page st (page_num, engine) = Returned st' ->
    dict_find (p_metadata st') k
    = match dict_find (extract_metadata_flexible page_text) k with
      | Some v => Some v
      | None => dict_find (p_metadata st) k
      end.
Proof.
  intros st st' page_num engine page_text k Ht Hs Hp.
  unfold process_page. cbn [fst snd]. rewrite Ht.
  apply nonempty_true in Hs. rewrite Hs.
  apply Nat.leb_le in Hp. rewrite Hp.
  intros [= <-]. cbn [p_metadata].
  destruct (dict_find (extract_metadata_flexible page_text) k) as [v|] eqn:E.
  - apply dict_update_found; [apply extract_metadata_keys_nodup|assumption].
  - now apply dict_update_other.
Qed.

Lemma page_metadata_overwrites_witness :
  exists st',
    process_page state_with_part (2, reads sample_header_page) = Returned st'
    /\ dict_find (p_metadata st') "part_no"
       = match dict_find (extract_metadata_flexible sample_header_page) "part_no" with
         | Some v => Some v
         | None => dict_find (p_metadata state_with_part) "part_no"
         end.
Proof.
  destruct (process_page_spec state_with_part (2, reads sample_header_page))
    as (st' & new & H & _).
  exists st'. split; [exact H|].
  refine (@page_metadata_overwrites state_with_part st' 2
            (reads sample_header_page) sample_header_page "part_no" _ _ _ H).
  - vm_compute. reflexivity.
  - vm_compute. discriminate.
  - lia.
Defined.

(** X8.  Records built on a page carry the district found on an earlier
    page, and the region derived from it, when the page itself is past the
    third or yields no district. *)
Theorem records_carry_earlier_district :
  forall (st st' : pipeline) (page_num : nat) (engine : string -> ocr_result)
         (d : str),
    process_page st (page_num, engine) = Returned st' ->
    dict_find (p_metadata st) "district" = Some d ->
    (3 < page_num
     \/ forall page_text,
          extract_text_from_image_multi_config engine = Returned page_text ->
          dict_find (extract_metadata_flexible page_text) "district" = None) ->
    exists new,
      all_voters st' = all_voters st ++ new
      /\ Forall (fun v => district v = d /\ region v = determine_region d) new.
Proof.
  intros st st' page_num engine d H Hd Hpage.
  assert (Hmd : dict_find (p_metadata st') "district" = Some d).
  { revert H. unfold process_page. cbn [fst snd].
    destruct (extract_text_from_image_multi_config engine) as [page_text|] eqn:Ht;
      [|discriminate].
    destruct (nonempty (strip page_text)); [|now intros [= <-]].
    intros [= <-]. cbn [p_metadata].
    destruct Hpage as [Hp|Hp].
    - apply Nat.leb_gt in Hp. now rewrite Hp.
    - destruct (page_num <=? 3); [|assumption].
      rewrite dict_update_other; auto. }
  destruct (process_page_spec st (page_num, engine)) as (st1 & new & H1 & Hv & Hb & _).
  rewrite H in H1. injection H1 as <-.
  exists new. split; [assumption|].
  eapply Forall_impl; [|exact Hb]. intros v Hv'.
  apply built_with_valid in Hv'. destruct Hv' as (_ & _ & Hdist & Hreg).
  unfold dict_get in Hdist, Hreg. rewrite Hmd in Hdist, Hreg. auto.
Qed.

Lemma records_carry_earlier_district_witness :
  exists st' new,
    process_page state_with_district (4, reads block_text_sample) = Returned st'
    /\ all_voters st' = all_voters state_with_district ++ new
    /\ Forall (fun v => district v = u "HOOGHLY"
                        /\ region v = determine_region (u "HOOGHLY")) new.
Proof.
  destruct (process_page_spec state_with_district (4, reads block_text_sample))
    as (st' & new0 & H & _).
  assert (Hd : dict_find (p_metadata state_with_district) "district"
               = Some (u "HOOGHLY")) by reflexivity.
  destruct (@records_carry_earlier_district state_with_district st' 4
              (reads block_text_sample) (u "HOOGHLY") H Hd)
    as (new & Hn & Hf).
  - left. lia.
  - exists st', new. auto.
Defined.

(* ================================================================== *)
(** * Regions *)

(** X9.  [determine_region] gives the empty string for an empty district;
    the district itself when none of the listed names occurs in it in any
    letter case; and otherwise the title-cased name of the first state of
    the table one of whose names occurs. *)
Theorem region_is_first_matching_state :
  forall (district : str) (pre post : list (string * list string))
         (state : string) (districts : list string),
    determine_region [] = []
    /\ ((forall sd d, List.In sd state_mappings -> List.In d (snd sd) ->
                      contains (u d) (str_lower district) = false) ->
        determine_region district = district)
    /\ (district <> [] ->
        state_mappings = pre ++ (state, districts) :: post ->
        (forall sd d, List.In sd pre -> List.In d (snd sd) ->
                      contains (u d) (str_lower district) = false) ->
        (exists d, List.In d districts /\ contains (u d) (str_lower district) = true) ->
        determine_region district = title (u state)).
Proof.
  intros district pre post state districts.
  assert (Hnone : forall l : list (string * list string),
             (forall (sd : string * list string) d, List.In sd l -> List.In d (snd sd) ->
                           contains (u d) (str_lower district) = false) ->
             find (fun sd => existsb (fun d => contains (u d) (str_lower district)) (snd sd)) l
             = None).
  { induction l as [|sd l IH]; intros H; [reflexivity|].
    cbn [find].
    replace (existsb (fun d => contains (u d) (str_lower district)) (snd sd)) with false.
    - apply IH. intros sd' d Hin. apply H. now right.
    - symmetry. apply not_true_is_false. intros Hex.
      apply existsb_exists in Hex. destruct Hex as (d & Hd & Hc).
      rewrite (H sd d (or_introl eq_refl) Hd) in Hc. discriminate. }
  split; [reflexivity|]. split.
  - intros H. unfold determine_region. destruct (nonempty district) eqn:E.
    + now rewrite (Hnone state_mappings H).
    + now destruct district.
  - intros Hne Hmap Hpre (d & Hd & Hc). unfold determine_region.
    apply nonempty_true in Hne. rewrite Hne, Hmap.
    assert (Hfind : forall l : list (string * list string),
               (forall (sd : string * list string) d, List.In sd l -> List.In d (snd sd) ->
                             contains (u d) (str_lower district) = false) ->
               find (fun sd => existsb (fun d => contains (u d) (str_lower district)) (snd sd))
                    (l ++ (state, districts) :: post)
               = Some (state, districts)).
    { induction l as [|sd l IH]; intros H.
      - cbn [app find snd].
        replace (existsb (fun d0 => contains (u d0) (str_lower district)) districts)
          with true; [reflexivity|].
        symmetry. apply existsb_exists. eauto.
      - cbn [app find].
        replace (existsb (fun d0 => contains (u d0) (str_lower district)) (snd sd))
          with false.
        + apply IH. intros sd' d' Hin. apply H. now right.
        + symmetry. apply not_true_is_false. intros Hex.
          apply existsb_exists in Hex. destruct Hex as (d' & Hd' & Hc').
          rewrite (H sd d' (or_introl eq_refl) Hd') in Hc'. discriminate. }
    now rewrite (Hfind pre Hpre).
Qed.

Lemma region_witness :
  determine_region (u "Chennai") = u "Chennai"
  /\ determine_region (u "PUNE City") = u "Maharashtra".
Proof.
  split.
  - destruct (region_is_first_matching_state (u "Chennai") [] [] "" [])
      as (_ & H & _).
    apply H. intros sd d Hsd Hd.
    repeat (destruct Hsd as [<-|Hsd];
            [cbn [snd] in Hd;
             repeat (destruct Hd as [<-|Hd]; [vm_compute; reflexivity|]);
             destruct Hd|]).
    destruct Hsd.
  - destruct (region_is_first_matching_state (u "PUNE City")
                (firstn 2 state_mappings) (skipn 3 state_mappings)
                "maharashtra" ["mumbai"; "pune"; "nagpur"; "thane"; "nashik"]%string)
      as (_ & _ & H).
    apply H.
    + vm_compute. discriminate.
    + reflexivity.
    + intros sd d Hsd Hd. cbn [firstn state_mappings] in Hsd.
      repeat (destruct Hsd as [<-|Hsd];
              [cbn [snd] in Hd;
               repeat (destruct Hd as [<-|Hd]; [vm_compute; reflexivity|]);
               destruct Hd|]).
      destruct Hsd.
    + exists "pune"%string. split; [cbn; auto|vm_compute; reflexivity].
Defined.

(* ================================================================== *)
(** * Further properties of the selector *)

Lemma try_config_cases (b : best) (r : ocr_result) :
  (try_config b r = b
   /\ (scored r = None \/ exists t q, scored r = Some (t, q) /\ (q <= snd b)%Q))
  \/ (exists t q, scored r = Some (t, q) /\ (snd b < q)%Q
                  /\ try_config b r = (t, q)).
Proof.
  rewrite try_config_scored. destruct (scored r) as [[t q]|].
  - destruct (Qltb (snd b) q) eqn:E.
    + right. exists t, q. apply Qltb_lt in E. auto.
    + left. apply Qltb_ge in E. split; [reflexivity|]. right. eauto.
  - left. auto.
Qed.

Lemma run_configs_provenance results : forall (b : best) seen,
  (b = ([], 0%Q)
   \/ exists r, List.In r seen /\ scored r = Some b /\ (0 < snd b)%Q) ->
  (forall r t q, List.In r seen -> scored r = Some (t, q) -> (q <= snd b)%Q) ->
  let b' := run_configs b results in
  (b' = ([], 0%Q)
   \/ exists r, List.In r (seen ++ results) /\ scored r = Some b' /\ (0 < snd b')%Q)
  /\ (forall r t q, List.In r (seen ++ results) -> scored r = Some (t, q) ->
                    (q <= snd b')%Q).
Proof.
  induction results as [|r0 rs IH]; intros b seen Hb Hmax.
  - cbn. rewrite app_nil_r. auto.
  - cbn [run_configs fold_left]. fold (run_configs (try_config b r0) rs).
    replace (seen ++ r0 :: rs) with ((seen ++ [r0]) ++ rs)
      by (now rewrite <- app_assoc).
    assert (Hb0 : (0 <= snd b)%Q).
    { destruct Hb as [->|(r & _ & _ & H)]; [apply Qle_refl|now apply Qlt_le_weak]. }
    destruct (try_config_cases b r0) as [[-> Hc]|(t0 & q0 & Hs0 & Hlt & ->)];
      apply IH.
    + destruct Hb as [->|(r & Hin & Hs & Hp)]; [now left|].
      right. exists r. split; [apply in_or_app; now left|auto].
    + intros r t q Hin Hs. apply in_app_or in Hin.
      destruct Hin as [Hin|[<-|[]]]; [eauto|].
      destruct Hc as [Hc|(t' & q' & Hc & Hle)]; [congruence|].
      rewrite Hs in Hc. injection Hc as <- <-. assumption.
    + right. exists r0. split; [apply in_or_app; right; now left|].
      split; [assumption|]. cbn [snd]. eapply Qle_lt_trans; eauto.
    + intros r t q Hin Hs. cbn [snd]. apply in_app_or in Hin.
      destruct Hin as [Hin|[<-|[]]].
      * apply Qlt_le_weak. eapply Qle_lt_trans; [|exact Hlt]. eauto.
      * rewrite Hs in Hs0. injection Hs0 as <- <-. apply Qle_refl.
Qed.

Lemma select_best_provenance (results : list ocr_result) :
  (select_best results = ([], 0%Q)
   \/ exists r, List.In r results /\ scored r = Some (select_best results)
                /\ (0 < snd (select_best results))%Q)
  /\ (forall r t q, List.In r results -> scored r = Some (t, q) ->
                    (q <= snd (select_best results))%Q).
Proof.
  rewrite select_best_run.
  apply (@run_configs_provenance results ([], 0%Q) []).
  - now left.
  - intros r t q [].
Qed.

(** X10.  What the selector keeps is the initial empty text with
    confidence 0, or the text and score of one of the attempts that
    returned, the score being positive; and no attempt that returned
    scores above the confidence kept. *)
Theorem selector_keeps_an_attempt :
  forall results : list ocr_result,
    (select_best results = ([], 0%Q)
     \/ exists r, List.In r results /\ scored r = Some (select_best results)
                  /\ (0 < snd (select_best results))%Q)
    /\ (forall r t q, List.In r results -> scored r = Some (t, q) ->
                      (q <= snd (select_best results))%Q).
Proof. exact select_best_provenance. Qed.

(** X11.  When [image_to_data] raises, the attempt scores the length of
    its text: an attempt that returned a non-empty text this way keeps the
    selector from ending with confidence 0, and the confidence kept is at
    least that length. *)
Theorem length_is_the_fallback_score :
  forall (results : list ocr_result) (r : ocr_result) (text : str),
    List.In r results ->
    image_to_string r = Returned text ->
    image_to_data r = Raised ->
    scored r = Some (text, inject_Z (Z.of_nat (length text)))
    /\ (inject_Z (Z.of_nat (length text)) <= snd (select_best results))%Q
    /\ (text <> [] -> (0 < snd (select_best results))%Q).
Proof.
  intros results r text Hin Hs Hd.
  assert (Hsc : scored r = Some (text, inject_Z (Z.of_nat (length text)))).
  { unfold scored. now rewrite Hs, Hd. }
  destruct (select_best_provenance results) as [_ Hmax].
  specialize (Hmax r _ _ Hin Hsc). repeat split; auto.
  intros Hne. eapply Qlt_le_trans; [|exact Hmax].
  destruct text; [congruence|]. cbn [length].
  unfold Qlt. cbn. lia.
Qed.

Lemma length_fallback_witness :
  scored (OcrResult (Returned (u "Name")) Raised)
  = Some (u "Name", inject_Z (Z.of_nat (length (u "Name"))))
  /\ (inject_Z (Z.of_nat (length (u "Name")))
      <= snd (select_best [failing; OcrResult (Returned (u "Name")) Raised]))%Q
  /\ (u "Name" <> [] ->
      (0 < snd (select_best [failing; OcrResult (Returned (u "Name")) Raised]))%Q).
Proof.
  apply (@length_is_the_fallback_score
           [failing; OcrResult (Returned (u "Name")) Raised]
           (OcrResult (Returned (u "Name")) Raised) (u "Name")).
  - right. now left.
  - reflexivity.
  - reflexivity.
Defined.

(* ================================================================== *)
(** * Trimming *)

Lemma lstrip_split (s : str) :
  exists w, s = w ++ lstrip s /\ forallb is_space w = true.
Proof.
  induction s as [|c s (w & Hs & Hw)]; [now exists []|].
  cbn [lstrip]. destruct (is_space c) eqn:E.
  - exists (c :: w). cbn. rewrite E, Hw. split; [now f_equal|reflexivity].
  - now exists [].
Qed.

Lemma lstrip_head (s : str) c r : lstrip s = c :: r -> is_space c = false.
Proof.
  induction s as [|d s IH]; [discriminate|].
  cbn [lstrip]. destruct (is_space d) eqn:E; [assumption|].
  now intros [= <- _].
Qed.

Lemma lstrip_fixed (s : str) :
  lstrip s = s <-> (forall c r, s = c :: r -> is_space c = false).
Proof.
  split.
  - intros H c r Hs. rewrite Hs in H. now apply lstrip_head in H.
  - intros H. destruct s as [|c r]; [reflexivity|].
    cbn [lstrip]. now rewrite (H c r eq_refl).
Qed.

Lemma lstrip_idem (s : str) : lstrip (lstrip s) = lstrip s.
Proof.
  apply lstrip_fixed. intros c r H. now apply lstrip_head in H.
Qed.

Lemma lstrip_length (s : str) : length (lstrip s) <= length s.
Proof.
  destruct (lstrip_split s) as (w & Hs & _).
  rewrite Hs at 2. rewrite length_app. lia.
Qed.

Lemma rstrip_split (s : str) :
  exists w, s = rstrip s ++ w /\ forallb is_space w = true.
Proof.
  unfold rstrip. destruct (lstrip_split (rev s)) as (w & Hs & Hw).
  exists (rev w). split.
  - rewrite <- rev_app_distr, <- Hs. now rewrite rev_involutive.
  - rewrite forallb_forall in *. intros c Hc. apply Hw. now apply in_rev.
Qed.

Lemma rstrip_length (s : str) : length (rstrip s) <= length s.
Proof.
  unfold rstrip. rewrite length_rev.
  etransitivity; [apply lstrip_length|]. now rewrite length_rev.
Qed.

Lemma strip_length (s : str) : length (strip s) <= length s.
Proof.
  unfold strip. etransitivity; [apply rstrip_length|apply lstrip_length].
Qed.

Lemma rstrip_idem (s : str) : rstrip (rstrip s) = rstrip s.
Proof. unfold rstrip. now rewrite rev_involutive, lstrip_idem. Qed.

(** A string is trimmed when it neither starts nor ends with white space. *)
Lemma lstrip_rstrip (s : str) : lstrip s = s -> lstrip (rstrip s) = rstrip s.
Proof.
  intros H. apply lstrip_fixed. intros c r Hr.
  destruct (rstrip_split s) as (w & Hs & _).
  rewrite Hr in Hs. apply (proj1 (lstrip_fixed s) H c (r ++ w)). exact Hs.
Qed.

Lemma strip_trimmed (s : str) :
  lstrip (strip s) = strip s /\ rstrip (strip s) = strip s.
Proof.
  unfold strip. split.
  - apply lstrip_rstrip, lstrip_idem.
  - apply rstrip_idem.
Qed.

Lemma strip_fixed (s : str) :
  lstrip s = s -> rstrip s = s -> strip s = s.
Proof. unfold strip. now intros -> ->. Qed.

Lemma strip_idem (s : str) : strip (strip s) = strip s.
Proof. destruct (strip_trimmed s). now apply strip_fixed. Qed.

Lemma rstrip_app_nonempty (a b : str) :
  b <> [] -> rstrip b = b -> rstrip (a ++ b) = a ++ b.
Proof.
  unfold rstrip. intros Hne Hb.
  assert (Hrb : lstrip (rev b) = rev b).
  { rewrite <- (rev_involutive (lstrip (rev b))), Hb. reflexivity. }
  rewrite rev_app_distr.
  destruct (rev b) as [|c r] eqn:E.
  - exfalso. apply Hne. rewrite <- (rev_involutive b), E. reflexivity.
  - cbn [app lstrip]. cbn [lstrip] in Hrb.
    destruct (is_space c) eqn:Ec.
    + exfalso. pose proof (lstrip_length r) as Hl.
      rewrite Hrb in Hl. cbn in Hl. lia.
    + change (c :: r ++ rev a) with ((c :: r) ++ rev a).
      rewrite <- E, <- rev_app_distr. apply rev_involutive.
Qed.

(* ================================================================== *)
(** * Further properties of the segmenter *)

Lemma id_blocks_in text (ps : list id_pos) b :
  List.In b (id_blocks text ps) ->
  exists start next, b = id_block text start next /\ keep_block b = true.
Proof.
  induction ps as [|[[s e] g] rest IH]; [intros []|].
  cbn [id_blocks]. intros H. apply in_app_or in H. destruct H as [H|H]; [|auto].
  match type of H with
  | context [if ?c then _ else _] => destruct c eqn:E
  end; cbn [List.In] in H; [|destruct H].
  destruct H as [<-|[]]. eauto.
Qed.

Lemma serial_triples_in_bounded (n : nat) : forall (parts : list str) b,
  length parts <= n ->
  List.In b (serial_triples parts) ->
  exists x, b = strip x /\ 30 < length b.
Proof.
  induction n as [|n IH]; intros parts b Hn;
    destruct parts as [|serial [|prefix [|content rest]]]; try (intros []).
  - cbn in Hn. lia.
  - cbn [serial_triples]. intros H. apply in_app_or in H. destruct H as [H|H].
    + match type of H with
      | context [if ?c then _ else _] => destruct c eqn:E
      end; cbn [List.In] in H; [|destruct H].
      destruct H as [<-|[]]. apply Nat.ltb_lt in E.
      eexists. split; [reflexivity|assumption].
    + apply (IH rest); [cbn in Hn; lia|assumption].
Qed.

Lemma serial_triples_in (parts : list str) b :
  List.In b (serial_triples parts) ->
  exists x, b = strip x /\ 30 < length b.
Proof. apply (@serial_triples_in_bounded (length parts)). lia. Qed.

Lemma name_blocks_in text_clean b :
  List.In b (name_blocks text_clean) ->
  exists part, b = name_chunk part /\ keep_chunk b = true.
Proof.
  unfold name_blocks. intros H. apply filter_In in H. destruct H as [H Hk].
  apply in_map_iff in H. destruct H as (part & <- & _). eauto.
Qed.

Lemma name_chunk_trimmed part :
  30 < length (name_chunk part) -> strip (name_chunk part) = name_chunk part.
Proof.
  unfold name_chunk. intros Hlen. apply strip_fixed.
  - reflexivity.
  - apply rstrip_app_nonempty.
    + intros E. rewrite E in Hlen. cbn in Hlen. lia.
    + apply strip_trimmed.
Qed.

(** X12.  Whatever the page text and whichever strategy produced it, a
    block the segmenter returns has more than 20 characters and neither
    starts nor ends with white space. *)
Theorem blocks_are_long_and_trimmed :
  forall (text b : str),
    List.In b (find_voter_records_flexible text) ->
    20 < length b /\ strip b = b.
Proof.
  intros text b. unfold find_voter_records_flexible.
  set (t := clean_ocr_text_advanced text). cbv zeta.
  set (b1 := if is_nil (find_id_positions t) then []
             else id_blocks t (find_id_positions t)).
  assert (H1 : forall x, List.In x b1 -> 20 < length x /\ strip x = x).
  { unfold b1. destruct (is_nil _); [intros x []|].
    intros x Hx. apply id_blocks_in in Hx.
    destruct Hx as (start & next & -> & Hk).
    rewrite keep_block_length in Hk. apply Nat.ltb_lt in Hk.
    split; [assumption|]. unfold id_block. apply strip_idem. }
  assert (H2 : forall x, List.In x (name_blocks t) -> 20 < length x /\ strip x = x).
  { intros x Hx. apply name_blocks_in in Hx. destruct Hx as (part & -> & Hk).
    unfold keep_chunk in Hk. apply andb_prop in Hk. destruct Hk as [Hk _].
    apply Nat.ltb_lt in Hk. split; [lia|]. now apply name_chunk_trimmed. }
  assert (H3 : forall x, List.In x (serial_blocks t) -> 20 < length x /\ strip x = x).
  { intros x Hx. apply serial_triples_in in Hx.
    destruct Hx as (x0 & -> & Hl).
    split; [lia|]. apply strip_idem. }
  destruct (is_nil b1) eqn:E1.
  - destruct (is_nil (name_blocks t)) eqn:E2; auto.
  - destruct b1 as [|x l]; [discriminate|]. cbn [is_nil]. auto.
Qed.

Lemma blocks_witness :
  20 < length block_text_sample /\ strip block_text_sample = block_text_sample.
Proof.
  apply (@blocks_are_long_and_trimmed block_text_sample).
  vm_compute. now left.
Defined.

(** X13.  A block of the name-label strategy is the label "Name: "
    followed by at most 500 characters, has more than 30 characters in
    all, and holds one of the words age, gender, house in some letter
    case. *)
Theorem name_blocks_shape :
  forall (text_clean b : str),
    List.In b (name_blocks text_clean) ->
    is_prefix (u "Name: ") b = true
    /\ 30 < length b <= 506
    /\ exists keyword,
         List.In keyword keywords /\ contains keyword (str_lower b) = true.
Proof.
  intros text_clean b H. apply name_blocks_in in H.
  destruct H as (part & -> & Hk).
  unfold keep_chunk in Hk. apply andb_prop in Hk. destruct Hk as [Hl Hk].
  apply Nat.ltb_lt in Hl. apply existsb_exists in Hk.
  split; [reflexivity|]. split; [|exact Hk].
  split; [assumption|]. unfold name_chunk. rewrite length_app.
  pose proof (strip_length (firstn 500 part)) as Hs.
  pose proof (firstn_le_length 500 part) as Hf.
  rewrite length_firstn in Hs. change (length (u "Name: ")) with 6. lia.
Qed.

Lemma name_blocks_witness :
  is_prefix (u "Name: ") (u "Name: Jane Roe Age: 34 Gender: Female House: 12A") = true
  /\ 30 < length (u "Name: Jane Roe Age: 34 Gender: Female House: 12A") <= 506
  /\ exists keyword,
       List.In keyword keywords
       /\ contains keyword
            (str_lower (u "Name: Jane Roe Age: 34 Gender: Female House: 12A")) = true.
Proof.
  apply (@name_blocks_shape
           (u "Name: Jane Roe Age: 34 Gender: Female House: 12A")).
  vm_compute. now left.
Defined.

(* ================================================================== *)
(** * Further properties of the metadata extractor *)

Lemma fold_set_location_key text (l : list (string * re)) :
  NoDup (map fst l) ->
  forall d key pattern,
    List.In (key, pattern) l ->
    dict_find (fold_left (set_location text) l d) key
    = match re_search flag_I pattern text with
      | Some m => Some (strip (group m 1))
      | None => dict_find d key
      end.
Proof.
  induction l as [|kp l IH]; intros Hnd d key pattern Hin; [destruct Hin|].
  cbn [map] in Hnd. inversion Hnd as [|? ? Hnot Hnd']; subst.
  cbn [fold_left]. destruct Hin as [->|Hin].
  - rewrite fold_set_location_other by exact Hnot.
    rewrite set_location_find. cbn [fst snd]. now rewrite String.eqb_refl.
  - rewrite (IH Hnd' _ key pattern Hin).
    destruct (re_search flag_I pattern text); [reflexivity|].
    rewrite set_location_find.
    destruct (re_search flag_I (snd kp) text); [|reflexivity].
    destruct (String.eqb (fst kp) key) eqn:E; [|reflexivity].
    apply String.eqb_eq in E. exfalso. apply Hnot. rewrite E.
    apply (in_map fst) in Hin. exact Hin.
Qed.

Lemma location_keys_nodup : NoDup (map fst location_patterns).
Proof.
  rewrite location_keys.
  repeat (constructor; [cbn [List.In]; intuition discriminate|]). constructor.
Qed.

(** X14.  Each location field of the metadata (district, subdivision,
    tehsil, block, pin code) holds the trimmed first group of its own
    pattern when that pattern matches the cleaned text, and is absent when
    it does not. *)
Theorem metadata_location_fields :
  forall (text : str) (key : string) (pattern : re),
    List.In (key, pattern) location_patterns ->
    dict_find (extract_metadata_flexible text) key
    = option_map (fun m => strip (group m 1))
        (re_search flag_I pattern (clean_ocr_text_advanced text)).
Proof.
  intros text key pattern Hin.
  assert (Hkey : List.In key (map fst location_patterns)).
  { apply (in_map fst) in Hin. exact Hin. }
  rewrite location_keys in Hkey.
  unfold extract_metadata_flexible, first_match.
  set (t := clean_ocr_text_advanced text). cbv zeta.
  rewrite (@fold_set_location_key t location_patterns location_keys_nodup _ key pattern Hin).
  destruct (re_search flag_I pattern t); [reflexivity|]. cbn [option_map].
  generalize (cascade (fun p => re_search flag_IS p t) constituency_patterns).
  generalize (cascade (fun p => re_search flag_I p t) part_patterns).
  generalize (cascade (fun p => re_search flag_IS p t) parliament_patterns).
  intros c3 c2 c1.
  cbn [List.In] in Hkey.
  destruct Hkey as [<-|[<-|[<-|[<-|[<-|[]]]]]];
    destruct c1, c2, c3; rewrite ?dict_find_set; reflexivity.
Qed.

Lemma metadata_location_witness :
  dict_find (extract_metadata_flexible sample_header_page) "pin_code"
  = option_map (fun m => strip (group m 1))
      (re_search flag_I (pat "Pin\s+code\s*:?\s*(\d{6})")
         (clean_ocr_text_advanced sample_header_page)).
Proof.
  apply (@metadata_location_fields sample_header_page "pin_code").
  unfold location_patterns. do 4 right. left. reflexivity.
Defined.

Lemma dict_set_invariant (P : string -> str -> Prop) (d : dict) k v :
  P k v ->
  (forall k' v', List.In (k', v') d -> P k' v') ->
  forall k' v', List.In (k', v') (dict_set d k v) -> P k' v'.
Proof.
  intros Hkv. induction d as [|[k0 v0] d IH]; intros Hd k' v' Hin.
  - destruct Hin as [[= <- <-]|[]]. assumption.
  - cbn [dict_set] in Hin. destruct (String.eqb k0 k) eqn:E.
    + apply String.eqb_eq in E. subst k0.
      destruct Hin as [[= <- <-]|Hin]; [assumption|].
      apply Hd. now right.
    + destruct Hin as [[= <- <-]|Hin]; [apply Hd; now left|].
      apply IH; [|assumption]. intros k1 v1 H1. apply Hd. now right.
Qed.

Lemma dict_find_in (d : dict) k v : dict_find d k = Some v -> List.In (k, v) d.
Proof.
  induction d as [|[k0 v0] d IH]; [discriminate|].
  cbn [dict_find]. destruct (String.eqb k0 k) eqn:E.
  - apply String.eqb_eq in E. subst. intros [= ->]. now left.
  - intros H. right. auto.
Qed.

(** X15.  Every entry of the metadata the extractor returns has one of its
    ten keys, and its value is trimmed: it neither starts nor ends with
    white space. *)
Theorem metadata_entries_are_trimmed :
  forall (text : str) (key : string) (value : str),
    dict_find (extract_metadata_flexible text) key = Some value ->
    List.In key metadata_keys /\ strip value = value.
Proof.
  intros text key value H. apply dict_find_in in H. revert key value H.
  unfold extract_metadata_flexible, first_match.
  set (t := clean_ocr_text_advanced text). cbv zeta.
  set (P := fun (k : string) (v : str) => List.In k metadata_keys /\ strip v = v).
  assert (Hfold : forall l d,
             (forall kp, List.In kp l -> List.In (fst kp) metadata_keys) ->
             (forall k v, List.In (k, v) d -> P k v) ->
             forall k v, List.In (k, v) (fold_left (set_location t) l d) -> P k v).
  { induction l as [|kp l IH]; intros d Hl Hd; [assumption|].
    cbn [fold_left]. apply IH; [intros kp' Hkp; apply Hl; now right|].
    unfold set_location. destruct (re_search _ _ _); [|assumption].
    apply dict_set_invariant; [|assumption].
    split; [apply Hl; now left|apply strip_idem]. }
  apply Hfold.
  - intros kp Hkp. apply (in_map fst) in Hkp. rewrite location_keys in Hkp.
    unfold metadata_keys. cbn [List.In] in *. intuition.
  - generalize (cascade (fun p => re_search flag_IS p t) constituency_patterns).
    generalize (cascade (fun p => re_search flag_I p t) part_patterns).
    generalize (cascade (fun p => re_search flag_IS p t) parliament_patterns).
    intros c3 c2 c1.
    destruct c1, c2, c3;
      repeat (apply dict_set_invariant;
              [split; [unfold metadata_keys; cbn [List.In]; tauto|apply strip_idem]|]);
      intros k v [].
Qed.

Lemma metadata_entries_witness :
  List.In "vidhan_sabha_name"%string metadata_keys
  /\ strip (u "SAMPLE TOWN") = u "SAMPLE TOWN".
Proof.
  apply (@metadata_entries_are_trimmed header_text).
  vm_compute. reflexivity.
Defined.

(* ================================================================== *)
(** * The matcher on runs of white space *)

Lemma rmatch_repeat fl greedy lo hi r st k :
  rmatch fl (Repeat greedy lo hi r) st k
  = repeat_loop (rmatch fl r) greedy lo hi k
      (lo + length (m_rest st) + 2) 0 None st.
Proof. reflexivity. Qed.

Lemma repeat_loop_S body greedy lo hi k fuel count last st :
  repeat_loop body greedy lo hi k (S fuel) count last st
  = if count <? lo then
      body st (fun st' => repeat_loop body greedy lo hi k fuel (S count) last st')
    else
      let more := below hi count && negb (at_pos last (m_pos st)) in
      let again (_ : unit) :=
        body st (fun st' =>
          repeat_loop body greedy lo hi k fuel (S count) (Some (m_pos st)) st') in
      if greedy then
        if more then or_else (again tt) (fun _ => k st) else k st
      else
        or_else (k st) (fun _ => if more then again tt else None).
Proof. reflexivity. Qed.

Lemma in_set_space c : in_set no_flags [CSpace] c = is_space c.
Proof. unfold in_set. cbn. apply orb_false_r. Qed.

Lemma skip_spaces_spec rest : forall pos prev caps,
  exists w,
    rest = w ++ lstrip rest
    /\ m_rest (skip_spaces pos prev rest caps) = lstrip rest
    /\ m_caps (skip_spaces pos prev rest caps) = caps
    /\ m_pos (skip_spaces pos prev rest caps) = pos + length w.
Proof.
  induction rest as [|c r IH]; intros pos prev caps; cbn [skip_spaces lstrip].
  - exists []. cbn. auto.
  - destruct (is_space c).
    + destruct (IH (S pos) (Some c) caps) as (w & H0 & H1 & H2 & H3).
      exists (c :: w). cbn [app length]. rewrite <- H0. repeat split; auto. lia.
    + exists []. cbn. auto.
Qed.

Lemma skip_spaces_rest pos prev rest caps :
  m_rest (skip_spaces pos prev rest caps) = lstrip rest.
Proof. destruct (skip_spaces_spec rest pos prev caps) as (w & _ & H & _). exact H. Qed.

Lemma skip_spaces_pos pos prev rest caps :
  pos <= m_pos (skip_spaces pos prev rest caps).
Proof.
  destruct (skip_spaces_spec rest pos prev caps) as (w & _ & _ & _ & H). lia.
Qed.

Lemma skip_spaces_fixed pos prev rest caps :
  starts_space rest = false ->
  skip_spaces pos prev rest caps = MState pos prev rest caps.
Proof.
  destruct rest as [|c r]; cbn; [reflexivity|]. now intros ->.
Qed.

(** A greedy run of white space ends at the first other character when
    what follows cannot start at a white-space character, or when it
    succeeds there. *)
Lemma spaces_loop k lo rest : forall fuel count last pos prev caps,
  lo <= count ->
  length rest < fuel ->
  at_pos last pos = false ->
  (k (skip_spaces pos prev rest caps) <> None
   \/ forall st, starts_space (m_rest st) = true -> k st = None) ->
  repeat_loop (rmatch no_flags (InSet [CSpace])) true lo None k
    fuel count last (MState pos prev rest caps)
  = k (skip_spaces pos prev rest caps).
Proof.
  induction rest as [|c r IH]; intros fuel count last pos prev caps Hlo Hf Hl Hk;
    (destruct fuel as [|fuel]; [cbn in Hf; lia|]);
    cbn [repeat_loop];
    replace (count <? lo) with false by (symmetry; apply Nat.ltb_ge; lia);
    cbn [below andb m_pos]; rewrite Hl; cbn [negb rmatch step_char m_rest skip_spaces].
  - reflexivity.
  - rewrite in_set_space. destruct (is_space c) eqn:Ec; [|reflexivity].
    cbn [m_pos m_caps].
    cbn [skip_spaces] in Hk. rewrite Ec in Hk.
    rewrite IH; [| lia | cbn in Hf; lia | | ].
    + destruct (k (skip_spaces (S pos) (Some c) r caps)) eqn:E; [reflexivity|].
      cbn [or_else]. destruct Hk as [Hk|Hk]; [congruence|].
      apply Hk. cbn. exact Ec.
    + cbn [at_pos]. apply Nat.eqb_neq. lia.
    + exact Hk.
Qed.

Lemma rmatch_spaces k st :
  (k (skip_spaces (m_pos st) (m_prev st) (m_rest st) (m_caps st)) <> None
   \/ forall st', starts_space (m_rest st') = true -> k st' = None) ->
  rmatch no_flags spaces st k
  = k (skip_spaces (m_pos st) (m_prev st) (m_rest st) (m_caps st)).
Proof.
  intros Hk. unfold spaces. rewrite rmatch_repeat. destruct st as [pos prev rest caps].
  cbn [m_rest m_pos m_prev m_caps] in *.
  apply spaces_loop; auto; cbn; lia.
Qed.

(** One or more white-space characters: the pattern [\s+]. *)
Lemma rmatch_spaces1 k pos prev c r caps :
  (is_space c = true -> k (skip_spaces (S pos) (Some c) r caps) <> None) ->
  rmatch no_flags (Repeat true 1 None (InSet [CSpace])) (MState pos prev (c :: r) caps) k
  = if is_space c then k (skip_spaces (S pos) (Some c) r caps) else None.
Proof.
  intros Hk. rewrite rmatch_repeat. cbn [m_rest]. cbn [Nat.add].
  rewrite repeat_loop_S.
  cbn [Nat.ltb Nat.leb rmatch step_char m_rest].
  rewrite in_set_space. destruct (is_space c); [|reflexivity].
  cbn [m_pos m_caps].
  apply (@spaces_loop k 1 r (length (c :: r) + 2) 1 None (S pos) (Some c) caps);
    auto; cbn; lia.
Qed.

Lemma rmatch_spaces1_nil k pos prev caps :
  rmatch no_flags (Repeat true 1 None (InSet [CSpace])) (MState pos prev [] caps) k
  = None.
Proof. reflexivity. Qed.

Lemma accept_after adv p0 e : p0 < m_pos e -> accept adv p0 e = Some e.
Proof.
  intros H. unfold accept.
  replace (m_pos e =? p0) with false by (symmetry; apply Nat.eqb_neq; lia).
  now rewrite andb_false_r.
Qed.

(* ================================================================== *)
(** * Searching and substituting, match by match *)

Lemma search_from_eq fl r adv p0 pos prev rest :
  search_from fl r adv p0 pos prev rest
  = match rmatch fl r (MState pos prev rest []) (accept adv p0) with
    | Some e => Some (pos, e)
    | None =>
        match rest with
        | [] => None
        | c :: rest' => search_from fl r adv p0 (S pos) (Some c) rest'
        end
    end.
Proof. destruct rest; reflexivity. Qed.

Lemma search_from_ge fl r adv p0 rest : forall pos prev b e,
  search_from fl r adv p0 pos prev rest = Some (b, e) -> pos <= b.
Proof.
  induction rest as [|c rest IH]; intros pos prev b e; rewrite search_from_eq;
    destruct (rmatch _ _ _ _).
  - intros [= <- _]. lia.
  - discriminate.
  - intros [= <- _]. lia.
  - intros H. apply IH in H. lia.
Qed.

Lemma search_from_p0 fl r p0 p0' rest : forall pos prev,
  search_from fl r false p0 pos prev rest = search_from fl r false p0' pos prev rest.
Proof.
  induction rest as [|c rest IH]; intros pos prev;
    rewrite (@search_from_eq fl r false p0 pos prev),
            (@search_from_eq fl r false p0' pos prev);
    change (accept false p0) with (@Some mstate);
    change (accept false p0') with (@Some mstate);
    destruct (rmatch _ _ _ _); auto.
Qed.

Lemma search_from_adv fl r (Hr : consuming fl r) adv p0 rest : forall pos prev,
  p0 <= pos ->
  search_from fl r adv p0 pos prev rest = search_from fl r false p0 pos prev rest.
Proof.
  induction rest as [|c rest IH]; intros pos prev Hp;
    rewrite (@search_from_eq fl r adv p0 pos prev),
            (@search_from_eq fl r false p0 pos prev);
    change (accept false p0) with (@Some mstate);
    rewrite (proj1 (Hr adv p0 pos prev _ Hp));
    destruct (rmatch _ _ _ _); auto.
Qed.

(** Where a search ends: the text read up to the end of the match. *)
Lemma search_from_spec fl r (Hr : consuming fl r) rest : forall pos prev b e,
  search_from fl r false pos pos prev rest = Some (b, e) ->
  exists w, rest = w ++ m_rest e /\ m_pos e = pos + length w /\ pos <= b /\ b < m_pos e.
Proof.
  induction rest as [|c rest IH]; intros pos prev b e; rewrite search_from_eq;
    change (accept false pos) with (@Some mstate);
    destruct (rmatch _ _ _ _) as [e'|] eqn:E.
  - intros [= <- <-]. destruct (proj2 (Hr false pos pos prev _ (le_n _)) _ E)
      as (w & Hw & H1 & H2).
    exists w. repeat split; auto. destruct w; [congruence|]. cbn in *. lia.
  - discriminate.
  - intros [= <- <-]. destruct (proj2 (Hr false pos pos prev _ (le_n _)) _ E)
      as (w & Hw & H1 & H2).
    exists w. repeat split; auto. destruct w; [congruence|]. cbn in *. lia.
  - rewrite (@search_from_p0 fl r pos (S pos)). intros H.
    destruct (IH _ _ _ _ H) as (w & H1 & H2 & H3 & H4).
    exists (c :: w). cbn [app length]. rewrite <- H1. repeat split; auto; lia.
Qed.

Lemma slice_app_from (pre rest : str) b :
  length pre <= b -> slice (length pre) b (pre ++ rest) = firstn (b - length pre) rest.
Proof.
  intros _. unfold slice. rewrite skipn_app, skipn_all, Nat.sub_diag. reflexivity.
Qed.

(** [re.sub] with a consuming pattern reads the text left to right. *)
Lemma scan_sub_local fl r (Hr : consuming fl r) repl : forall fuel pre rest prev adv,
  join_sub (pre ++ rest) repl (length pre)
    (map (to_match (pre ++ rest)) (scan fl r fuel adv (length pre) prev rest))
  = sub_local fl r repl fuel (length pre) prev rest.
Proof.
  induction fuel as [|f IH]; intros pre rest prev adv; cbn [scan sub_local].
  - cbn. now rewrite skipn_app, skipn_all, Nat.sub_diag.
  - rewrite (search_from_adv Hr); [|lia].
    destruct (search_from fl r false (length pre) (length pre) prev rest)
      as [[b e]|] eqn:E.
    + destruct (search_from_spec Hr _ _ _ E) as (w & H1 & H2 & H3 & H4).
      cbn [map join_sub to_match fst snd mo_start mo_end].
      rewrite slice_app_from by lia. f_equal. f_equal.
      specialize (IH (pre ++ w) (m_rest e) (m_prev e) (m_pos e =? b)).
      rewrite length_app, <- H2, <- app_assoc, <- H1 in IH. exact IH.
    + cbn. now rewrite skipn_app, skipn_all, Nat.sub_diag.
Qed.

Lemma re_sub_local fl r repl text :
  consuming fl r ->
  re_sub fl r repl text = sub_local fl r repl (scan_fuel text) 0 None text.
Proof.
  intros Hr. unfold re_sub, re_finditer.
  exact (@scan_sub_local fl r Hr repl (scan_fuel text) [] text None false).
Qed.

Lemma scan_fuel_gt text : length text < scan_fuel text.
Proof. unfold scan_fuel. lia. Qed.

Lemma sub_local_skip fl r repl fuel pos prev c rest :
  rmatch fl r (MState pos prev (c :: rest) []) Some = None ->
  sub_local fl r repl fuel pos prev (c :: rest)
  = c :: sub_local fl r repl fuel (S pos) (Some c) rest.
Proof.
  intros H. destruct fuel as [|f]; [reflexivity|]. cbn [sub_local].
  rewrite search_from_eq. change (accept false pos) with (@Some mstate). rewrite H.
  rewrite (@search_from_p0 fl r pos (S pos)).
  destruct (search_from fl r false (S pos) (S pos) (Some c) rest) as [[b e]|] eqn:E;
    [|reflexivity].
  apply search_from_ge in E.
  replace (b - pos) with (S (b - S pos)) by lia. reflexivity.
Qed.

Lemma sub_local_hit fl r repl fuel pos prev rest e :
  rmatch fl r (MState pos prev rest []) Some = Some e ->
  sub_local fl r repl (S fuel) pos prev rest
  = repl ++ sub_local fl r repl fuel (m_pos e) (m_prev e) (m_rest e).
Proof.
  intros H. cbn [sub_local].
  rewrite search_from_eq. change (accept false pos) with (@Some mstate). rewrite H.
  now rewrite Nat.sub_diag.
Qed.

Lemma sub_local_nil fl r repl fuel pos prev :
  sub_local fl r repl fuel pos prev [] = []
  \/ exists e, rmatch fl r (MState pos prev [] []) Some = Some e.
Proof.
  destruct fuel as [|f]; [now left|]. cbn [sub_local].
  rewrite search_from_eq. change (accept false pos) with (@Some mstate).
  destruct (rmatch _ _ _ _) as [e|]; [right; now exists e|now left].
Qed.

(* ================================================================== *)
(** * The substitutions of the normaliser in closed form *)

Lemma rmatch_seq fl a b st k :
  rmatch fl (Seq a b) st k = rmatch fl a st (fun st' => rmatch fl b st' k).
Proof. reflexivity. Qed.

Lemma rmatch_lit fl x st k : rmatch fl (Lit x) st k = step_char (lit_ok fl x) st k.
Proof. reflexivity. Qed.

Lemma lstrip_starts s : starts_space (lstrip s) = false.
Proof.
  destruct (lstrip s) as [|c r] eqn:E; [reflexivity|].
  cbn. exact (lstrip_head _ E).
Qed.

Lemma lstrip_id s : starts_space s = false -> lstrip s = s.
Proof. destruct s as [|c r]; cbn; [reflexivity|]. now intros ->. Qed.

Lemma encode_lstrip s : encode (lstrip s) = encode s.
Proof.
  induction s as [|c s IH]; [reflexivity|]. cbn [lstrip encode].
  destruct (is_space c) eqn:E; [exact IH|]. cbn [encode]. now rewrite E.
Qed.

Lemma encode_nonspace s : nonspace (encode s).
Proof.
  induction s as [|c s IH]; [constructor|]. cbn [encode].
  destruct (is_space c) eqn:E; [exact IH|]. constructor; [exact E|exact IH].
Qed.

Lemma decode_starts l : nonspace l -> starts_space (decode l) = false.
Proof. intros H. destruct H as [|[c g] l H _]; [reflexivity|exact H]. Qed.

Lemma pat_spaces1 : pat "\s+" = Repeat true 1 None (InSet [CSpace]).
Proof. reflexivity. Qed.

Lemma pat_blank_lines :
  pat "\n\s*\n" = Seq (Lit 10%N) (Seq spaces (Lit 10%N)).
Proof. reflexivity. Qed.

Lemma pat_colon : pat "\s*:\s*" = punct_pattern 58%N.
Proof. reflexivity. Qed.

Lemma pat_comma : pat "\s*,\s*" = punct_pattern 44%N.
Proof. reflexivity. Qed.

Lemma consuming_spaces1 : consuming no_flags (Repeat true 1 None (InSet [CSpace])).
Proof.
  intros adv p0 pos prev [|c r] Hp.
  - split; [reflexivity|]. rewrite rmatch_spaces1_nil. discriminate.
  - assert (Ha : accept adv p0 (skip_spaces (S pos) (Some c) r [])
                 = Some (skip_spaces (S pos) (Some c) r [])).
    { apply accept_after. pose proof (skip_spaces_pos (S pos) (Some c) r []). lia. }
    rewrite !rmatch_spaces1 by (intros _; congruence).
    rewrite Ha. split; [reflexivity|].
    destruct (is_space c); [|discriminate]. intros e [= <-].
    destruct (skip_spaces_spec r (S pos) (Some c) []) as (w & H0 & H1 & _ & H3).
    exists (c :: w). rewrite H1, H3. cbn [app length].
    repeat split; [discriminate|now f_equal|lia].
Qed.

(** [re.sub(r'\s+', ' ', text)]: each run of white space becomes one space. *)
Lemma sub_spaces1 : forall n rest, length rest <= n -> forall fuel pos prev,
  length rest < fuel ->
  sub_local no_flags (Repeat true 1 None (InSet [CSpace])) [32%N] fuel pos prev rest
  = lead_space rest ++ decode (encode rest).
Proof.
  induction n as [|n IH]; intros [|c r] Hn fuel pos prev Hf; cbn [length] in *;
    try lia.
  - destruct (sub_local_nil no_flags (Repeat true 1 None (InSet [CSpace]))
                [32%N] fuel pos prev) as [H|[e H]]; [exact H|discriminate].
  - destruct (sub_local_nil no_flags (Repeat true 1 None (InSet [CSpace]))
                [32%N] fuel pos prev) as [H|[e H]]; [exact H|discriminate].
  - destruct (is_space c) eqn:Ec.
    + destruct fuel as [|f]; [lia|].
      rewrite (@sub_local_hit no_flags _ [32%N] f pos prev (c :: r)
                 (skip_spaces (S pos) (Some c) r []))
        by (rewrite rmatch_spaces1 by (intros _; discriminate); now rewrite Ec).
      rewrite skip_spaces_rest.
      pose proof (lstrip_length r).
      rewrite IH by lia.
      unfold lead_space. rewrite lstrip_starts, encode_lstrip.
      cbn [starts_space encode]. rewrite Ec. reflexivity.
    + rewrite sub_local_skip
        by (rewrite rmatch_spaces1 by (intros _; discriminate); now rewrite Ec).
      rewrite IH by lia.
      unfold lead_space. cbn [starts_space encode decode]. rewrite Ec.
      cbn [decode app]. now destruct (starts_space r).
Qed.

Lemma re_sub_spaces1 text :
  re_sub no_flags (pat "\s+") (u " ") text = lead_space text ++ decode (encode text).
Proof.
  rewrite pat_spaces1, (re_sub_local _ _ consuming_spaces1).
  change (u " ") with [32%N].
  apply (@sub_spaces1 (length text)); [lia|apply scan_fuel_gt].
Qed.

(** [re.sub(r'\n\s*\n', '\n', text)] on a text without line break. *)
Lemma search_line_break r adv p0 rest : forall pos prev,
  ~ List.In 10%N rest ->
  search_from no_flags (Seq (Lit 10%N) r) adv p0 pos prev rest = None.
Proof.
  induction rest as [|c rest IH]; intros pos prev Hn; rewrite search_from_eq;
    rewrite rmatch_seq, rmatch_lit; unfold step_char; cbn [m_rest]; [reflexivity|].
  unfold lit_ok. cbn [IGNORECASE no_flags].
  destruct (N.eqb_spec c 10) as [->|_]; [exfalso; apply Hn; now left|].
  apply IH. intros H. apply Hn. now right.
Qed.

Lemma scan_none fl r fuel adv pos prev rest :
  search_from fl r adv pos pos prev rest = None ->
  scan fl r fuel adv pos prev rest = [].
Proof. intros H. destruct fuel; [reflexivity|]. cbn [scan]. now rewrite H. Qed.

Lemma re_sub_blank_lines text :
  ~ List.In 10%N text ->
  re_sub no_flags (pat "\n\s*\n") [10%N] text = text.
Proof.
  intros Hn. rewrite pat_blank_lines. unfold re_sub, re_finditer.
  rewrite scan_none by now apply search_line_break.
  reflexivity.
Qed.

Lemma decode_no_line_break l : nonspace l -> ~ List.In 10%N (decode l).
Proof.
  induction 1 as [|[c g] l Hc _ IH]; cbn [decode]; [easy|].
  cbn [fst] in Hc. intros [->|H]; [discriminate|].
  destruct g; [destruct H as [H|H]; [discriminate|]|]; auto.
Qed.

Lemma lead_decode_no_line_break s l :
  nonspace l -> ~ List.In 10%N (lead_space s ++ decode l).
Proof.
  intros Hl H. apply in_app_or in H. destruct H as [H|H].
  - unfold lead_space in H. destruct (starts_space s); [|easy].
    destruct H as [H|[]]. discriminate.
  - exact (decode_no_line_break Hl H).
Qed.

(** Trimming *)
Lemma lstrip_app (x y : str) : lstrip x <> [] -> lstrip (x ++ y) = lstrip x ++ y.
Proof.
  induction x as [|c x IH]; cbn [lstrip app]; [congruence|].
  destruct (is_space c); [exact IH|reflexivity].
Qed.

Lemma rstrip_app (a b : str) : rstrip b <> [] -> rstrip (a ++ b) = a ++ rstrip b.
Proof.
  unfold rstrip. intros H. rewrite rev_app_distr, lstrip_app.
  - now rewrite rev_app_distr, rev_involutive.
  - intros E. apply H. now rewrite E.
Qed.

Lemma clear_last_nonempty l : l <> [] -> decode (clear_last l) <> [].
Proof.
  destruct l as [|[c g] [|x l]]; [congruence| |]; intros _; cbn; discriminate.
Qed.

Lemma rstrip_decode l : nonspace l -> rstrip (decode l) = decode (clear_last l).
Proof.
  induction 1 as [|[c g] l Hc Hl IH]; [reflexivity|]. cbn [fst] in Hc.
  destruct l as [|x l].
  - cbn [decode clear_last]. unfold rstrip. destruct g; cbn; now rewrite Hc.
  - assert (Hne : rstrip (decode (x :: l)) <> []).
    { rewrite IH. now apply clear_last_nonempty. }
    change (clear_last ((c, g) :: x :: l)) with ((c, g) :: clear_last (x :: l)).
    cbn [decode] in *. rewrite <- IH.
    destruct g.
    + change (c :: 32%N :: ?t) with ([c; 32%N] ++ t). now rewrite rstrip_app.
    + change (c :: ?t) with ([c] ++ t). now rewrite rstrip_app.
Qed.

Lemma strip_lead_decode s l :
  nonspace l -> strip (lead_space s ++ decode l) = decode (clear_last l).
Proof.
  intros Hl. unfold strip.
  assert (H : lstrip (lead_space s ++ decode l) = decode l).
  { unfold lead_space. destruct (starts_space s); cbn [app lstrip];
      [change (is_space 32%N) with true; cbn iota|];
      apply lstrip_id, decode_starts, Hl. }
  rewrite H. now apply rstrip_decode.
Qed.

(** Optional white space, the punctuation character, optional white space. *)
Lemma rmatch_punct p k pos prev rest :
  is_space p = false ->
  (forall st, pos < m_pos st -> k st <> None) ->
  rmatch no_flags (punct_pattern p) (MState pos prev rest []) k
  = match lstrip rest with
    | c :: r =>
        if (c =? p)%N
        then k (skip_spaces (S (m_pos (skip_spaces pos prev rest []))) (Some c) r [])
        else None
    | [] => None
    end.
Proof.
  intros Hp Hk. unfold punct_pattern. rewrite rmatch_seq, rmatch_spaces.
  2:{ right. intros st Hs. rewrite rmatch_seq, rmatch_lit. unfold step_char.
      destruct (m_rest st) as [|c r]; [reflexivity|]. cbn in Hs.
      unfold lit_ok. cbn [IGNORECASE no_flags].
      destruct (N.eqb_spec c p) as [->|_]; [congruence|reflexivity]. }
  cbn [m_pos m_prev m_rest m_caps].
  rewrite rmatch_seq, rmatch_lit. unfold step_char. rewrite skip_spaces_rest.
  destruct (skip_spaces_spec rest pos prev []) as (w & _ & _ & Hc & Hpos).
  rewrite Hc.
  destruct (lstrip rest) as [|c r]; [reflexivity|].
  unfold lit_ok. cbn [IGNORECASE no_flags]. destruct (c =? p)%N; [|reflexivity].
  rewrite rmatch_spaces; cbn [m_pos m_prev m_rest m_caps]; [reflexivity|].
  left. apply Hk.
  pose proof (skip_spaces_pos (S (m_pos (skip_spaces pos prev rest []))) (Some c) r []).
  lia.
Qed.

Lemma rmatch_punct_some p pos prev rest :
  is_space p = false ->
  rmatch no_flags (punct_pattern p) (MState pos prev rest []) Some
  = match lstrip rest with
    | c :: r =>
        if (c =? p)%N
        then Some (skip_spaces (S (m_pos (skip_spaces pos prev rest []))) (Some c) r [])
        else None
    | [] => None
    end.
Proof. intros Hp. apply rmatch_punct; [exact Hp|discriminate]. Qed.

Lemma consuming_punct p : is_space p = false -> consuming no_flags (punct_pattern p).
Proof.
  intros Hp adv p0 pos prev rest Hle.
  rewrite rmatch_punct_some by exact Hp.
  rewrite rmatch_punct;
    [|exact Hp|intros st Hst; rewrite accept_after by lia; discriminate].
  destruct (skip_spaces_spec rest pos prev []) as (w1 & H0 & _ & _ & H3).
  destruct (lstrip rest) as [|c r]; [split; [reflexivity|discriminate]|].
  destruct (c =? p)%N; [|split; [reflexivity|discriminate]].
  destruct (skip_spaces_spec r (S (m_pos (skip_spaces pos prev rest []))) (Some c) [])
    as (w2 & K0 & K1 & _ & K3).
  split.
  - apply accept_after. lia.
  - intros e [= <-]. exists (w1 ++ c :: w2). rewrite K1, K3, H3, length_app.
    cbn [length]. repeat split.
    + destruct w1; discriminate.
    + rewrite <- app_assoc. cbn [app]. now rewrite <- K0.
    + lia.
Qed.

(** [re.sub(r'\s*P\s*', 'P ', text)] on a text in gap form. *)
Lemma sub_punct p (Hp : is_space p = false) : forall n l,
  length l <= n -> nonspace l -> forall fuel pos prev,
  length (decode l) < fuel ->
  sub_local no_flags (punct_pattern p) [p; 32%N] fuel pos prev (decode l)
  = decode (punct_rule p l).
Proof.
  induction n as [|n IH]; intros [|[c g] l] Hn Hl fuel pos prev Hf;
    cbn [length] in Hn; try lia.
  - destruct (sub_local_nil no_flags (punct_pattern p) [p; 32%N] fuel pos prev)
      as [H|[e H]]; [exact H|]. rewrite rmatch_punct_some in H by exact Hp.
    discriminate.
  - destruct (sub_local_nil no_flags (punct_pattern p) [p; 32%N] fuel pos prev)
      as [H|[e H]]; [exact H|]. rewrite rmatch_punct_some in H by exact Hp.
    discriminate.
  - inversion Hl as [|x y Hc Hl' E]; subst. cbn [fst] in Hc.
    pose proof (decode_starts Hl') as Hs.
    cbn [punct_rule]. destruct (N.eqb_spec c p) as [->|Hcp].
    + (* the punctuation character itself *)
      destruct fuel as [|f]; [lia|].
      cbn [decode] in *.
      erewrite sub_local_hit.
      2:{ rewrite rmatch_punct_some by exact Hp. cbn [lstrip]. rewrite Hc.
          rewrite N.eqb_refl. reflexivity. }
      rewrite skip_spaces_rest.
      match goal with |- context [lstrip ?x] =>
        assert (Hr : lstrip x = decode l)
          by (destruct g; cbn [lstrip];
              [change (is_space 32%N) with true; cbn iota|]; now apply lstrip_id);
        rewrite Hr
      end.
      rewrite IH; [reflexivity|lia|exact Hl'|].
      destruct g; cbn [length] in Hf; lia.
    + (* another character *)
      assert (Hno : forall q pv tail,
                rmatch no_flags (punct_pattern p) (MState q pv (c :: tail) []) Some
                = None).
      { intros q pv tail. rewrite rmatch_punct_some by exact Hp. cbn [lstrip].
        rewrite Hc. now destruct (N.eqb_spec c p). }
      cbn [decode] in *.
      destruct g.
      * rewrite sub_local_skip by apply Hno.
        destruct l as [|[d g'] l'].
        -- cbn [decode punct_rule].
           rewrite sub_local_skip
             by (rewrite rmatch_punct_some by exact Hp; reflexivity).
           destruct (sub_local_nil no_flags (punct_pattern p) [p; 32%N] fuel
                       (S (S pos)) (Some 32%N)) as [H|[e H]].
           ++ do 2 f_equal. exact H.
           ++ rewrite rmatch_punct_some in H by exact Hp. discriminate.
        -- inversion Hl' as [|x y Hd Hl'' E]; subst. cbn [fst] in Hd.
           cbn [length] in Hn.
           destruct (N.eqb_spec d p) as [->|Hdp].
           ++ destruct fuel as [|f]; [lia|].
              cbn [decode punct_rule] in *. rewrite N.eqb_refl.
              erewrite sub_local_hit.
              2:{ rewrite rmatch_punct_some by exact Hp. cbn [lstrip].
                  change (is_space 32%N) with true. cbn iota. rewrite Hd.
                  rewrite N.eqb_refl. reflexivity. }
              rewrite skip_spaces_rest.
              pose proof (decode_starts Hl'') as Hs''.
              match goal with |- context [lstrip ?x] =>
                assert (Hr : lstrip x = decode l')
                  by (destruct g'; cbn [lstrip];
                      [change (is_space 32%N) with true; cbn iota|];
                      now apply lstrip_id);
                rewrite Hr
              end.
              rewrite IH; [reflexivity|lia|exact Hl''|].
              destruct g'; cbn [length] in Hf; lia.
           ++ rewrite sub_local_skip.
              2:{ rewrite rmatch_punct_some by exact Hp. cbn [decode lstrip].
                  change (is_space 32%N) with true. cbn iota. rewrite Hd.
                  now destruct (N.eqb_spec d p). }
              rewrite IH;
                [|cbn [length]; lia|exact Hl'|cbn [length decode] in *; lia].
              cbn [decode punct_rule].
              destruct (N.eqb_spec d p); [contradiction|]. reflexivity.
      * rewrite sub_local_skip by apply Hno.
        rewrite IH; [|lia|exact Hl'|cbn [length] in Hf; lia].
        destruct l as [|[d g'] l']; [reflexivity|].
        now destruct (d =? p)%N.
Qed.

Lemma nonspace_clear_last l : nonspace l -> nonspace (clear_last l).
Proof.
  induction 1 as [|[c g] l Hc Hl IH]; [constructor|].
  destruct l as [|x l]; cbn [clear_last]; constructor; auto.
Qed.

Lemma nonspace_punct_rule p l : nonspace l -> nonspace (punct_rule p l).
Proof.
  induction 1 as [|[c g] l Hc Hl IH]; cbn [punct_rule]; constructor; auto.
Qed.

Lemma re_sub_punct p l :
  is_space p = false -> nonspace l ->
  re_sub no_flags (punct_pattern p) [p; 32%N] (decode l) = decode (punct_rule p l).
Proof.
  intros Hp Hl. rewrite (re_sub_local _ _ (@consuming_punct p Hp)).
  apply (@sub_punct p Hp (length l)); [lia|exact Hl|apply scan_fuel_gt].
Qed.

(** The clean-up of white space and punctuation in closed form. *)
Lemma tidy_closed text : tidy text = decode (tidy_gaps text).
Proof.
  unfold tidy, tidy_gaps. cbv zeta.
  rewrite re_sub_spaces1.
  rewrite re_sub_blank_lines
    by (apply lead_decode_no_line_break, encode_nonspace).
  rewrite strip_lead_decode by apply encode_nonspace.
  rewrite pat_colon, pat_comma.
  change (u ": ") with [58%N; 32%N]. change (u ", ") with [44%N; 32%N].
  rewrite re_sub_punct;
    [|reflexivity|apply nonspace_clear_last, encode_nonspace].
  rewrite re_sub_punct;
    [|reflexivity|apply nonspace_punct_rule, nonspace_clear_last, encode_nonspace].
  reflexivity.
Qed.

(* ================================================================== *)
(** * What the normaliser returns *)

Lemma encode_decode l : nonspace l -> encode (decode l) = l.
Proof.
  induction 1 as [|[c g] l Hc Hl IH]; [reflexivity|]. cbn [fst] in Hc.
  cbn [decode encode]. rewrite Hc. destruct g.
  - cbn [starts_space encode]. change (is_space 32%N) with true. cbn iota.
    now rewrite IH.
  - now rewrite (decode_starts Hl), IH.
Qed.

Lemma next_char_look f l : next_char (look f l) = next_char l.
Proof. now destruct l as [|[c g] l]. Qed.

Lemma look_look f h l :
  look f (look h l) = look (fun c n g => f c n (h c n g)) l.
Proof.
  induction l as [|[c g] l IH]; [reflexivity|].
  cbn [look]. now rewrite next_char_look, IH.
Qed.

Lemma look_ext f h l :
  (forall c n g, f c n g = h c n g) -> look f l = look h l.
Proof.
  intros E. induction l as [|[c g] l IH]; [reflexivity|].
  cbn [look]. now rewrite E, IH.
Qed.

Lemma clear_last_look l : clear_last l = look clear_mark l.
Proof.
  induction l as [|[c g] l IH]; [reflexivity|].
  destruct l as [|[d g'] l]; [reflexivity|].
  change (clear_last ((c, g) :: (d, g') :: l))
    with ((c, g) :: clear_last ((d, g') :: l)).
  now rewrite IH.
Qed.

Lemma punct_rule_look p l : punct_rule p l = look (punct_mark p) l.
Proof.
  induction l as [|[c g] l IH]; [reflexivity|].
  cbn [punct_rule look]. rewrite IH. unfold punct_mark.
  now destruct l as [|[d g'] l].
Qed.

Lemma respace_look l :
  punct_rule 44%N (punct_rule 58%N (clear_last l)) = look tidy_mark l.
Proof.
  now rewrite clear_last_look, !punct_rule_look, !look_look.
Qed.

Lemma tidy_mark_idem c n g : tidy_mark c n (tidy_mark c n g) = tidy_mark c n g.
Proof.
  unfold tidy_mark, punct_mark, clear_mark.
  destruct (c =? 44)%N, (c =? 58)%N; try reflexivity;
    destruct n as [d|]; try reflexivity;
    destruct (d =? 44)%N, (d =? 58)%N; reflexivity.
Qed.

Lemma tidy_gaps_nonspace text : nonspace (tidy_gaps text).
Proof.
  unfold tidy_gaps.
  apply nonspace_punct_rule, nonspace_punct_rule, nonspace_clear_last, encode_nonspace.
Qed.

Lemma tidy_gaps_decode l :
  nonspace l -> tidy_gaps (decode (look tidy_mark l)) = look tidy_mark l.
Proof.
  intros Hl. unfold tidy_gaps. rewrite encode_decode.
  - rewrite respace_look, look_look. apply look_ext, tidy_mark_idem.
  - rewrite <- respace_look.
    now apply nonspace_punct_rule, nonspace_punct_rule, nonspace_clear_last.
Qed.

Lemma tidy_tidy text : tidy (tidy text) = tidy text.
Proof.
  rewrite !tidy_closed. f_equal. unfold tidy_gaps at 2 3. rewrite respace_look.
  apply tidy_gaps_decode, encode_nonspace.
Qed.

Lemma clean_gaps text :
  exists l, nonspace l /\ clean_ocr_text_advanced text = decode l.
Proof.
  unfold clean_ocr_text_advanced. destruct (nonempty text).
  - exists (tidy_gaps (apply_corrections text)).
    split; [apply tidy_gaps_nonspace|apply tidy_closed].
  - exists []. split; [constructor|reflexivity].
Qed.

Lemma decode_space l c :
  nonspace l -> List.In c (decode l) -> is_space c = true -> c = 32%N.
Proof.
  induction 1 as [|[d g] l Hd Hl IH]; cbn [decode]; [easy|]. cbn [fst] in Hd.
  intros [<-|H] Hc; [congruence|].
  destruct g; [destruct H as [<-|H]; [reflexivity|]|]; auto.
Qed.

Lemma decode_no_double l : nonspace l ->
  forall a b, decode l <> a ++ 32%N :: 32%N :: b.
Proof.
  induction 1 as [|[d g] l Hd Hl IH]; intros a b E; cbn [decode] in E.
  - now destruct a.
  - cbn [fst] in Hd. destruct a as [|x a]; cbn [app] in E.
    + injection E as -> _. discriminate.
    + injection E as _ E. destruct g.
      * destruct a as [|y a]; cbn [app] in E.
        -- injection E as E. pose proof (decode_starts Hl) as Hs.
           rewrite E in Hs. discriminate.
        -- injection E as _ E. exact (IH _ _ E).
      * exact (IH _ _ E).
Qed.

(** Where a character that is no white space stands in a text in gap form. *)
Lemma decode_split l : nonspace l -> forall a c b,
  is_space c = false ->
  decode l = a ++ c :: b ->
  exists l1 g l2,
    l = l1 ++ (c, g) :: l2
    /\ b = if g then 32%N :: decode l2 else decode l2.
Proof.
  induction 1 as [|[d g] l Hd Hl IH]; intros a c b Hc E; cbn [decode] in E.
  - now destruct a.
  - cbn [fst] in Hd. destruct a as [|x a]; cbn [app] in E.
    + injection E as <- <-. now exists [], g, l.
    + injection E as _ E. destruct g.
      * destruct a as [|y a]; cbn [app] in E.
        -- injection E as <- _. discriminate.
        -- injection E as _ E. destruct (IH _ _ _ Hc E) as (l1 & g1 & l2 & -> & ->).
           now exists ((d, true) :: l1), g1, l2.
      * destruct (IH _ _ _ Hc E) as (l1 & g1 & l2 & -> & ->).
        now exists ((d, false) :: l1), g1, l2.
Qed.

Lemma look_split f l : forall L1 c g L2,
  look f l = L1 ++ (c, g) :: L2 ->
  exists g0, g = f c (next_char L2) g0.
Proof.
  induction l as [|[d g0] l IH]; intros L1 c g L2 E; cbn [look] in E.
  - now destruct L1.
  - destruct L1 as [|x L1]; cbn [app] in E.
    + injection E as <- <- <-. exists g0. now rewrite next_char_look.
    + injection E as _ E. exact (IH _ _ _ _ E).
Qed.

Lemma decode_next l : nonspace l ->
  match next_char l with
  | Some d => exists r, decode l = d :: r
  | None => decode l = []
  end.
Proof.
  intros _. destruct l as [|[d g] l]; cbn; [reflexivity|]. eauto.
Qed.

Lemma clean_look text :
  exists l, nonspace l /\ clean_ocr_text_advanced text = decode (look tidy_mark l).
Proof.
  unfold clean_ocr_text_advanced. destruct (nonempty text).
  - exists (encode (apply_corrections text)). split; [apply encode_nonspace|].
    rewrite tidy_closed. unfold tidy_gaps. now rewrite respace_look.
  - exists []. split; [constructor|reflexivity].
Qed.

Lemma clean_eq text :
  clean_ocr_text_advanced text
  = if nonempty text then tidy (apply_corrections text) else [].
Proof. reflexivity. Qed.

Lemma clean_cases text :
  clean_ocr_text_advanced text = []
  \/ exists x, clean_ocr_text_advanced text = tidy x.
Proof.
  rewrite clean_eq. destruct (nonempty text); [right; eauto|now left].
Qed.

Lemma look_nonspace f l : nonspace l -> nonspace (look f l).
Proof.
  induction 1 as [|[c g] l Hc Hl IH]; cbn [look]; constructor; auto.
Qed.

(** X16.  Whatever the text, the only white space left in what
    [clean_ocr_text_advanced] returns is the single space: the result holds
    no line break, tab or other white-space character, no two spaces in a
    row, and does not start with white space. *)
Theorem cleaned_text_is_single_spaced :
  forall text : str,
    let t := clean_ocr_text_advanced text in
    (forall c, List.In c t -> is_space c = true -> c = 32%N)
    /\ (forall a b, t <> a ++ 32%N :: 32%N :: b)
    /\ starts_space t = false.
Proof.
  intros text t. destruct (clean_gaps text) as (l & Hl & E).
  subst t. rewrite E. repeat split.
  - intros c. now apply decode_space.
  - now apply decode_no_double.
  - now apply decode_starts.
Qed.

(** X17.  The substitution of [\n\s*\n] by a line break never changes the
    text: it runs on the result of the substitution of [\s+] by a space,
    which holds no line break. *)
Theorem blank_line_rule_changes_nothing :
  forall text : str,
    re_sub no_flags (pat "\n\s*\n") [10%N]
      (re_sub no_flags (pat "\s+") (u " ") text)
    = re_sub no_flags (pat "\s+") (u " ") text.
Proof.
  intros text. rewrite re_sub_spaces1.
  apply re_sub_blank_lines, lead_decode_no_line_break, encode_nonspace.
Qed.

(** X18.  In what [clean_ocr_text_advanced] returns, every comma is
    followed by a space, and every colon is followed by a space or by a
    comma. *)
Theorem cleaned_text_punctuation :
  forall (text a b : str) (c : char),
    clean_ocr_text_advanced text = a ++ c :: b ->
    (c = 44%N -> exists b', b = 32%N :: b')
    /\ (c = 58%N -> exists b', b = 32%N :: b' \/ b = 44%N :: b').
Proof.
  intros text a b c E. destruct (clean_look text) as (l & Hl & El).
  rewrite El in E. pose proof (look_nonspace tidy_mark Hl) as HL.
  assert (Hsplit : is_space c = false ->
            exists g0 l2, nonspace l2
              /\ b = if tidy_mark c (next_char l2) g0
                     then 32%N :: decode l2 else decode l2).
  { intros Hc. destruct (@decode_split _ HL a c b Hc E) as (l1 & g & l2 & E1 & E2).
    destruct (@look_split tidy_mark l l1 c g l2 E1) as (g0 & ->).
    exists g0, l2. split; [|exact E2].
    rewrite E1 in HL. apply Forall_app in HL. destruct HL as [_ HL].
    now inversion HL. }
  split; intros ->.
  - destruct (Hsplit eq_refl) as (g0 & l2 & _ & ->). cbn. eauto.
  - destruct (Hsplit eq_refl) as (g0 & l2 & Hl2 & ->).
    pose proof (decode_next Hl2) as Hn.
    unfold tidy_mark, punct_mark. cbn [N.eqb Pos.eqb].
    destruct (next_char l2) as [d|]; [|eauto].
    destruct (N.eqb_spec d 44) as [->|_]; [|eauto].
    destruct Hn as (r & ->). eauto.
Qed.

Lemma cleaned_text_punctuation_witness :
  clean_ocr_text_advanced (u "x ,y") = u "x" ++ 44%N :: u " y"
  /\ exists b', u " y" = 32%N :: b'.
Proof.
  assert (E : clean_ocr_text_advanced (u "x ,y") = u "x" ++ 44%N :: u " y")
    by (vm_compute; reflexivity).
  split; [exact E|].
  exact (proj1 (@cleaned_text_punctuation (u "x ,y") (u "x") (u " y") 44%N E) eq_refl).
Defined.

(** X19.  The clean-up of white space and punctuation that ends
    [clean_ocr_text_advanced] is idempotent: run on its own result, it
    returns that result. *)
Theorem tidy_is_idempotent :
  forall text : str, tidy (tidy text) = tidy text.
Proof. exact tidy_tidy. Qed.

Unset Implicit Arguments.

Lemma clean_fixed (y : str) :
  tidy y = y -> apply_corrections y = y -> clean_ocr_text_advanced y = y.
Proof. intros Ht Hc. rewrite clean_eq, Hc, Ht. now destruct y. Qed.

(** X20.  [clean_ocr_text_advanced] returns its own result unchanged when
    the table of corrections leaves that result as it is. *)
Theorem cleaning_a_cleaned_text :
  forall text : str,
    apply_corrections (clean_ocr_text_advanced text) = clean_ocr_text_advanced text ->
    clean_ocr_text_advanced (clean_ocr_text_advanced text)
    = clean_ocr_text_advanced text.
Proof.
  intros text. destruct (clean_cases text) as [E|[x E]]; rewrite E.
  - intros _. reflexivity.
  - intros H. apply clean_fixed; [apply tidy_tidy|exact H].
Qed.

Set Implicit Arguments.

Lemma cleaning_a_cleaned_text_witness :
  clean_ocr_text_advanced (clean_ocr_text_advanced (u "Name :  Jane ,Roe"))
  = clean_ocr_text_advanced (u "Name :  Jane ,Roe").
Proof.
  apply (cleaning_a_cleaned_text (u "Name :  Jane ,Roe")).
  vm_compute. reflexivity.
Defined.

(* ================================================================== *)
(** * What every match keeps *)

Section MatcherInvariant.

Variable fl : flags.
Variable I : mstate -> Prop.
Hypothesis I_step : forall st c r,
  I st -> m_rest st = c :: r -> I (MState (S (m_pos st)) (Some c) r (m_caps st)).

Lemma step_char_inv ok st k e :
  I st -> step_char ok st k = Some e -> exists st', I st' /\ k st' = Some e.
Proof.
  intros Hst. unfold step_char. destruct (m_rest st) as [|c r] eqn:E; [discriminate|].
  destruct (ok c); [|discriminate]. intros H. eauto.
Qed.

Lemma repeat_loop_inv body greedy lo hi k
    (Hbody : forall st k' e, I st -> body st k' = Some e ->
               exists st', I st' /\ k' st' = Some e) :
  forall fuel count last st e,
    I st ->
    repeat_loop body greedy lo hi k fuel count last st = Some e ->
    exists st', I st' /\ k st' = Some e.
Proof.
  induction fuel as [|fuel IH]; intros count last st e Hst; [discriminate|].
  rewrite repeat_loop_S. cbv zeta.
  assert (Hagain : forall l,
            body st (fun st' => repeat_loop body greedy lo hi k fuel (S count) l st')
            = Some e -> exists st', I st' /\ k st' = Some e).
  { intros l H. destruct (Hbody _ _ _ Hst H) as (st1 & H1 & H2). exact (IH _ _ _ _ H1 H2). }
  destruct (count <? lo); [apply Hagain|].
  destruct greedy.
  - destruct (below hi count && negb (at_pos last (m_pos st))); [|eauto].
    destruct (body st _) as [e'|] eqn:E; cbn [or_else].
    + intros [= <-]. exact (Hagain _ E).
    + eauto.
  - destruct (k st) as [e'|] eqn:E; cbn [or_else].
    + intros [= <-]. eauto.
    + destruct (below hi count && negb (at_pos last (m_pos st))); [|discriminate].
      apply Hagain.
Qed.

(** A pattern without groups hands on a state that keeps what its steps
    keep. *)
Lemma rmatch_inv : forall r, group_free r = true ->
  forall st k e, I st -> rmatch fl r st k = Some e ->
    exists st', I st' /\ k st' = Some e.
Proof.
  induction r as [| x | | items | | | | r1 IH1 r2 IH2 | r1 IH1 r2 IH2
                 | greedy lo hi r IH | n r IH];
    intros Hg st k e Hst; cbn [group_free] in Hg.
  - cbn [rmatch]. eauto.
  - cbn [rmatch]. now apply step_char_inv.
  - cbn [rmatch]. now apply step_char_inv.
  - cbn [rmatch]. now apply step_char_inv.
  - cbn [rmatch]. destruct (at_bol fl st); [eauto|discriminate].
  - cbn [rmatch]. destruct (at_eol fl st); [eauto|discriminate].
  - cbn [rmatch]. destruct (at_wordb st); [eauto|discriminate].
  - apply andb_prop in Hg. destruct Hg as [G1 G2]. rewrite rmatch_seq. intros H.
    destruct (IH1 G1 _ _ _ Hst H) as (st1 & H1 & H2). exact (IH2 G2 _ _ _ H1 H2).
  - apply andb_prop in Hg. destruct Hg as [G1 G2]. cbn [rmatch].
    destruct (rmatch fl r1 st k) as [e'|] eqn:E; cbn [or_else].
    + intros [= <-]. exact (IH1 G1 _ _ _ Hst E).
    + apply IH2; assumption.
  - rewrite rmatch_repeat. apply repeat_loop_inv; [|exact Hst].
    intros st0 k' e0. now apply IH.
  - discriminate.
Qed.

End MatcherInvariant.

(* ================================================================== *)
(** * The matches of a scan *)

Lemma accept_some adv p0 st e : accept adv p0 st = Some e -> e = st.
Proof. unfold accept. destruct (adv && (m_pos st =? p0)); congruence. Qed.

Section ScanAll.

Variables (fl : flags) (r : re).
Variable F : mstate -> Prop.
Hypothesis F_match : forall adv p0 pos prev rest e,
  rmatch fl r (MState pos prev rest []) (accept adv p0) = Some e -> F e.

Lemma search_from_all adv p0 rest : forall pos prev b e,
  search_from fl r adv p0 pos prev rest = Some (b, e) -> F e.
Proof.
  induction rest as [|c rest IH]; intros pos prev b e; rewrite search_from_eq;
    destruct (rmatch _ _ _ _) as [e'|] eqn:E.
  - intros [= _ <-]. exact (F_match _ _ _ _ _ E).
  - discriminate.
  - intros [= _ <-]. exact (F_match _ _ _ _ _ E).
  - apply IH.
Qed.

Lemma scan_all : forall fuel adv pos prev rest b e,
  List.In (b, e) (scan fl r fuel adv pos prev rest) -> F e.
Proof.
  induction fuel as [|fuel IH]; intros adv pos prev rest b e; cbn [scan]; [easy|].
  destruct (search_from fl r adv pos pos prev rest) as [[b' e']|] eqn:E; [|easy].
  intros [[= <- <-]|H].
  - exact (search_from_all _ _ _ _ _ E).
  - exact (IH _ _ _ _ _ _ H).
Qed.

End ScanAll.

Section ScanBound.

Variables (fl : flags) (r : re).
Hypothesis r_free : group_free r = true.
Variable N : nat.

Lemma rmatch_bound adv p0 pos prev rest e :
  pos + length rest = N ->
  rmatch fl r (MState pos prev rest []) (accept adv p0) = Some e ->
  m_pos e + length (m_rest e) = N.
Proof.
  intros HN H.
  destruct (@rmatch_inv fl (fun st => m_pos st + length (m_rest st) = N))
    with (r := r) (st := MState pos prev rest []) (k := accept adv p0) (e := e)
    as (st' & H1 & H2); auto.
  - intros st c r0 Hst Hr. cbn [m_pos m_rest]. rewrite Hr in Hst. cbn [length] in Hst. lia.
  - apply accept_some in H2. now subst.
Qed.

Lemma search_from_bound adv p0 rest : forall pos prev b e,
  pos + length rest = N ->
  search_from fl r adv p0 pos prev rest = Some (b, e) ->
  b <= N /\ m_pos e + length (m_rest e) = N.
Proof.
  induction rest as [|c rest IH]; intros pos prev b e HN; rewrite search_from_eq;
    destruct (rmatch _ _ _ _) as [e'|] eqn:E.
  - intros [= <- <-]. split; [lia|]. exact (@rmatch_bound _ _ _ _ _ _ HN E).
  - discriminate.
  - intros [= <- <-]. split; [lia|]. exact (@rmatch_bound _ _ _ _ _ _ HN E).
  - apply IH. cbn [length] in HN. lia.
Qed.

Lemma scan_bound : forall fuel adv pos prev rest b e,
  pos + length rest = N ->
  List.In (b, e) (scan fl r fuel adv pos prev rest) -> b <= N.
Proof.
  induction fuel as [|fuel IH]; intros adv pos prev rest b e HN; cbn [scan]; [easy|].
  destruct (search_from fl r adv pos pos prev rest) as [[b' e']|] eqn:E; [|easy].
  destruct (@search_from_bound _ _ _ _ _ _ _ HN E) as [Hb He].
  intros [[= <- <-]|H]; [exact Hb|].
  exact (IH _ _ _ _ _ _ He H).
Qed.

End ScanBound.

Lemma re_finditer_start fl r text m :
  group_free r = true ->
  List.In m (re_finditer fl r text) -> mo_start m <= length text.
Proof.
  intros Hr H. unfold re_finditer in H. apply in_map_iff in H.
  destruct H as ([b e] & <- & H). cbn [to_match mo_start fst].
  apply (@scan_bound fl r Hr (length text)) in H; [exact H|reflexivity].
Qed.

(** Sorting keeps the entries. *)
Lemma insert_sorted_in p x l : List.In x (insert_sorted p l) <-> x = p \/ List.In x l.
Proof.
  induction l as [|q l IH]; cbn [insert_sorted].
  - cbn. intuition.
  - destruct (id_pos_leb p q); cbn [List.In]; [intuition|]. rewrite IH. intuition.
Qed.

Lemma sort_positions_in x l : List.In x (sort_positions l) <-> List.In x l.
Proof.
  induction l as [|p l IH]; cbn [sort_positions fold_right]; [reflexivity|].
  fold (sort_positions l). rewrite insert_sorted_in, IH. cbn. intuition.
Qed.

Lemma id_patterns_free : forallb group_free id_patterns = true.
Proof. reflexivity. Qed.

Lemma id_position_start text s e g :
  List.In (s, e, g) (find_id_positions text) -> s <= length text.
Proof.
  unfold find_id_positions. rewrite sort_positions_in, in_flat_map.
  intros (pattern & Hp & H). apply in_map_iff in H. destruct H as (m & [= <- _ _] & Hm).
  apply (@re_finditer_start no_flags pattern text m); [|exact Hm].
  exact (proj1 (forallb_forall _ _) id_patterns_free _ Hp).
Qed.

(* ================================================================== *)
(** * Short texts and the three strategies *)

Lemma single_spaced_decode l : nonspace l -> single_spaced (decode l).
Proof.
  intros Hl a x y b E Hx Hy.
  assert (x = 32%N) as ->.
  { apply (@decode_space l x Hl); [|exact Hx]. rewrite E. apply in_or_app. right. now left. }
  assert (y = 32%N) as ->.
  { apply (@decode_space l y Hl); [|exact Hy]. rewrite E. apply in_or_app. right.
    right. now left. }
  exact (@decode_no_double l Hl a b E).
Qed.

Lemma single_spaced_clean text : single_spaced (clean_ocr_text_advanced text).
Proof.
  destruct (clean_gaps text) as (l & Hl & ->). now apply single_spaced_decode.
Qed.

Lemma single_spaced_sub (a s b : str) : single_spaced (a ++ s ++ b) -> single_spaced s.
Proof.
  intros H a' x y b' E. apply (H (a ++ a') x y (b' ++ b)).
  rewrite E, <- !app_assoc. reflexivity.
Qed.

Lemma single_spaced_slice i j s : single_spaced s -> single_spaced (slice i j s).
Proof.
  intros H. apply (@single_spaced_sub (firstn i s) _ (skipn (j - i) (skipn i s))).
  unfold slice. now rewrite firstn_skipn, firstn_skipn.
Qed.

Lemma single_spaced_rev s : single_spaced s -> single_spaced (rev s).
Proof.
  intros H a x y b E Hx Hy. apply (H (rev b) y x (rev a)); auto.
  rewrite <- (rev_involutive s), E, rev_app_distr. cbn [rev].
  rewrite <- !app_assoc. reflexivity.
Qed.

Lemma lstrip_short s : single_spaced s -> length s <= length (lstrip s) + 1.
Proof.
  intros H. destruct s as [|c [|d r]]; cbn [lstrip length]; [lia| |].
  - destruct (is_space c); cbn [length]; lia.
  - destruct (is_space c) eqn:Ec; [|cbn [length]; lia].
    destruct (is_space d) eqn:Ed; [|cbn [length]; lia].
    exfalso. exact (H [] c d r eq_refl Ec Ed).
Qed.

Lemma single_spaced_lstrip s : single_spaced s -> single_spaced (lstrip s).
Proof.
  intros H. destruct (lstrip_split s) as (w & E & _).
  apply (@single_spaced_sub w _ []). now rewrite app_nil_r, <- E.
Qed.

Lemma rstrip_short s : single_spaced s -> length s <= length (rstrip s) + 1.
Proof.
  intros H. unfold rstrip. rewrite length_rev, <- (length_rev s).
  now apply lstrip_short, single_spaced_rev.
Qed.

Lemma strip_short s : single_spaced s -> length s <= length (strip s) + 2.
Proof.
  intros H. unfold strip.
  pose proof (lstrip_short H). pose proof (rstrip_short (single_spaced_lstrip H)). lia.
Qed.

Lemma slice_length i j (s : str) :
  length (slice i j s) = Nat.min (j - i) (length s - i).
Proof. unfold slice. now rewrite length_firstn, length_skipn. Qed.

Lemma keep_block_false b : keep_block b = false -> length b <= 20.
Proof.
  unfold keep_block. destruct b as [|c b]; [cbn; lia|]. cbn [nonempty andb].
  intros H. apply Nat.ltb_ge in H. exact H.
Qed.

(** When the block of the last identifier is dropped, the text has at most
    22 characters. *)
Lemma last_block_dropped text start :
  single_spaced text -> start <= length text ->
  keep_block (id_block text start None) = false ->
  length text <= 22.
Proof.
  intros Hs Hle H. apply keep_block_false in H. unfold id_block in H. cbv zeta in H.
  pose proof (strip_short
    (single_spaced_slice (Nat.max 0 (start - 50))
       (Nat.min (length text) (start + 1000)) Hs)) as Hb.
  rewrite slice_length in Hb. lia.
Qed.

Lemma id_blocks_nil_last text : forall ids,
  ids <> [] -> id_blocks text ids = [] ->
  exists s e g, List.In (s, e, g) ids /\ keep_block (id_block text s None) = false.
Proof.
  induction ids as [|[[s e] g] ids IH]; [congruence|]. intros _ H.
  cbn [id_blocks] in H. cbv zeta in H. apply app_eq_nil in H. destruct H as [H1 H2].
  destruct ids as [|q ids].
  - exists s, e, g. split; [now left|].
    destruct (keep_block (id_block text s None)); [discriminate|reflexivity].
  - destruct (IH ltac:(discriminate) H2) as (s' & e' & g' & Hin & Hk).
    exists s', e', g'. split; [now right|exact Hk].
Qed.

(** The pieces of a split are no longer than the text. *)
Lemma slice_length_le i j (s : str) : length (slice i j s) <= length s.
Proof. rewrite slice_length. lia. Qed.

Lemma group_length m n : length (group m n) <= length (mo_text m).
Proof.
  unfold group. destruct n; [apply slice_length_le|].
  destruct (span_of (S n) (mo_caps m)) as [[a b]|]; [apply slice_length_le|cbn; lia].
Qed.

Lemma join_split_length text ng : forall ms from part,
  (forall m, List.In m ms -> mo_text m = text) ->
  List.In part (join_split text ng from ms) -> length part <= length text.
Proof.
  induction ms as [|m ms IH]; intros from part Hm; cbn [join_split].
  - intros [<-|[]]. rewrite length_skipn. lia.
  - intros [<-|H]; [apply slice_length_le|].
    apply in_app_or in H. destruct H as [H|H].
    + apply in_map_iff in H. destruct H as (n & <- & _).
      rewrite <- (Hm m (or_introl eq_refl)). apply group_length.
    + apply (IH (mo_end m) part); [|exact H]. intros m' Hm'. apply Hm. now right.
Qed.

Lemma re_finditer_text fl r text m :
  List.In m (re_finditer fl r text) -> mo_text m = text.
Proof.
  unfold re_finditer. intros H. apply in_map_iff in H.
  now destruct H as (be & <- & _).
Qed.

Lemma re_split_length fl r text part :
  List.In part (re_split fl r text) -> length part <= length text.
Proof.
  unfold re_split. apply join_split_length. intros m. apply re_finditer_text.
Qed.

Lemma filter_nil (A : Type) (f : A -> bool) (l : list A) :
  (forall x, List.In x l -> f x = false) -> filter f l = [].
Proof.
  induction l as [|x l IH]; intros H; [reflexivity|]. cbn [filter].
  rewrite (H x (or_introl eq_refl)). apply IH. intros y Hy. apply H. now right.
Qed.

Lemma in_tl (A : Type) (x : A) (l : list A) : List.In x (tl l) -> List.In x l.
Proof. destruct l; [easy|]. now right. Qed.

Lemma name_blocks_short text : length text <= 24 -> name_blocks text = [].
Proof.
  intros Hle. unfold name_blocks. cbv zeta. apply filter_nil.
  intros chunk H. apply in_map_iff in H. destruct H as (part & <- & H).
  apply in_tl, re_split_length in H.
  unfold keep_chunk.
  replace (30 <? length (name_chunk part)) with false; [reflexivity|].
  symmetry. apply Nat.ltb_ge. unfold name_chunk. rewrite length_app.
  pose proof (strip_length (firstn 500 part)). rewrite length_firstn in H0.
  change (length (u "Name: ")) with 6. lia.
Qed.

Lemma rmatch_group fl n r st k :
  rmatch fl (Group n r) st k
  = rmatch fl r st (fun st' => k (set_cap n (m_pos st) (m_pos st') st')).
Proof. reflexivity. Qed.

(** A pattern of the shape [(A)B(C)] records two groups, the first before
    the second. *)
Lemma two_groups fl A B C adv p0 pos prev rest e :
  group_free A = true -> group_free B = true -> group_free C = true ->
  rmatch fl (Seq (Group 1 A) (Seq B (Group 2 C))) (MState pos prev rest [])
    (accept adv p0) = Some e ->
  serial_spans e.
Proof.
  intros gA gB gC. rewrite rmatch_seq, rmatch_group. cbn [m_pos]. intros H.
  destruct (@rmatch_inv fl (fun st => pos <= m_pos st /\ m_caps st = []))
    with (r := A) (st := MState pos prev rest []) (e := e)
         (k := fun st' => rmatch fl (Seq B (Group 2 C))
                            (set_cap 1 pos (m_pos st') st') (accept adv p0))
    as (st1 & [L1 C1] & H1); auto.
  { intros st c r [Hp Hc] _. cbn [m_pos m_caps]. split; [lia|exact Hc]. }
  rewrite rmatch_seq in H1.
  destruct (@rmatch_inv fl (fun st => m_pos st1 <= m_pos st
                                      /\ m_caps st = [(1, (pos, m_pos st1))]))
    with (r := B) (st := set_cap 1 pos (m_pos st1) st1) (e := e)
         (k := fun st' => rmatch fl (Group 2 C) st' (accept adv p0))
    as (st2 & [L2 C2] & H2); auto.
  { intros st c r [Hp Hc] _. cbn [m_pos m_caps]. split; [lia|exact Hc]. }
  { unfold set_cap. cbn [m_pos m_caps]. rewrite C1. split; [lia|reflexivity]. }
  rewrite rmatch_group in H2.
  destruct (@rmatch_inv fl (fun st => m_pos st2 <= m_pos st
                                      /\ m_caps st = [(1, (pos, m_pos st1))]))
    with (r := C) (st := st2) (e := e)
         (k := fun st' => accept adv p0 (set_cap 2 (m_pos st2) (m_pos st') st'))
    as (st3 & [L3 C3] & H3); auto.
  { intros st c r [Hp Hc] _. cbn [m_pos m_caps]. split; [lia|exact Hc]. }
  apply accept_some in H3. subst e.
  exists pos, (m_pos st1), (m_pos st2). unfold set_cap. cbn [m_pos m_caps].
  rewrite C3. repeat split; auto.
Qed.

Lemma serial_pattern_shape :
  exists A B C,
    serial_pattern = Seq (Group 1 A) (Seq B (Group 2 C))
    /\ group_free A = true /\ group_free B = true /\ group_free C = true.
Proof. do 3 eexists. split; [reflexivity|]. repeat split. Qed.

Lemma serial_pattern_groups : ngroups serial_pattern = 2.
Proof. reflexivity. Qed.

Lemma serial_match_spans text m :
  List.In m (re_finditer flag_I serial_pattern text) ->
  mo_text m = text
  /\ exists p0 p1 p2,
       mo_caps m = [(2, (p2, mo_end m)); (1, (p0, p1))]
       /\ p0 <= p1 /\ p1 <= p2 /\ p2 <= mo_end m.
Proof.
  intros H. split; [exact (@re_finditer_text _ _ _ _ H)|].
  unfold re_finditer in H. apply in_map_iff in H. destruct H as ([b e] & <- & H).
  cbn [to_match mo_caps mo_end snd].
  destruct serial_pattern_shape as (A & B & C & E & gA & gB & gC).
  rewrite E in H.
  apply (@scan_all flag_I _ serial_spans) in H; [exact H|].
  intros adv p0 pos prev rest e'. now apply two_groups.
Qed.

(** On a text of at most 26 characters every triple of the serial-number
    strategy is too short to be kept. *)
Lemma serial_triples_short text : forall ms from,
  length text <= 26 ->
  (forall m, List.In m ms ->
     mo_text m = text
     /\ exists p0 p1 p2,
          mo_caps m = [(2, (p2, mo_end m)); (1, (p0, p1))]
          /\ p0 <= p1 /\ p1 <= p2 /\ p2 <= mo_end m) ->
  serial_triples (tl (join_split text 2 from ms)) = [].
Proof.
  induction ms as [|m ms IH]; intros from Hle Hm; [reflexivity|].
  cbn [join_split tl seq map app].
  destruct (Hm m (or_introl eq_refl)) as (Ht & p0 & p1 & p2 & Hc & L1 & L2 & L3).
  assert (Hrest : exists piece,
            join_split text 2 (mo_end m) ms
            = piece :: tl (join_split text 2 (mo_end m) ms)
            /\ length piece <= length text - mo_end m).
  { destruct ms as [|m' ms]; cbn [join_split tl]; eexists; split; try reflexivity.
    - rewrite length_skipn. lia.
    - rewrite slice_length. lia. }
  destruct Hrest as (piece & -> & Hp).
  cbn [serial_triples]. cbv zeta.
  rewrite IH; [|exact Hle|intros m' Hm'; apply Hm; now right].
  rewrite app_nil_r.
  assert (H1 : length (group m 1) <= Nat.min (p1 - p0) (length text - p0)).
  { unfold group. rewrite Hc. cbn [span_of Nat.eqb]. rewrite Ht, slice_length. lia. }
  assert (H2 : length (group m 2)
               <= Nat.min (mo_end m - p2) (length text - p2)).
  { unfold group. rewrite Hc. cbn [span_of Nat.eqb]. rewrite Ht, slice_length. lia. }
  replace (30 <? length (combine (group m 1) (group m 2) (firstn 800 piece)))
    with false; [reflexivity|].
  symmetry. apply Nat.ltb_ge. unfold combine.
  etransitivity; [apply strip_length|].
  rewrite !length_app, length_firstn. change (length (u " ")) with 1. lia.
Qed.

Lemma serial_blocks_short text : length text <= 26 -> serial_blocks text = [].
Proof.
  intros Hle. unfold serial_blocks, re_split. rewrite serial_pattern_groups.
  apply serial_triples_short; [exact Hle|]. intros m. apply serial_match_spans.
Qed.

Lemma find_voter_records_eq text :
  find_voter_records_flexible text
  = let text_clean := clean_ocr_text_advanced text in
    let id_positions := find_id_positions text_clean in
    let voter_blocks :=
      if is_nil id_positions then [] else id_blocks text_clean id_positions in
    let voter_blocks :=
      if is_nil voter_blocks then name_blocks text_clean else voter_blocks in
    if is_nil voter_blocks then serial_blocks text_clean else voter_blocks.
Proof. reflexivity. Qed.

Lemma ids_found_no_block text ids :
  single_spaced text ->
  (forall s e g, List.In (s, e, g) ids -> s <= length text) ->
  ids <> [] -> id_blocks text ids = [] ->
  name_blocks text = [] /\ serial_blocks text = [].
Proof.
  intros Hs Hb Hne Hnil.
  destruct (id_blocks_nil_last text Hne Hnil) as (s & e & g & Hin & Hk).
  pose proof (last_block_dropped Hs (Hb _ _ _ Hin) Hk) as Hle.
  split; [apply name_blocks_short|apply serial_blocks_short]; lia.
Qed.

(** X21.  When the cleaned text holds at least one identifier, what
    [find_voter_records_flexible] returns is the blocks of the identifier
    strategy, whether or not the text also holds name labels or serial
    numbers: the other two strategies add nothing, also when every
    identifier block is dropped as too short. *)
Theorem identifier_strategy_has_priority :
  forall text : str,
    find_id_positions (clean_ocr_text_advanced text) <> [] ->
    find_voter_records_flexible text
    = id_blocks (clean_ocr_text_advanced text)
        (find_id_positions (clean_ocr_text_advanced text)).
Proof.
  intros text Hne. rewrite find_voter_records_eq. cbv zeta.
  pose proof (single_spaced_clean text) as Hs.
  pose proof (@id_position_start (clean_ocr_text_advanced text)) as Hb.
  revert Hne Hs Hb.
  generalize (clean_ocr_text_advanced text) as t. intros t.
  generalize (find_id_positions t) as ids. intros ids Hne Hs Hb.
  destruct ids as [|p ids]; [congruence|]. cbn [is_nil].
  destruct (id_blocks t (p :: ids)) as [|b bs] eqn:E; [|reflexivity].
  destruct (@ids_found_no_block t (p :: ids) Hs Hb Hne E) as [-> ->].
  reflexivity.
Qed.

Lemma identifier_strategy_witness :
  find_voter_records_flexible
    (u "12 AB1234567 Name: Jane Roe Age: 34 Gender: Female House: 12A")
  = id_blocks
      (clean_ocr_text_advanced
         (u "12 AB1234567 Name: Jane Roe Age: 34 Gender: Female House: 12A"))
      (find_id_positions
         (clean_ocr_text_advanced
            (u "12 AB1234567 Name: Jane Roe Age: 34 Gender: Female House: 12A"))).
Proof.
  apply identifier_strategy_has_priority. vm_compute. discriminate.
Defined.

(* ================================================================== *)
(** * Statistics *)

Lemma str_eqb_refl (a : str) : str_eqb a a = true.
Proof. induction a as [|x a IH]; [reflexivity|]. cbn. now rewrite N.eqb_refl. Qed.

Lemma str_eqb_neq (a b : str) : a <> b -> str_eqb a b = false.
Proof.
  intros H. destruct (str_eqb a b) eqn:E; [|reflexivity].
  apply str_eqb_eq in E. contradiction.
Qed.

Lemma str_eqb_false (a b : str) : str_eqb a b = false -> a <> b.
Proof. intros H ->. rewrite str_eqb_refl in H. discriminate. Qed.

Lemma sum_of_ones (A : Type) (l : list A) : list_sum (map (fun _ => 1) l) = length l.
Proof. induction l as [|x l IH]; [reflexivity|]. cbn in *. now f_equal. Qed.

Lemma counts_set_sum d k v :
  list_sum (map snd (counts_set d k v)) + counts_get d k 0
  = list_sum (map snd d) + v.
Proof.
  induction d as [|[k' v'] d IH]; cbn [counts_set counts_get].
  - cbn. lia.
  - unfold list_sum in *. destruct (str_eqb k' k); cbn [map snd fold_right] in *; lia.
Qed.

Lemma counts_set_keys d k v g :
  List.In g (map fst (counts_set d k v)) <-> g = k \/ List.In g (map fst d).
Proof.
  induction d as [|[k' v'] d IH]; cbn [counts_set].
  - cbn. intuition.
  - destruct (str_eqb k' k) eqn:E; cbn [map fst List.In].
    + apply str_eqb_eq in E. subst k'. intuition.
    + rewrite IH. intuition.
Qed.

Lemma counts_set_nodup d k v :
  NoDup (map fst d) -> NoDup (map fst (counts_set d k v)).
Proof.
  induction d as [|[k' v'] d IH]; cbn [counts_set]; intros H.
  - cbn. constructor; [easy|constructor].
  - destruct (str_eqb k' k) eqn:E; [exact H|].
    cbn [map fst] in *. inversion H as [|x l Hn Hd]; subst.
    constructor; [|now apply IH].
    rewrite counts_set_keys. intros [->|Hin]; [|contradiction].
    rewrite str_eqb_refl in E. discriminate.
Qed.

Lemma counts_get_set d k v g :
  counts_get (counts_set d k v) g 0
  = if str_eqb k g then v else counts_get d g 0.
Proof.
  induction d as [|[k' v'] d IH]; cbn [counts_set counts_get].
  - reflexivity.
  - destruct (str_eqb k' k) eqn:E; cbn [counts_get].
    + apply str_eqb_eq in E. subst k'. now destruct (str_eqb k g).
    + rewrite IH. destruct (str_eqb k' g) eqn:E'; [|reflexivity].
      apply str_eqb_eq in E'. subst k'.
      replace (str_eqb k g) with false; [reflexivity|].
      symmetry. apply str_eqb_neq. intros ->. rewrite str_eqb_refl in E. discriminate.
Qed.

Lemma count_age_group_sum d v :
  list_sum (map snd (count_age_group d v)) = list_sum (map snd d) + 1.
Proof.
  unfold count_age_group. cbv zeta.
  pose proof (counts_set_sum d (age_group v) (counts_get d (age_group v) 0 + 1)).
  lia.
Qed.

Lemma count_age_group_keys d v g :
  List.In g (map fst (count_age_group d v))
  <-> g = age_group v \/ List.In g (map fst d).
Proof. unfold count_age_group. cbv zeta. apply counts_set_keys. Qed.

Lemma count_age_group_nodup d v :
  NoDup (map fst d) -> NoDup (map fst (count_age_group d v)).
Proof. unfold count_age_group. cbv zeta. apply counts_set_nodup. Qed.

Lemma count_age_group_get d v g :
  counts_get (count_age_group d v) g 0
  = counts_get d g 0 + (if str_eqb (age_group v) g then 1 else 0).
Proof.
  unfold count_age_group. cbv zeta. rewrite counts_get_set.
  destruct (str_eqb (age_group v) g) eqn:E; [|lia].
  apply str_eqb_eq in E. now subst g.
Qed.

(** What the counting loop keeps, round by round. *)
Lemma count_age_groups voters : forall d,
  NoDup (map fst d) ->
  let r := fold_left count_age_group voters d in
  list_sum (map snd r) = list_sum (map snd d) + length voters
  /\ NoDup (map fst r)
  /\ (forall g, counts_get r g 0
                = counts_get d g 0
                  + length (filter (fun v => str_eqb (age_group v) g) voters))
  /\ (forall g, List.In g (map fst r)
                <-> List.In g (map fst d)
                    \/ exists v, List.In v voters /\ age_group v = g).
Proof.
  induction voters as [|v voters IH]; intros d Hd; cbv zeta; cbn [fold_left].
  - cbn. repeat split; auto; try lia. intros [H|(v & [] & _)]. exact H.
  - destruct (IH (count_age_group d v) (@count_age_group_nodup d v Hd))
      as (I1 & I2 & I3 & I4).
    repeat split.
    + rewrite I1, count_age_group_sum. cbn [length]. lia.
    + exact I2.
    + intros g. rewrite I3, count_age_group_get. cbn [filter].
      destruct (str_eqb (age_group v) g); cbn [length]; lia.
    + intros H. apply I4 in H. rewrite count_age_group_keys in H.
      destruct H as [[->|H]|(v' & Hin & Hg)]; [right|now left|right].
      * exists v. split; [now left|reflexivity].
      * exists v'. split; [now right|exact Hg].
    + intros H. apply I4. rewrite count_age_group_keys.
      destruct H as [H|(v' & [->|Hin] & Hg)]; [left; now right|left; now left|right].
      exists v'. now split.
Qed.

(** X22.  The age distribution adds up: the counts of its rows sum to the
    number of records, no group is listed twice, a group is listed when a
    record has it, and its count is the number of the records that have
    it. *)
Theorem age_distribution_adds_up :
  forall voters : list voter,
    list_sum (map snd (age_distribution voters)) = length voters
    /\ NoDup (map fst (age_distribution voters))
    /\ (forall group,
          counts_get (age_distribution voters) group 0
          = length (filter (fun v => str_eqb (age_group v) group) voters))
    /\ (forall group,
          List.In group (map fst (age_distribution voters))
          <-> exists v, List.In v voters /\ age_group v = group).
Proof.
  intros voters. unfold age_distribution.
  destruct (@count_age_groups voters [] (NoDup_nil _)) as (H1 & H2 & H3 & H4).
  repeat split; auto.
  - intros H. apply H4 in H. destruct H as [[]|H]. exact H.
  - intros H. apply H4. now right.
Qed.

Lemma gender_count_length code voters :
  gender_count code voters
  = length (filter (fun v => str_eqb (gender v) code) voters).
Proof. unfold gender_count. apply sum_of_ones. Qed.

Lemma male_is_not_female g :
  str_eqb g (u "M") = true -> str_eqb g (u "F") = false.
Proof. intros H. apply str_eqb_eq in H. now subst. Qed.

(** X23.  The count of other genders the statistics pane computes,
    [len(voters) - male_count - female_count], is never negative: it is
    the number of the records whose gender is neither 'M' nor 'F'. *)
Theorem other_count_is_the_rest :
  forall voters : list voter,
    other_count voters
    = Z.of_nat
        (length
           (filter (fun v => negb (str_eqb (gender v) (u "M"))
                             && negb (str_eqb (gender v) (u "F"))) voters))
    /\ (0 <= other_count voters)%Z.
Proof.
  intros voters.
  assert (H : other_count voters
              = Z.of_nat
                  (length
                     (filter (fun v => negb (str_eqb (gender v) (u "M"))
                                       && negb (str_eqb (gender v) (u "F")))
                        voters))).
  { unfold other_count. rewrite !gender_count_length.
    induction voters as [|v voters IH]; [reflexivity|]. cbn [filter length].
    destruct (str_eqb (gender v) (u "M")) eqn:EM.
    - rewrite (male_is_not_female _ EM). cbn [negb andb length]. lia.
    - destruct (str_eqb (gender v) (u "F")); cbn [negb andb length]; lia. }
  split; [exact H|]. rewrite H. lia.
Qed.

Lemma age_label_of_valid (a : Z) :
  (18 <= a <= 120)%Z -> List.In (categorize_age a) age_labels.
Proof.
  intros H. unfold categorize_age, age_labels.
  destruct (a <? 18)%Z eqn:E1; [apply Z.ltb_lt in E1; lia|].
  destruct (a <=? 29)%Z; [now left|].
  destruct (a <=? 45)%Z; [right; now left|right; right; now left].
Qed.

Lemma built_age_label metadata v :
  built_with metadata v -> List.In (age_group v) age_labels.
Proof.
  intros (block & index & H).
  pose proof (parse_returns_valid _ _ _ H) as (_ & Ha).
  apply parse_fields in H. cbv zeta in H.
  destruct H as (_ & _ & _ & _ & _ & -> & _). now apply age_label_of_valid.
Qed.

Lemma process_pages_age_labels nps : forall st,
  Forall (fun v => List.In (age_group v) age_labels) (all_voters st) ->
  exists st',
    process_pages st nps = Returned st'
    /\ Forall (fun v => List.In (age_group v) age_labels) (all_voters st').
Proof.
  induction nps as [|np nps IH]; intros st Hst.
  - exists st. now split.
  - cbn [process_pages].
    destruct (process_page_spec st np) as (st1 & new & -> & Hv & Hb & _).
    apply IH. rewrite Hv. apply Forall_app. split; [exact Hst|].
    revert Hb. apply Forall_impl. intros v. apply built_age_label.
Qed.

(** X24.  The age distribution of the records [extract_from_scanned_pdf]
    returns has at most three rows, and their labels are among '18-29',
    '30-45' and '45+': neither 'Under 18' nor 'Unknown' is listed. *)
Theorem pipeline_age_groups :
  forall (metadata : dict) (images : list (string -> ocr_result)),
    exists st,
      extract_from_scanned_pdf metadata images = Returned st
      /\ (forall group,
            List.In group (map fst (age_distribution (all_voters st))) ->
            List.In group age_labels)
      /\ length (age_distribution (all_voters st)) <= 3.
Proof.
  intros metadata images. unfold extract_from_scanned_pdf.
  destruct (@process_pages_age_labels (enumerate 1 images) (Pipeline metadata [] []))
    as (st & H & Hl); [constructor|].
  exists st. split; [exact H|].
  destruct (@count_age_groups (all_voters st) [] (NoDup_nil _)) as (_ & Hn & _ & Hk).
  fold (age_distribution (all_voters st)) in Hn, Hk.
  assert (Hin : forall group,
            List.In group (map fst (age_distribution (all_voters st))) ->
            List.In group age_labels).
  { intros group Hg. apply Hk in Hg. destruct Hg as [[]|(v & Hv & <-)].
    exact (proj1 (Forall_forall _ _) Hl v Hv). }
  split; [exact Hin|].
  rewrite <- (length_map fst).
  exact (NoDup_incl_length Hn Hin).
Qed.

(** X25.  [save_to_excel] raises for an empty list.  For any other list
    the dashboard it writes ends with the rows of the age distribution,
    one per group, and their counts add up to the value of its row 'Total
    Records'. *)
Theorem dashboard_counts_add_up :
  forall (now : str) (metadata : dict) (voters : list voter),
    voters <> [] ->
    save_to_excel now metadata [] = Raised
    /\ exists front,
         save_to_excel now metadata voters
         = Returned
             (front ++ map (fun gc => (Text (fst gc), Number (snd gc)))
                         (age_distribution voters))
         /\ nth_error front 3
            = Some (Text (u "Total Records"),
                    Number (list_sum (map snd (age_distribution voters)))).
Proof.
  intros now metadata voters Hne. split; [reflexivity|].
  destruct (@count_age_groups voters [] (NoDup_nil _)) as (Hsum & _).
  fold (age_distribution voters) in Hsum. cbn in Hsum. rewrite Hsum.
  unfold save_to_excel, dashboard_data, statistics_rows.
  destruct voters as [|v voters]; [congruence|]. cbn [is_nil].
  eexists. split.
  - rewrite !app_assoc. reflexivity.
  - reflexivity.
Qed.

Lemma dashboard_counts_witness :
  save_to_excel (u "2025-01-01 00:00:00") [] [] = Raised
  /\ exists front,
       save_to_excel (u "2025-01-01 00:00:00") [] [sample_voter; sample_voter]
       = Returned
           (front ++ map (fun gc => (Text (fst gc), Number (snd gc)))
                       (age_distribution [sample_voter; sample_voter]))
       /\ nth_error front 3
          = Some (Text (u "Total Records"),
                  Number (list_sum (map snd
                            (age_distribution [sample_voter; sample_voter])))).
Proof.
  apply (@dashboard_counts_add_up (u "2025-01-01 00:00:00") []
           [sample_voter; sample_voter]).
  discriminate.
Defined.

(* ================================================================== *)
(** * The normaliser twice, and an identifier the normaliser changes *)

Unset Implicit Arguments.


Set Implicit Arguments.


(** The normaliser can itself remove an identifier from a page text: the
    lone 0 of WB/24/0/375141 becomes the letter O, no identifier is found
    in the normalised text, and the block returned is that of the
    name-label strategy. *)
Lemma zero_correction_hides_the_identifier :
  find_id_positions slashed_id_text = [(0, 14, u "WB/24/0/375141")]
  /\ clean_ocr_text_advanced slashed_id_text
     = u "WB/24/O/375141 Name: Jane Roe Age: 34 Gender: Female House: 12A"
  /\ find_id_positions (clean_ocr_text_advanced slashed_id_text) = []
  /\ find_voter_records_flexible slashed_id_text
     = [u "Name: Jane Roe Age: 34 Gender: Female House: 12A"].
Proof. vm_compute. repeat split; reflexivity. Qed.



